(** * Earley recognizer (src/earley.py): shallow embedding and verification

    The Python program builds an Earley chart for a sentence, looks for an
    accepting item in the last position and prints one derivation.  The
    embedding below follows the source function by function:

    - [Rule], [Grammar], [EarleyItem], [ItemSet] are the classes of the
      same names;
    - the chart ([earley_item_set] in the source) is a list of item sets
      that the engine mutates in place; here it is threaded explicitly and
      the reference [item_set] the source passes around is the index of
      that set in the chart;
    - the [for item in item_set] loops of the source iterate over a list
      that is appended to while it is iterated, so they are cursor loops;
      they are written with a step budget (fuel), and the development
      proves that a budget computed from the grammar and the sentence is
      always enough;
    - Python exceptions ([KeyError], [IndexError]) are values of the
      [result] type. *)

From stdpp Require Import base option list gmap strings.

Set Default Proof Using "Type".
Set Warnings "-clear-no-such-hyp".

(** ** Data model *)

Abbreviation Symbol := string (only parsing).

(** [class Rule].  The class defines no [__eq__], so [==] on rules is
    object identity; [rid] stands for the identity of the object. *)
Record Rule := mkRule {
  rid : nat;
  lhs : Symbol;
  rhs : list Symbol
}.

Definition rule_eqb (a b : Rule) : bool := bool_decide (rid a = rid b).

(** [class Grammar]: a dict from left-hand symbol to the list of its rules,
    and the start symbol. *)
Record Grammar := mkGrammar {
  rules : gmap string (list Rule);
  start_rule : Symbol
}.

(** The loop body of [Grammar.__init__]. *)
Definition add_rule (m : gmap string (list Rule)) (rule : Rule)
    : gmap string (list Rule) :=
  match m !! lhs rule with
  | None => <[lhs rule := [rule]]> m
  | Some rs => <[lhs rule := rs ++ [rule]]> m
  end.

(** Outcome of a Python call: a value or a raised exception.  [OutOfFuel]
    is not a Python outcome: it marks a cursor loop of the model that was
    given too small a step budget. *)
Inductive result (A : Type) : Type :=
  | Ok (a : A)
  | KeyError (k : option Symbol)
  | IndexError
  | OutOfFuel.
Arguments Ok {A} a.
Arguments KeyError {A} k.
Arguments IndexError {A}.
Arguments OutOfFuel {A}.

Definition result_bind {A B} (f : A → result B) (m : result A) : result B :=
  match m with
  | Ok a => f a
  | KeyError k => KeyError k
  | IndexError => IndexError
  | OutOfFuel => OutOfFuel
  end.

#[global] Instance result_mbind : MBind result := @result_bind.
#[global] Instance result_mret : MRet result := @Ok.

(** [Grammar.__init__]: it groups the rules and performs no check, so it
    always returns a grammar. *)
Definition Grammar_init (rs : list Rule) (start : Symbol) : result Grammar :=
  Ok (mkGrammar (foldl add_rule ∅ rs) start).

(** [class EarleyItem]. *)
#[warnings="-register-all"]
Inductive EarleyItem := mkItem {
  rule : Rule;
  start : nat;
  dot : nat;
  prev : list EarleyItem
}.

(** [EarleyItem.__eq__]: rule, start and dot; [prev] is not compared. *)
Definition item_eqb (a b : EarleyItem) : bool :=
  rule_eqb (rule a) (rule b) &&
  bool_decide (start a = start b) &&
  bool_decide (dot a = dot b).

Abbreviation ItemSet := (list EarleyItem) (only parsing).

(** What a Python call hands back when the callee has no [return]. *)
Inductive pyval := PyNone | PyBool (b : bool).

(** [list.__contains__(self, val)]. *)
Definition contains (s : ItemSet) (val : EarleyItem) : bool :=
  existsb (λ el, item_eqb el val) s.

(** [ItemSet.append]: the new list and the value of the call. *)
Definition append (s : ItemSet) (val : EarleyItem) : ItemSet * pyval :=
  (if contains s val then s else s ++ [val], PyNone).

(** [ItemSet.extend] over a list that is already built. *)
Definition extend (s : ItemSet) (values : list EarleyItem) : ItemSet :=
  foldl (λ acc val, (append acc val).1) s values.

(** [class EarleyState]. *)
Inductive EarleyState := Complete | Terminal | NonTerminal.

(** [next_symb]. *)
Definition next_symb (earley_item : EarleyItem) (terminals : gset string)
    : EarleyState * option Symbol :=
  if decide (dot earley_item < length (rhs (rule earley_item))) then
    match rhs (rule earley_item) !! dot earley_item with
    | Some symb =>
        (if decide (symb ∈ terminals) then Terminal else NonTerminal, Some symb)
    | None => (Complete, None)
    end
  else (Complete, None).

(** ** The chart as a store of item sets *)

Abbreviation Chart := (list (list EarleyItem)) (only parsing).

(** The list object at location [loc] (a reference the source already
    holds). *)
Definition item_set_at (chart : Chart) (loc : nat) : ItemSet :=
  default [] (chart !! loc).

(** [item_set.append(val)] through the reference [loc]. *)
Definition append_at (chart : Chart) (loc : nat) (val : EarleyItem) : Chart :=
  <[loc := (append (item_set_at chart loc) val).1]> chart.

Definition extend_at (chart : Chart) (loc : nat) (values : list EarleyItem)
    : Chart :=
  foldl (λ c val, append_at c loc val) chart values.

(** [predict]: the list comprehension is built first (the dict lookup may
    raise), then appended item by item. *)
Definition predict (grammar : Grammar) (chart : Chart) (loc : nat)
    (symb : option Symbol) (i : nat) : result Chart :=
  match symb ≫= (λ s, rules grammar !! s) with
  | None => KeyError symb
  | Some rs => Ok (extend_at chart loc ((λ r, mkItem r i 0 []) <$> rs))
  end.

(** [scan]. *)
Definition scan (chart : Chart) (item : EarleyItem) (symb : option Symbol)
    (word : Symbol) (i : nat) : result Chart :=
  if decide (symb = Some word) then
    match chart !! (i + 1) with
    | None => IndexError
    | Some _ =>
        Ok (append_at chart (i + 1)
              (mkItem (rule item) (start item) (dot item + 1) (prev item)))
    end
  else Ok chart.

(** The item [complete] builds from [it] and the finished [item]. *)
Definition advance (it item : EarleyItem) : EarleyItem :=
  mkItem (rule it) (start it) (dot it + 1) (prev it ++ [item]).

(** [complete]: [extend] pulls from a lazy [map] over a lazy [filter] over
    the list [earley_item_set[item.start]], which is the very list being
    extended when [item.start] is the current position.  [j] is the cursor
    of the list iterator. *)
Fixpoint complete_loop (fuel : nat) (chart : Chart) (loc : nat)
    (item : EarleyItem) (terminals : gset string) (j : nat) : result Chart :=
  match fuel with
  | 0 => OutOfFuel
  | S fuel' =>
      match item_set_at chart (start item) !! j with
      | None => Ok chart
      | Some old_item =>
          let chart' :=
            if decide ((next_symb old_item terminals).2 = Some (lhs (rule item)))
            then append_at chart loc (advance old_item item)
            else chart in
          complete_loop fuel' chart' loc item terminals (S j)
      end
  end.

Definition complete (fuel : nat) (chart : Chart) (loc : nat)
    (item : EarleyItem) (terminals : gset string) : result Chart :=
  match chart !! start item with
  | None => IndexError
  | Some _ => complete_loop fuel chart loc item terminals 0
  end.

(** The body of the inner loop of [earley]. *)
Definition process_item (fuel : nat) (grammar : Grammar)
    (terminals : gset string) (word : Symbol) (i : nat) (chart : Chart)
    (item : EarleyItem) : result Chart :=
  let '(state, symb) := next_symb item terminals in
  match state with
  | Complete => complete fuel chart i item terminals
  | NonTerminal => predict grammar chart i symb i
  | Terminal => scan chart item symb word i
  end.

(** [for item in item_set] of the main loop; [k] is the cursor. *)
Fixpoint process_loop (n fuel : nat) (grammar : Grammar)
    (terminals : gset string) (word : Symbol) (i : nat) (chart : Chart)
    (k : nat) : result Chart :=
  match n with
  | 0 => OutOfFuel
  | S n' =>
      match item_set_at chart i !! k with
      | None => Ok chart
      | Some item =>
          chart' ← process_item fuel grammar terminals word i chart item;
          process_loop n' fuel grammar terminals word i chart' (S k)
      end
  end.

(** [for i, (word, item_set) in enumerate(zip(sentence, earley_item_set))]:
    [zip] stops as soon as one of the two sequences is exhausted. *)
Fixpoint main_loop (fuel : nat) (grammar : Grammar) (terminals : gset string)
    (words : list Symbol) (i : nat) (chart : Chart) : result Chart :=
  match words with
  | [] => Ok chart
  | word :: words' =>
      match chart !! i with
      | None => Ok chart
      | Some _ =>
          chart' ← process_loop fuel fuel grammar terminals word i chart 0;
          main_loop fuel grammar terminals words' (S i) chart'
      end
  end.

(** [for item in earley_item_set[-1]]: only [complete] is dispatched. *)
Fixpoint sweep_loop (n fuel : nat) (terminals : gset string) (loc : nat)
    (chart : Chart) (k : nat) : result Chart :=
  match n with
  | 0 => OutOfFuel
  | S n' =>
      match item_set_at chart loc !! k with
      | None => Ok chart
      | Some item =>
          match (next_symb item terminals).1 with
          | Complete =>
              chart' ← complete fuel chart loc item terminals;
              sweep_loop n' fuel terminals loc chart' (S k)
          | _ => sweep_loop n' fuel terminals loc chart (S k)
          end
      end
  end.

Definition final_sweep (fuel : nat) (terminals : gset string) (chart : Chart)
    : result Chart :=
  match chart with
  | [] => IndexError
  | _ => sweep_loop fuel fuel terminals (length chart - 1) chart 0
  end.

(** The chart [earley] starts from.  [ItemSet(...)] goes through
    [list.__init__], not through the overridden [append]. *)
Definition initial_chart (rs : list Rule) (sentence : list Symbol) : Chart :=
  ((λ r, mkItem r 0 0 []) <$> rs) :: replicate (length sentence) [].

(** [earley]. *)
Definition earley_fuel (fuel : nat) (grammar : Grammar)
    (terminals : gset string) (sentence : list Symbol) : result Chart :=
  match rules grammar !! start_rule grammar with
  | None => KeyError (Some (start_rule grammar))
  | Some rs =>
      chart ← main_loop fuel grammar terminals sentence 0
                 (initial_chart rs sentence);
      final_sweep fuel terminals chart
  end.

(** [to_lr]: [sum(map(to_lr, item.prev), [])] adds the lists from left to
    right, starting from the empty list. *)
Fixpoint to_lr (item : EarleyItem) : list Rule :=
  match item with
  | mkItem r _ _ p => foldl (λ acc l, acc ++ l) [] (to_lr <$> p) ++ [r]
  end.

(** ** The script: acceptance check and output *)

Definition accepting (start_symbol : Symbol) (item : EarleyItem) : bool :=
  bool_decide (dot item = length (rhs (rule item))) &&
  bool_decide (start item = 0) &&
  bool_decide (lhs (rule item) = start_symbol).

(** [earley_set[-1]]. *)
Definition final_position (earley_set : Chart) : ItemSet :=
  default [] (last earley_set).

(** Lines 172-184: [None] is the branch that prints "Incorrect sentence."
    and exits. *)
Definition acceptance (earley_set : Chart) (sentence : list Symbol)
    (start_symbol : Symbol) : option EarleyItem :=
  if decide (length earley_set ≠ length sentence + 1) then None
  else find (accepting start_symbol) (final_position earley_set).

(** The whole script after the grammar is built: the printed rules, in the
    printed order, or [None] for "Incorrect sentence.".  The recursion
    limit of the interpreter is not part of the model: [Some] is what
    line 186 prints when the call of [to_lr] returns. *)
Definition parse (fuel : nat) (grammar : Grammar) (terminals : gset string)
    (sentence : list Symbol) : result (option (list Rule)) :=
  earley_set ← earley_fuel fuel grammar terminals sentence;
  Ok (match acceptance earley_set sentence (start_rule grammar) with
      | None => None
      | Some last_item => Some (reverse (to_lr last_item))
      end).

(** ** Auxiliary notions used by the statements *)

(** The triple [EarleyItem.__eq__] compares. *)
Definition item_key (item : EarleyItem) : nat * nat * nat :=
  (rid (rule item), start item, dot item).

(** The keys present in an item set. *)
Definition keyset (s : ItemSet) : gset (nat * nat * nat) :=
  list_to_set (item_key <$> s).

(** One chart is an extension of another: same positions, and every
    position's list is a prefix of the later one. *)
Definition chart_le (c c' : Chart) : Prop :=
  length c = length c' ∧
  ∀ p, item_set_at c p `prefix_of` item_set_at c' p.

(** The insertions the engine performs: [predict] (only at positions that
    have an input word), [scan] and [complete], each against the chart as
    it is when the insertion happens. *)
Inductive insertion (g : Grammar) (t : gset string) (w : list Symbol)
    (c : Chart) : nat → EarleyItem → Prop :=
  | ins_predict i item symb rs r :
      item ∈ item_set_at c i →
      next_symb item t = (NonTerminal, Some symb) →
      rules g !! symb = Some rs →
      r ∈ rs →
      i < length w →
      insertion g t w c i (mkItem r i 0 [])
  | ins_scan i item word :
      item ∈ item_set_at c i →
      w !! i = Some word →
      next_symb item t = (Terminal, Some word) →
      insertion g t w c (i + 1)
        (mkItem (rule item) (start item) (dot item + 1) (prev item))
  | ins_complete i item old_item :
      item ∈ item_set_at c i →
      (next_symb item t).1 = Complete →
      old_item ∈ item_set_at c (start item) →
      (next_symb old_item t).2 = Some (lhs (rule item)) →
      insertion g t w c i (advance old_item item).

(** One mutation of the chart. *)
Definition chart_step (g : Grammar) (t : gset string) (w : list Symbol)
    (c c' : Chart) : Prop :=
  ∃ loc val, insertion g t w c loc val ∧ c' = append_at c loc val.

(** Every rule object the grammar holds. *)
Definition all_rules (g : Grammar) : list Rule :=
  mjoin (snd <$> map_to_list (rules g)).

(** Every key an item of a chart for [n] words can have. *)
Definition key_universe (g : Grammar) (n : nat) : list (nat * nat * nat) :=
  r ← all_rules g;
  s ← seq 0 (S n);
  d ← seq 0 (S (length (rhs r)));
  [(rid r, s, d)].

(** A step budget no loop of [earley] exhausts: no item set ever holds
    more than this many items. *)
Definition enough_fuel (g : Grammar) (w : list Symbol) : nat :=
  length (default [] (rules g !! start_rule g)) +
  length (key_universe g (length w)).

(** [earley] with a sufficient budget. *)
Definition earley (g : Grammar) (t : gset string) (w : list Symbol)
    : result Chart :=
  earley_fuel (S (enough_fuel g w)) g t w.

Definition item_ok (g : Grammar) (i : nat) (item : EarleyItem) : Prop :=
  start item ≤ i ∧
  dot item ≤ length (rhs (rule item)) ∧
  rule item ∈ all_rules g.

(** What holds of every chart the engine goes through. *)
Record chart_inv (g : Grammar) (w : list Symbol) (c : Chart) : Prop := {
  inv_length : length c = length w + 1;
  inv_items : ∀ i item, item ∈ item_set_at c i → item_ok g i item;
  inv_size : ∀ i,
    length (item_set_at c i) ≤
      length (default [] (rules g !! start_rule g)) +
      size (keyset (item_set_at c i))
}.

(** A [KeyError] of [predict]: a symbol of some right-hand side that is
    neither a terminal nor a key of the grammar. *)
Definition undefined_ref (g : Grammar) (t : gset string)
    (k : option Symbol) : Prop :=
  ∃ s r, k = Some s ∧ rules g !! s = None ∧ (s ∉ t) ∧
         r ∈ all_rules g ∧ s ∈ rhs r.

(** What a call of the engine started on chart [c] may end in; [oof] is
    the condition under which the budget can run out. *)
Definition outcome (g : Grammar) (t : gset string) (w : list Symbol)
    (oof : Prop) (c : Chart) (r : result Chart) : Prop :=
  match r with
  | Ok c' => rtc (chart_step g t w) c c'
  | KeyError k => undefined_ref g t k
  | IndexError => False
  | OutOfFuel => oof
  end.

(** What a run of [earley] may end in. *)
Definition earley_spec (g : Grammar) (t : gset string) (w : list Symbol)
    (fuel : nat) (r : result Chart) : Prop :=
  match r with
  | Ok chart =>
      ∃ rs, rules g !! start_rule g = Some rs ∧
            rtc (chart_step g t w) (initial_chart rs w) chart
  | KeyError k =>
      (k = Some (start_rule g) ∧ rules g !! start_rule g = None) ∨
      undefined_ref g t k
  | IndexError => False
  | OutOfFuel => fuel ≤ enough_fuel g w
  end.

(** The bound on the size of a collection, spelled out: the rules of the
    start symbol, plus one entry per rule, origin and dot. *)
Definition size_bound (g : Grammar) (w : list Symbol) : nat :=
  length (default [] (rules g !! start_rule g)) +
  S (length w) * sum_list_with (λ r, S (length (rhs r))) (all_rules g).

(** A grammar in which [predict] cannot fail: the start symbol has rules,
    and so has every symbol of a right-hand side that is not a terminal. *)
Definition closed_grammar (g : Grammar) (t : gset string) : Prop :=
  is_Some (rules g !! start_rule g) ∧
  ∀ r s, r ∈ all_rules g → s ∈ rhs r → s ∉ t → is_Some (rules g !! s).

(** ** What a derivation is *)

(** [derives g α u]: the symbols [α] rewrite into the words [u], each
    symbol standing for itself or being expanded by a rule object of the
    grammar. *)
Inductive derives (g : Grammar) : list Symbol → list Symbol → Prop :=
  | derives_nil : derives g [] []
  | derives_word x α u :
      derives g α u → derives g (x :: α) (x :: u)
  | derives_rule r α u v :
      r ∈ all_rules g →
      derives g (rhs r) u →
      derives g α v →
      derives g (lhs r :: α) (u ++ v).

(** The words of the sentence from position [s] up to position [i]. *)
Definition words_between (w : list Symbol) (s i : nat) : list Symbol :=
  take (i - s) (drop s w).

(** One step of a rightmost derivation: the last symbol of the form that
    is not a terminal has to be the left-hand side of the rule, and is
    replaced by its right-hand side. *)
Fixpoint rightmost_step (t : gset string) (r : Rule) (form : list Symbol)
    : option (list Symbol) :=
  match form with
  | [] => None
  | x :: form' =>
      if forallb (λ y, bool_decide (y ∈ t)) form' then
        if decide (x ∈ t) then None
        else if decide (x = lhs r) then Some (rhs r ++ form')
        else None
      else cons x <$> rightmost_step t r form'
  end.

(** A rightmost derivation: the rules are applied in order. *)
Fixpoint rightmost (t : gset string) (rs : list Rule) (form : list Symbol)
    : option (list Symbol) :=
  match rs with
  | [] => Some form
  | r :: rs' => rightmost_step t r form ≫= rightmost t rs'
  end.

(** How an item comes about: created with the dot at the start, moved
    over a terminal by a scan, or moved over the left-hand symbol of a
    finished item by a completion; the second argument is the words it
    covers. *)
Inductive built (g : Grammar) (t : gset string)
    : EarleyItem → list Symbol → Prop :=
  | built_start r s :
      r ∈ all_rules g → built g t (mkItem r s 0 []) []
  | built_scan item x u :
      built g t item u →
      rhs (rule item) !! dot item = Some x →
      x ∈ t →
      built g t
        (mkItem (rule item) (start item) (dot item + 1) (prev item))
        (u ++ [x])
  | built_complete old fin u v :
      built g t old u →
      built g t fin v →
      dot fin = length (rhs (rule fin)) →
      rhs (rule old) !! dot old = Some (lhs (rule fin)) →
      lhs (rule fin) ∉ t →
      built g t (advance old fin) (u ++ v).

(** The grammars the recognizer is complete for: the dict files each
    rule under its own left-hand symbol (as [Grammar.__init__] does), [rid]
    tells rule objects apart, no rule is empty, no rule rewrites a
    terminal, and the start symbol is not a terminal. *)
Record proper_grammar (g : Grammar) (t : gset string) : Prop := {
  proper_keys : ∀ s rs r, rules g !! s = Some rs → r ∈ rs → lhs r = s;
  proper_identity : ∀ r r',
    r ∈ all_rules g → r' ∈ all_rules g → rid r = rid r' → r = r';
  proper_nonempty : ∀ r, r ∈ all_rules g → rhs r ≠ [];
  proper_lhs : ∀ r, r ∈ all_rules g → lhs r ∉ t;
  proper_start : start_rule g ∉ t
}.

(** What having processed [item] of position [i] against the input word
    [word] leaves in the chart: the completions, predictions or scan it
    calls for are present. *)
Definition processed (g : Grammar) (t : gset string) (c : Chart) (i : nat)
    (word : option Symbol) (item : EarleyItem) : Prop :=
  ((next_symb item t).1 = Complete →
     ∀ old, old ∈ item_set_at c (start item) →
       (next_symb old t).2 = Some (lhs (rule item)) →
       contains (item_set_at c i) (advance old item) = true) ∧
  (∀ X rs r, next_symb item t = (NonTerminal, Some X) →
     rules g !! X = Some rs → r ∈ rs →
     contains (item_set_at c i) (mkItem r i 0 []) = true) ∧
  (∀ x, next_symb item t = (Terminal, Some x) → word = Some x →
     contains (item_set_at c (i + 1))
       (mkItem (rule item) (start item) (dot item + 1) (prev item)) = true).

(** The identities of the printed rules. *)
Definition printed_rule_ids (r : result (option (list Rule)))
    : result (option (list nat)) :=
  match r with
  | Ok o => Ok (option_map (map rid) o)
  | KeyError k => KeyError k
  | IndexError => IndexError
  | OutOfFuel => OutOfFuel
  end.

(** ** Two runs of the script *)

(** [Rule.__repr__], which [str] falls back to. *)
Definition Rule_repr (r : Rule) : string :=
  String.append (lhs r)
    (String.append " -> " (String.concat " " (rhs r))).

(** What line 186 writes: the lines of the printed rules, joined by
    newlines; [None] stands for "Incorrect sentence.". *)
Definition script_output (r : result (option (list Rule)))
    : result (option string) :=
  match r with
  | Ok o =>
      Ok (option_map
            (λ out, String.concat (String (Ascii.ascii_of_nat 10) EmptyString)
                      (Rule_repr <$> out)) o)
  | KeyError k => KeyError k
  | IndexError => IndexError
  | OutOfFuel => OutOfFuel
  end.

(** A second run of the script builds its rules anew: the same rules in
    the same order, as other objects.  [f] sends the identity of each
    object of the first run to the identity of its counterpart. *)
Definition relabel_rule (f : nat → nat) (r : Rule) : Rule :=
  mkRule (f (rid r)) (lhs r) (rhs r).

Fixpoint relabel_item (f : nat → nat) (item : EarleyItem) : EarleyItem :=
  match item with
  | mkItem r s d p => mkItem (relabel_rule f r) s d (relabel_item f <$> p)
  end.

Definition relabel_rules (f : nat → nat) (l : list Rule) : list Rule :=
  relabel_rule f <$> l.

Definition relabel_items (f : nat → nat) (s : ItemSet) : ItemSet :=
  relabel_item f <$> s.

Definition relabel_grammar (f : nat → nat) (g : Grammar) : Grammar :=
  mkGrammar (relabel_rules f <$> rules g) (start_rule g).

Definition relabel_chart (f : nat → nat) (c : Chart) : Chart :=
  relabel_items f <$> c.

Definition result_map {A B} (h : A → B) (r : result A) : result B :=
  match r with
  | Ok a => Ok (h a)
  | KeyError k => KeyError k
  | IndexError => IndexError
  | OutOfFuel => OutOfFuel
  end.

(** The items [predict] makes for the rules of a symbol stand together and
    in the order of the rules: for every position [i] and every symbol
    with rules [l], either position [i] holds no entry equal to an item
    ([r], [i], 0) with [r] in [l], or it holds the items of all of [l], one
    after the other in the order of [l]. *)
Definition predicted_in_order (g : Grammar) (c : Chart) : Prop :=
  ∀ i s l, rules g !! s = Some l →
    (∀ x r, x ∈ item_set_at c i → r ∈ l → item_key x ≠ (rid r, i, 0)) ∨
    (∃ l1 l2,
       item_set_at c i = l1 ++ ((λ r, mkItem r i 0 []) <$> l) ++ l2).

(** ** Concrete inputs *)

Section inputs.
Local Open Scope string_scope.

(** The grammar of the script (lines 139-150). *)
Definition script_rules : list Rule :=
  [ mkRule 0 "expr" ["expr"; "+"; "expr"];
    mkRule 1 "expr" ["expr"; "-"; "expr"];
    mkRule 2 "expr" ["expr"; "*"; "expr"];
    mkRule 3 "expr" ["expr"; "/"; "expr"];
    mkRule 4 "expr" ["("; "expr"; ")"];
    mkRule 5 "expr" ["term"];
    mkRule 6 "term" ["0"]; mkRule 7 "term" ["1"]; mkRule 8 "term" ["2"];
    mkRule 9 "term" ["3"]; mkRule 10 "term" ["4"]; mkRule 11 "term" ["5"];
    mkRule 12 "term" ["6"]; mkRule 13 "term" ["7"]; mkRule 14 "term" ["8"];
    mkRule 15 "term" ["9"] ].

Definition script_terminals : gset string :=
  list_to_set ["1"; "2"; "3"; "4"; "5"; "6"; "7"; "8"; "9"; "0";
               "+"; "-"; "*"; "/"; "("; ")"].

Definition script_grammar : Grammar :=
  mkGrammar (foldl add_rule ∅ script_rules) "expr".

(** What the script prints for "2+3*4", as rule objects. *)
Definition printed_2_plus_3_times_4 : list Rule :=
  [ mkRule 2 "expr" ["expr"; "*"; "expr"];
    mkRule 5 "expr" ["term"];
    mkRule 10 "term" ["4"];
    mkRule 0 "expr" ["expr"; "+"; "expr"];
    mkRule 5 "expr" ["term"];
    mkRule 9 "term" ["3"];
    mkRule 5 "expr" ["term"];
    mkRule 8 "term" ["2"] ].

(** A grammar whose only rule mentions a symbol [B] that has no rule and
    is not a terminal. *)
Definition dangling_rules : list Rule := [ mkRule 0 "S" ["a"; "B"] ].
Definition dangling_grammar : Grammar :=
  mkGrammar (foldl add_rule ∅ dangling_rules) "S".
Definition dangling_terminals : gset string := {["a"]}.

(** A left-recursive grammar with an empty rule: [S -> | S a]. *)
Definition nullable_rules : list Rule :=
  [ mkRule 0 "S" []; mkRule 1 "S" ["S"; "a"] ].
Definition nullable_grammar : Grammar :=
  mkGrammar (foldl add_rule ∅ nullable_rules) "S".
Definition nullable_terminals : gset string := {["a"]}.

Definition item_S_empty : EarleyItem := mkItem (mkRule 0 "S" []) 0 0 [].

(** A grammar with an empty rule behind a non-terminal: [S -> a A], [A -> ]. *)
Definition trailing_empty_rules : list Rule :=
  [ mkRule 0 "S" ["a"; "A"]; mkRule 1 "A" [] ].
Definition trailing_empty_grammar : Grammar :=
  mkGrammar (foldl add_rule ∅ trailing_empty_rules) "S".




(** Two rule objects that derive the same word, declared in either order. *)
Definition twin_first : list Rule :=
  [ mkRule 1 "E" ["d"]; mkRule 2 "E" ["d"] ].
Definition twin_second : list Rule :=
  [ mkRule 2 "E" ["d"]; mkRule 1 "E" ["d"] ].
Definition twin_grammar (rs : list Rule) : Grammar :=
  mkGrammar (foldl add_rule ∅ rs) "E".
Definition twin_terminals : gset string := {["d"]}.

End inputs.
(** ** Items, membership and [append] *)

Lemma item_eqb_key a b : item_eqb a b = true ↔ item_key a = item_key b.
Proof.
  unfold item_eqb, rule_eqb, item_key.
  rewrite !andb_true_iff, !bool_decide_eq_true. split.
  - intros [[-> ->] ->]. done.
  - intros [= -> -> ->]. done.
Qed.

Lemma contains_spec s val :
  contains s val = true ↔ ∃ el, el ∈ s ∧ item_key el = item_key val.
Proof.
  unfold contains. induction s as [|x s IH]; simpl.
  - split; [done|]. intros (el & Hel & _). by apply elem_of_nil in Hel.
  - rewrite orb_true_iff, IH, item_eqb_key. split.
    + intros [Hx | (el & Hel & Hk)].
      * exists x. split; [left | done].
      * exists el. split; [by right | done].
    + intros (el & Hel & Hk). apply elem_of_cons in Hel as [-> | Hel].
      * by left.
      * right. by exists el.
Qed.

Lemma contains_false s val :
  contains s val = false ↔ ∀ el, el ∈ s → item_key el ≠ item_key val.
Proof.
  rewrite <- not_true_iff_false, contains_spec. split.
  - intros Hn el Hel Hk. apply Hn. by exists el.
  - intros Hn (el & Hel & Hk). by apply (Hn el).
Qed.

Lemma contains_app s s' val :
  contains (s ++ s') val = contains s val || contains s' val.
Proof. unfold contains. apply existsb_app. Qed.

Lemma contains_prefix s s' val :
  s `prefix_of` s' → contains s val = true → contains s' val = true.
Proof.
  intros [k ->] H. rewrite contains_app, H. done.
Qed.

Lemma append_prefix s val : s `prefix_of` (append s val).1.
Proof.
  unfold append. simpl. destruct (contains s val); [done|].
  by apply prefix_app_r.
Qed.

Lemma append_contains s val : contains (append s val).1 val = true.
Proof.
  unfold append. simpl. destruct (contains s val) eqn:E; [done|].
  rewrite contains_app. apply orb_true_iff. right.
  apply contains_spec. exists val. split; [left | done].
Qed.

Lemma append_dup s val : contains s val = true → (append s val).1 = s.
Proof. intros H. unfold append. by rewrite H. Qed.

Lemma append_new s val :
  contains s val = false → (append s val).1 = s ++ [val].
Proof. intros H. unfold append. by rewrite H. Qed.

Lemma foldl_app_concat {A} (ls : list (list A)) (acc : list A) :
  foldl (λ a l, a ++ l) acc ls = acc ++ concat ls.
Proof.
  revert acc. induction ls as [|l ls IH]; intros acc; simpl.
  - by rewrite app_nil_r.
  - by rewrite IH, app_assoc.
Qed.

(** ** Mutating one position of the chart *)

Lemma length_append_at (c : Chart) loc val :
  length (append_at c loc val) = length c.
Proof. unfold append_at. apply length_insert. Qed.

Lemma item_set_at_ge (c : Chart) p : length c ≤ p → item_set_at c p = [].
Proof. intros H. unfold item_set_at. by rewrite lookup_ge_None_2. Qed.

Lemma item_set_at_elem (c : Chart) p item :
  item ∈ item_set_at c p → p < length c.
Proof.
  intros H. destruct (decide (p < length c)) as [|Hn]; [done|].
  rewrite item_set_at_ge in H by lia. by apply elem_of_nil in H.
Qed.

Lemma item_set_at_lookup (c : Chart) p s :
  c !! p = Some s → item_set_at c p = s.
Proof. intros H. unfold item_set_at. by rewrite H. Qed.

Lemma item_set_at_append_at_ne (c : Chart) loc val p :
  p ≠ loc → item_set_at (append_at c loc val) p = item_set_at c p.
Proof.
  intros H. unfold item_set_at at 1, append_at.
  by rewrite list_lookup_insert_ne.
Qed.

Lemma lookup_append_at_ne (c : Chart) loc val p :
  p ≠ loc → append_at c loc val !! p = c !! p.
Proof. intros H. unfold append_at. by rewrite list_lookup_insert_ne. Qed.

Lemma item_set_at_append_at_eq (c : Chart) loc val :
  loc < length c →
  item_set_at (append_at c loc val) loc = (append (item_set_at c loc) val).1.
Proof.
  intros H. unfold item_set_at at 1, append_at.
  by rewrite list_lookup_insert_eq.
Qed.

Lemma append_at_ge (c : Chart) loc val :
  length c ≤ loc → append_at c loc val = c.
Proof. intros H. unfold append_at. by apply list_insert_ge. Qed.

Lemma item_set_at_append_at_prefix (c : Chart) loc val p :
  item_set_at c p `prefix_of` item_set_at (append_at c loc val) p.
Proof.
  destruct (decide (p = loc)) as [->|Hne].
  - destruct (decide (loc < length c)).
    + rewrite item_set_at_append_at_eq by done. apply append_prefix.
    + by rewrite append_at_ge by lia.
  - by rewrite item_set_at_append_at_ne.
Qed.

#[local] Instance chart_le_preorder : PreOrder chart_le.
Proof.
  split.
  - intros c. split; [done|]. by intros p.
  - intros c1 c2 c3 [Hl1 Hp1] [Hl2 Hp2]. split; [congruence|].
    intros p. etrans; [apply Hp1 | apply Hp2].
Qed.

Lemma chart_le_append_at (c : Chart) loc val :
  chart_le c (append_at c loc val).
Proof.
  split; [by rewrite length_append_at|].
  intros p. apply item_set_at_append_at_prefix.
Qed.

Lemma chart_le_elem (c c' : Chart) p item :
  chart_le c c' → item ∈ item_set_at c p → item ∈ item_set_at c' p.
Proof.
  intros [_ Hp] H. destruct (Hp p) as [k ->]. apply elem_of_app. by left.
Qed.

Lemma chart_le_length_at (c c' : Chart) p :
  chart_le c c' → length (item_set_at c p) ≤ length (item_set_at c' p).
Proof. intros [_ Hp]. by apply prefix_length. Qed.

Lemma chart_le_extend_at (c : Chart) loc vals :
  chart_le c (extend_at c loc vals).
Proof.
  unfold extend_at. revert c. induction vals as [|v vals IH]; intros c; simpl.
  - done.
  - etrans; [apply chart_le_append_at | apply IH].
Qed.

(** ** [next_symb] *)

Lemma next_symb_Some item (t : gset string) s :
  (next_symb item t).2 = Some s →
  dot item < length (rhs (rule item)) ∧ rhs (rule item) !! dot item = Some s.
Proof.
  unfold next_symb. case_decide as Hd; [|done].
  destruct (rhs (rule item) !! dot item) as [x|] eqn:E; simpl; [|done].
  intros [= ->]. done.
Qed.

Lemma next_symb_NonTerminal item (t : gset string) symb :
  next_symb item t = (NonTerminal, symb) →
  ∃ s, symb = Some s ∧ rhs (rule item) !! dot item = Some s ∧ s ∉ t.
Proof.
  unfold next_symb. case_decide as Hd; [|done].
  destruct (rhs (rule item) !! dot item) as [x|] eqn:E; [|done].
  case_decide; intros ?; simplify_eq. by exists x.
Qed.

(** ** The key universe and the size of item sets *)

Lemma elem_of_all_rules (g : Grammar) s rs r :
  rules g !! s = Some rs → r ∈ rs → r ∈ all_rules g.
Proof.
  intros Hs Hr. unfold all_rules. apply list_elem_of_join.
  exists rs. split; [done|].
  apply list_elem_of_fmap. exists (s, rs). split; [done|].
  by apply elem_of_map_to_list.
Qed.

Lemma elem_of_key_universe (g : Grammar) n r s d :
  r ∈ all_rules g → s ≤ n → d ≤ length (rhs r) →
  (rid r, s, d) ∈ key_universe g n.
Proof.
  intros Hr Hs Hd. unfold key_universe.
  apply list_elem_of_bind. exists r. split; [|done].
  apply list_elem_of_bind. exists s. split; [|apply elem_of_seq; lia].
  apply list_elem_of_bind. exists d. split; [|apply elem_of_seq; lia].
  by apply list_elem_of_singleton.
Qed.

Lemma size_list_to_set_le (l : list (nat * nat * nat)) :
  size (list_to_set l : gset (nat * nat * nat)) ≤ length l.
Proof.
  induction l as [|x l IH].
  - rewrite list_to_set_nil, size_empty. done.
  - rewrite list_to_set_cons, size_union_alt, size_singleton. simpl.
    assert (size (list_to_set l ∖ {[x]} : gset (nat * nat * nat)) ≤
            size (list_to_set l : gset (nat * nat * nat))) as H.
    { apply subseteq_size. set_solver. }
    lia.
Qed.

Lemma elem_of_keyset s k :
  k ∈ keyset s ↔ ∃ el, el ∈ s ∧ item_key el = k.
Proof.
  unfold keyset. rewrite elem_of_list_to_set, list_elem_of_fmap.
  naive_solver.
Qed.

Lemma keyset_contains s val :
  contains s val = true ↔ item_key val ∈ keyset s.
Proof. by rewrite contains_spec, elem_of_keyset. Qed.

Lemma keyset_snoc s val :
  keyset (s ++ [val]) = keyset s ∪ {[item_key val]}.
Proof. unfold keyset. rewrite fmap_app. simpl. by rewrite list_to_set_snoc_L. Qed.

Lemma append_size n0 s val :
  length s ≤ n0 + size (keyset s) →
  length (append s val).1 ≤ n0 + size (keyset (append s val).1).
Proof.
  intros H. unfold append. simpl.
  destruct (contains s val) eqn:E; [done|].
  apply not_true_iff_false in E. rewrite keyset_contains in E.
  rewrite keyset_snoc, length_app, size_union, size_singleton.
  - simpl. lia.
  - apply elem_of_disjoint. intros k Hk Hv.
    apply elem_of_singleton in Hv. by subst k.
Qed.

Lemma initial_chart_tail rs (w : list Symbol) i item :
  item ∈ item_set_at (initial_chart rs w) (S i) → False.
Proof.
  unfold item_set_at, initial_chart. simpl.
  destruct (replicate (length w) [] !! i) as [s|] eqn:E; simpl.
  - apply lookup_replicate in E as [-> _]. by intros ?%elem_of_nil.
  - by intros ?%elem_of_nil.
Qed.

(** ** The invariant of the chart *)

Section engine.
Context (g : Grammar) (t : gset string) (w : list Symbol).

Lemma chart_step_le c c' : chart_step g t w c c' → chart_le c c'.
Proof. intros (loc & val & _ & ->). apply chart_le_append_at. Qed.

Lemma rtc_chart_le c c' : rtc (chart_step g t w) c c' → chart_le c c'.
Proof.
  induction 1 as [|c1 c2 c3 H _ IH]; [done|].
  etrans; [by apply chart_step_le | done].
Qed.

Lemma insertion_mono c c' loc val :
  chart_le c c' → insertion g t w c loc val → insertion g t w c' loc val.
Proof.
  intros Hle Hins. destruct Hins.
  - eapply ins_predict; eauto using chart_le_elem.
  - eapply ins_scan; eauto using chart_le_elem.
  - eapply ins_complete; eauto using chart_le_elem.
Qed.

Lemma insertion_ok c loc val :
  chart_inv g w c → insertion g t w c loc val →
  item_ok g loc val ∧ loc < length c.
Proof.
  intros Hinv Hins. destruct Hins as
    [i item symb rs r Hit Hn Hrs Hr Hi
    |i item word Hit Hw Hn
    |i item old Hit Hn Hold Hm].
  - split; [|by eapply item_set_at_elem].
    repeat split; simpl; [lia..|]. by eapply elem_of_all_rules.
  - apply lookup_lt_Some in Hw.
    split; [|rewrite (inv_length _ _ _ Hinv); lia].
    destruct (inv_items _ _ _ Hinv _ _ Hit) as (Hs & Hd & Hr).
    assert ((next_symb item t).2 = Some word) as Hsym by by rewrite Hn.
    apply next_symb_Some in Hsym as [Hlt _].
    repeat split; simpl; [lia..|done].
  - split; [|by eapply item_set_at_elem].
    destruct (inv_items _ _ _ Hinv _ _ Hit) as (Hs & _ & _).
    destruct (inv_items _ _ _ Hinv _ _ Hold) as (Hs' & _ & Hr').
    apply next_symb_Some in Hm as [Hlt _].
    repeat split; simpl; [lia..|done].
Qed.

Lemma chart_inv_append_at c loc val :
  chart_inv g w c → item_ok g loc val → chart_inv g w (append_at c loc val).
Proof.
  intros [Hlen Hitems Hsize] Hok.
  destruct (decide (loc < length c)) as [Hloc|Hloc];
    [|rewrite append_at_ge by lia; by split].
  split.
  - by rewrite length_append_at.
  - intros i item. destruct (decide (i = loc)) as [->|Hne].
    + rewrite item_set_at_append_at_eq by done. unfold append. simpl.
      destruct (contains _ _); [apply Hitems|].
      intros [H|H]%elem_of_app; [by apply Hitems|].
      apply list_elem_of_singleton in H. by subst item.
    + rewrite item_set_at_append_at_ne by done. apply Hitems.
  - intros i. destruct (decide (i = loc)) as [->|Hne].
    + rewrite item_set_at_append_at_eq by done. by apply append_size.
    + rewrite item_set_at_append_at_ne by done. apply Hsize.
Qed.

Lemma chart_inv_step c c' :
  chart_inv g w c → chart_step g t w c c' → chart_inv g w c'.
Proof.
  intros Hinv (loc & val & Hins & ->).
  apply chart_inv_append_at; [done|].
  by apply (insertion_ok c).
Qed.

Lemma chart_inv_rtc c c' :
  chart_inv g w c → rtc (chart_step g t w) c c' → chart_inv g w c'.
Proof. intros Hinv H. induction H; eauto using chart_inv_step. Qed.

Lemma keyset_universe c i :
  chart_inv g w c →
  keyset (item_set_at c i) ⊆ list_to_set (key_universe g (length w)).
Proof.
  intros Hinv k (el & Hel & <-)%elem_of_keyset.
  apply elem_of_list_to_set.
  destruct (inv_items _ _ _ Hinv _ _ Hel) as (Hs & Hd & Hr).
  apply item_set_at_elem in Hel. rewrite (inv_length _ _ _ Hinv) in Hel.
  apply elem_of_key_universe; [done|lia|done].
Qed.

Lemma chart_inv_bound c i :
  chart_inv g w c → length (item_set_at c i) ≤ enough_fuel g w.
Proof.
  intros Hinv. unfold enough_fuel.
  pose proof (inv_size _ _ _ Hinv i) as H1.
  pose proof (subseteq_size _ _ (keyset_universe c i Hinv)) as H2.
  pose proof (size_list_to_set_le (key_universe g (length w))) as H3.
  lia.
Qed.

Lemma chart_inv_initial rs :
  rules g !! start_rule g = Some rs → chart_inv g w (initial_chart rs w).
Proof.
  intros Hrs. unfold initial_chart. split.
  - simpl. rewrite length_replicate. lia.
  - intros [|i] item; unfold item_set_at; simpl.
    + intros (r & -> & Hr)%list_elem_of_fmap.
      repeat split; simpl; [lia..|]. by eapply elem_of_all_rules.
    + destruct (replicate (length w) [] !! i) as [s|] eqn:E; simpl.
      * apply lookup_replicate in E as [-> _]. by intros ?%elem_of_nil.
      * by intros ?%elem_of_nil.
  - intros [|i]; unfold item_set_at; simpl.
    + rewrite Hrs. simpl. rewrite length_fmap. lia.
    + destruct (replicate (length w) [] !! i) as [s|] eqn:E; simpl; [|lia].
      apply lookup_replicate in E as [-> _]. simpl. lia.
Qed.

(** *** What each operation of the engine may end in *)

Lemma result_bind_unfold {A B} (f : A → result B) (m : result A) :
  m ≫= f = result_bind f m.
Proof. done. Qed.

Lemma outcome_weaken (P Q : Prop) c r :
  (P → Q) → outcome g t w P c r → outcome g t w Q c r.
Proof. intros HPQ. destruct r; simpl; auto. Qed.

Lemma outcome_rtc oof c c' r :
  rtc (chart_step g t w) c c' →
  outcome g t w oof c' r → outcome g t w oof c r.
Proof. intros Hc. destruct r; simpl; auto. intros H. by etrans. Qed.

Lemma outcome_bind oof c m f :
  outcome g t w oof c m →
  (∀ c', m = Ok c' → rtc (chart_step g t w) c c' →
         outcome g t w oof c' (f c')) →
  outcome g t w oof c (m ≫= f).
Proof.
  intros Hm Hf. rewrite result_bind_unfold.
  destruct m as [c'| | |]; simpl in *; auto.
  eapply outcome_rtc; [done|]. by apply Hf.
Qed.

Lemma extend_at_rtc c loc vals :
  (∀ v, v ∈ vals → insertion g t w c loc v) →
  rtc (chart_step g t w) c (extend_at c loc vals).
Proof.
  unfold extend_at. revert c.
  induction vals as [|v vals IH]; intros c Hins; simpl; [done|].
  eapply rtc_l.
  - exists loc, v. split; [|done]. apply Hins. by left.
  - apply IH. intros v' Hv'.
    eapply insertion_mono; [apply chart_le_append_at|].
    apply Hins. by right.
Qed.

Lemma predict_outcome oof c i item symb :
  chart_inv g w c →
  item ∈ item_set_at c i →
  next_symb item t = (NonTerminal, symb) →
  i < length w →
  outcome g t w oof c (predict g c i symb i).
Proof.
  intros Hinv Hit Hn Hi.
  destruct (next_symb_NonTerminal _ _ _ Hn) as (s & -> & Hs & Hnt).
  unfold predict. simpl.
  destruct (rules g !! s) as [rs|] eqn:Hrs; simpl.
  - apply extend_at_rtc.
    intros v (r & -> & Hr)%list_elem_of_fmap.
    by eapply ins_predict.
  - exists s, (rule item). repeat split; [done..| |].
    + by destruct (inv_items _ _ _ Hinv _ _ Hit) as (_ & _ & ?).
    + by eapply list_elem_of_lookup_2.
Qed.

Lemma scan_outcome oof c i item symb word :
  chart_inv g w c →
  item ∈ item_set_at c i →
  next_symb item t = (Terminal, symb) →
  w !! i = Some word →
  outcome g t w oof c (scan c item symb word i).
Proof.
  intros Hinv Hit Hn Hw. unfold scan.
  case_decide as Heq; simpl; [|done]. subst symb.
  destruct (c !! (i + 1)) as [s|] eqn:E; simpl.
  - apply rtc_once. eexists _, _. split; [|done]. by eapply ins_scan.
  - apply lookup_ge_None in E. apply lookup_lt_Some in Hw.
    rewrite (inv_length _ _ _ Hinv) in E. lia.
Qed.

Lemma complete_loop_outcome fuel c loc item j :
  chart_inv g w c →
  item ∈ item_set_at c loc →
  (next_symb item t).1 = Complete →
  j ≤ length (item_set_at c (start item)) →
  outcome g t w (fuel + j ≤ enough_fuel g w) c
    (complete_loop fuel c loc item t j).
Proof.
  revert c j. induction fuel as [|fuel IH]; intros c j Hinv Hit Hn Hj; simpl.
  - pose proof (chart_inv_bound c (start item) Hinv). lia.
  - destruct (item_set_at c (start item) !! j) as [old|] eqn:E; simpl; [|done].
    assert (old ∈ item_set_at c (start item)) as Hold
      by by eapply list_elem_of_lookup_2.
    apply lookup_lt_Some in E.
    case_decide as Hm.
    + assert (chart_step g t w c (append_at c loc (advance old item))) as Hst.
      { eexists _, _. split; [|done]. by apply ins_complete. }
      eapply outcome_rtc; [by apply rtc_once|].
      eapply outcome_weaken; [|apply IH].
      * lia.
      * by eapply chart_inv_step.
      * eapply chart_le_elem; [apply chart_le_append_at | done].
      * done.
      * pose proof (chart_le_length_at c _ (start item)
          (chart_le_append_at c loc (advance old item))). lia.
    + eapply outcome_weaken; [|apply IH]; [lia|done..|lia].
Qed.

Lemma complete_outcome fuel c loc item :
  chart_inv g w c →
  item ∈ item_set_at c loc →
  (next_symb item t).1 = Complete →
  outcome g t w (fuel ≤ enough_fuel g w) c (complete fuel c loc item t).
Proof.
  intros Hinv Hit Hn. unfold complete.
  destruct (c !! start item) as [s|] eqn:E.
  - eapply outcome_weaken; [|apply complete_loop_outcome]; [lia|done..|lia].
  - simpl. apply lookup_ge_None in E.
    destruct (inv_items _ _ _ Hinv _ _ Hit) as (Hs & _ & _).
    apply item_set_at_elem in Hit. lia.
Qed.

Lemma process_item_outcome fuel c i item word :
  chart_inv g w c →
  item ∈ item_set_at c i →
  w !! i = Some word →
  outcome g t w (fuel ≤ enough_fuel g w) c
    (process_item fuel g t word i c item).
Proof.
  intros Hinv Hit Hw. unfold process_item.
  destruct (next_symb item t) as [state symb] eqn:Hn.
  destruct state.
  - apply complete_outcome; [done..|]. by rewrite Hn.
  - by eapply scan_outcome.
  - eapply predict_outcome; [done..|]. by eapply lookup_lt_Some.
Qed.

Lemma process_loop_outcome n fuel c i word k :
  chart_inv g w c →
  w !! i = Some word →
  k ≤ length (item_set_at c i) →
  outcome g t w (n + k ≤ enough_fuel g w ∨ fuel ≤ enough_fuel g w) c
    (process_loop n fuel g t word i c k).
Proof.
  revert c k. induction n as [|n IH]; intros c k Hinv Hw Hk; simpl.
  - left. pose proof (chart_inv_bound c i Hinv). lia.
  - destruct (item_set_at c i !! k) as [item|] eqn:E; simpl; [|done].
    assert (item ∈ item_set_at c i) as Hit by by eapply list_elem_of_lookup_2.
    apply lookup_lt_Some in E.
    apply outcome_bind.
    + eapply outcome_weaken; [|by apply process_item_outcome]. auto.
    + intros c' _ Hc'.
      eapply outcome_weaken; [|apply IH]; [|by eapply chart_inv_rtc|done|].
      * intros [?|?]; [left; lia | by right].
      * pose proof (chart_le_length_at c c' i (rtc_chart_le _ _ Hc')). lia.
Qed.

Lemma main_loop_outcome fuel words i c :
  chart_inv g w c →
  (∀ j word, words !! j = Some word → w !! (i + j) = Some word) →
  outcome g t w (fuel ≤ enough_fuel g w) c
    (main_loop fuel g t words i c).
Proof.
  revert i c. induction words as [|word words IH]; intros i c Hinv Hw; simpl.
  - done.
  - destruct (c !! i) as [s|] eqn:E; simpl; [|done].
    apply outcome_bind.
    + eapply outcome_weaken; [|apply process_loop_outcome]; [|done| |lia].
      * intros [?|?]; lia.
      * specialize (Hw 0 word). rewrite Nat.add_0_r in Hw. by apply Hw.
    + intros c' _ Hc'. apply IH; [by eapply chart_inv_rtc|].
      intros j word' Hj. specialize (Hw (S j) word' Hj).
      by replace (S i + j) with (i + S j) by lia.
Qed.

Lemma sweep_loop_outcome n fuel c loc k :
  chart_inv g w c →
  k ≤ length (item_set_at c loc) →
  outcome g t w (n + k ≤ enough_fuel g w ∨ fuel ≤ enough_fuel g w) c
    (sweep_loop n fuel t loc c k).
Proof.
  revert c k. induction n as [|n IH]; intros c k Hinv Hk; simpl.
  - left. pose proof (chart_inv_bound c loc Hinv). lia.
  - destruct (item_set_at c loc !! k) as [item|] eqn:E; simpl; [|done].
    assert (item ∈ item_set_at c loc) as Hit
      by by eapply list_elem_of_lookup_2.
    apply lookup_lt_Some in E.
    destruct (next_symb item t).1 eqn:Hn.
    + apply outcome_bind.
      * eapply outcome_weaken; [|by apply complete_outcome]. auto.
      * intros c' _ Hc'.
        eapply outcome_weaken; [|apply IH]; [|by eapply chart_inv_rtc|].
        -- intros [?|?]; [left; lia | by right].
        -- pose proof (chart_le_length_at c c' loc (rtc_chart_le _ _ Hc')).
           lia.
    + eapply outcome_weaken; [|apply IH]; [|done|lia].
      intros [?|?]; [left; lia | by right].
    + eapply outcome_weaken; [|apply IH]; [|done|lia].
      intros [?|?]; [left; lia | by right].
Qed.

Lemma final_sweep_outcome fuel c :
  chart_inv g w c →
  outcome g t w (fuel ≤ enough_fuel g w) c (final_sweep fuel t c).
Proof.
  intros Hinv. unfold final_sweep.
  destruct c as [|s c'].
  - pose proof (inv_length _ _ _ Hinv) as H. simpl in H. lia.
  - eapply outcome_weaken; [|apply sweep_loop_outcome]; [|done|lia].
    intros [?|?]; lia.
Qed.
End engine.

(** ** The whole run *)

Lemma earley_outcome fuel g t w :
  earley_spec g t w fuel (earley_fuel fuel g t w).
Proof.
  unfold earley_fuel.
  destruct (rules g !! start_rule g) as [rs|] eqn:Hrs; [|by left].
  pose proof (chart_inv_initial g w rs Hrs) as Hinv.
  pose proof (main_loop_outcome g t w fuel w 0 _ Hinv (λ j word H, H)) as Hm.
  rewrite result_bind_unfold.
  destruct (main_loop fuel g t w 0 (initial_chart rs w)) as [c| | |];
    simpl in *; [|by right|done..].
  pose proof (final_sweep_outcome g t w fuel c
                (chart_inv_rtc g t w _ _ Hinv Hm)) as Hs.
  destruct (final_sweep fuel t c) as [c'| | |]; simpl in *;
    [|by right|done..].
  exists rs. split; [done|]. by etrans.
Qed.

Lemma earley_reachable_inv g t w rs c :
  rules g !! start_rule g = Some rs →
  rtc (chart_step g t w) (initial_chart rs w) c →
  chart_inv g w c.
Proof.
  intros Hrs. apply chart_inv_rtc. by apply chart_inv_initial.
Qed.

(** The budget [enough_fuel] is never exhausted: [earley] always ends in a
    chart or in a [KeyError]. *)
Lemma earley_terminates g t w :
  (∃ chart, earley g t w = Ok chart) ∨ (∃ k, earley g t w = KeyError k).
Proof.
  unfold earley.
  pose proof (earley_outcome (S (enough_fuel g w)) g t w) as H.
  destruct (earley_fuel _ g t w) as [c|k| |]; simpl in H;
    [by left; eexists | by right; eexists | done | lia].
Qed.

(** *** Monotone growth of the primitive operations *)

Lemma predict_le g c loc symb i c' :
  predict g c loc symb i = Ok c' → chart_le c c'.
Proof.
  unfold predict. destruct (symb ≫= _); [|done].
  intros [= <-]. apply chart_le_extend_at.
Qed.

Lemma scan_le c item symb word i c' :
  scan c item symb word i = Ok c' → chart_le c c'.
Proof.
  unfold scan. case_decide; [|by intros [= <-]].
  destruct (c !! (i + 1)); [|done].
  intros [= <-]. apply chart_le_append_at.
Qed.

Lemma complete_loop_le fuel c loc item t j c' :
  complete_loop fuel c loc item t j = Ok c' → chart_le c c'.
Proof.
  revert c j. induction fuel as [|fuel IH]; intros c j; simpl; [done|].
  destruct (item_set_at c (start item) !! j); [|by intros [= <-]].
  intros H%IH. case_decide; [|done].
  etrans; [apply chart_le_append_at | done].
Qed.

Lemma complete_le fuel c loc item t c' :
  complete fuel c loc item t = Ok c' → chart_le c c'.
Proof.
  unfold complete. destruct (c !! start item); [|done].
  apply complete_loop_le.
Qed.

Lemma earley_length fuel g t w chart :
  earley_fuel fuel g t w = Ok chart → length chart = length w + 1.
Proof.
  intros Hrun. pose proof (earley_outcome fuel g t w) as H.
  rewrite Hrun in H. destruct H as (rs & Hrs & Hc).
  by apply (inv_length g w), (earley_reachable_inv g t w rs).
Qed.

Lemma append_elem s val x :
  x ∈ (append s val).1 → x ∈ s ∨ x = val.
Proof.
  unfold append. simpl. destruct (contains s val); [by left|].
  intros [H|H]%elem_of_app; [by left|].
  right. by apply list_elem_of_singleton in H.
Qed.

Lemma append_NoDup s val :
  NoDup (item_key <$> s) → NoDup (item_key <$> (append s val).1).
Proof.
  intros Hs. unfold append. simpl.
  destruct (contains s val) eqn:E; [done|].
  rewrite fmap_app. simpl. apply NoDup_app. split; [done|].
  split; [|apply NoDup_singleton].
  intros k Hk ->%list_elem_of_singleton.
  apply not_true_iff_false in E. apply E, keyset_contains.
  unfold keyset. by apply elem_of_list_to_set.
Qed.

Lemma extend_prefix s values : s `prefix_of` extend s values.
Proof.
  unfold extend. revert s.
  induction values as [|v values IH]; intros s; simpl; [done|].
  etrans; [apply append_prefix | apply IH].
Qed.

Lemma process_item_le fuel g t word i (c : Chart) item c' :
  process_item fuel g t word i c item = Ok c' → chart_le c c'.
Proof.
  unfold process_item. destruct (next_symb item t) as [[] symb].
  - apply complete_le.
  - apply scan_le.
  - apply predict_le.
Qed.

Lemma process_loop_le n fuel g t word i (c : Chart) k c' :
  process_loop n fuel g t word i c k = Ok c' → chart_le c c'.
Proof.
  revert c k. induction n as [|n IH]; intros c k; simpl; [done|].
  destruct (item_set_at c i !! k) as [item|]; [|by intros [= <-]].
  rewrite result_bind_unfold.
  destruct (process_item fuel g t word i c item) as [c1| | |] eqn:E;
    simpl; [|done..].
  intros H. etrans; [by eapply process_item_le | by eapply IH].
Qed.

Lemma main_loop_le fuel g t words i (c : Chart) c' :
  main_loop fuel g t words i c = Ok c' → chart_le c c'.
Proof.
  revert i c. induction words as [|word words IH]; intros i c; simpl;
    [by intros [= <-]|].
  destruct (c !! i); [|by intros [= <-]].
  rewrite result_bind_unfold.
  destruct (process_loop fuel fuel g t word i c 0) as [c1| | |] eqn:E;
    simpl; [|done..].
  intros H. etrans; [by eapply process_loop_le | by eapply IH].
Qed.

Lemma sweep_loop_le n fuel t loc (c : Chart) k c' :
  sweep_loop n fuel t loc c k = Ok c' → chart_le c c'.
Proof.
  revert c k. induction n as [|n IH]; intros c k; simpl; [done|].
  destruct (item_set_at c loc !! k) as [item|]; [|by intros [= <-]].
  destruct (next_symb item t).1; [|apply IH..].
  rewrite result_bind_unfold.
  destruct (complete fuel c loc item t) as [c1| | |] eqn:E; simpl; [|done..].
  intros H. etrans; [by eapply complete_le | by eapply IH].
Qed.

Lemma final_sweep_le fuel t (c : Chart) c' :
  final_sweep fuel t c = Ok c' → chart_le c c'.
Proof. unfold final_sweep. destruct c; [done|]. apply sweep_loop_le. Qed.

Lemma chart_step_NoDup g t w (c c' : Chart) i :
  chart_step g t w c c' →
  NoDup (item_key <$> item_set_at c i) →
  NoDup (item_key <$> item_set_at c' i).
Proof.
  intros (loc & val & _ & ->) H.
  destruct (decide (loc < length c)) as [Hloc|Hloc];
    [|by rewrite append_at_ge by lia].
  destruct (decide (i = loc)) as [->|Hne].
  - rewrite item_set_at_append_at_eq by done. by apply append_NoDup.
  - by rewrite item_set_at_append_at_ne.
Qed.

Lemma initial_chart_length rs (w : list Symbol) :
  length (initial_chart rs w) = length w + 1.
Proof. unfold initial_chart. simpl. rewrite length_replicate. lia. Qed.

(** ** C7: shape of the chart and monotone growth *)

(** C7.  The chart [earley] starts from has [len(sentence) + 1] positions,
    and so has every chart the engine goes through, each of which extends
    the initial chart position by position.  A run of [earley] ends in a
    chart or in a [KeyError], never in an [IndexError], and a sufficient
    budget is never exhausted; when it returns, the chart after the main
    loop and the returned chart have [len(sentence) + 1] positions, the
    first extends the initial chart and the second extends the first.
    During filling, each [ItemSet.append] and [ItemSet.extend], each of
    [predict], [scan] and [complete], and each loop of the engine, started
    on any chart, keeps the number of positions and leaves every
    collection a prefix of what it becomes: items are added at the end,
    never removed or changed. *)
Theorem chart_shape_monotone fuel g t w :
  (∀ rs, length (initial_chart rs w) = length w + 1) ∧
  (∀ rs c, rules g !! start_rule g = Some rs →
     rtc (chart_step g t w) (initial_chart rs w) c →
     length c = length w + 1 ∧ chart_le (initial_chart rs w) c) ∧
  match earley_fuel fuel g t w with
  | Ok chart =>
      length chart = length w + 1 ∧
      ∃ rs mid, rules g !! start_rule g = Some rs ∧
        main_loop fuel g t w 0 (initial_chart rs w) = Ok mid ∧
        final_sweep fuel t mid = Ok chart ∧
        length mid = length w + 1 ∧
        chart_le (initial_chart rs w) mid ∧
        chart_le mid chart ∧
        chart_le (initial_chart rs w) chart
  | KeyError k =>
      (k = Some (start_rule g) ∧ rules g !! start_rule g = None) ∨
      undefined_ref g t k
  | IndexError => False
  | OutOfFuel => fuel ≤ enough_fuel g w
  end ∧
  (∀ s val, s `prefix_of` (append s val).1) ∧
  (∀ s values, s `prefix_of` extend s values) ∧
  (∀ c loc val, chart_le c (append_at c loc val)) ∧
  (∀ c loc symb i c', predict g c loc symb i = Ok c' → chart_le c c') ∧
  (∀ c item symb word i c', scan c item symb word i = Ok c' → chart_le c c') ∧
  (∀ c loc item c', complete fuel c loc item t = Ok c' → chart_le c c') ∧
  (∀ c word i k c',
     process_loop fuel fuel g t word i c k = Ok c' → chart_le c c') ∧
  (∀ c words i c', main_loop fuel g t words i c = Ok c' → chart_le c c') ∧
  (∀ c c', final_sweep fuel t c = Ok c' → chart_le c c').
Proof.
  split; [intros rs; apply initial_chart_length|].
  split.
  { intros rs c Hrs Hreach. split.
    - by apply (inv_length g w), (earley_reachable_inv g t w rs).
    - by eapply rtc_chart_le. }
  split; [|split; [|split; [|split; [|split; [|split; [|split;
    [|split; [|split]]]]]]]];
    [|exact append_prefix|exact extend_prefix|exact chart_le_append_at
     |exact (predict_le g)|exact scan_le
     |intros c loc item c'; apply complete_le
     |intros c word i k c'; apply process_loop_le
     |intros c words i c'; apply main_loop_le
     |intros c c'; apply final_sweep_le].
  pose proof (earley_outcome fuel g t w) as H.
  destruct (earley_fuel fuel g t w) as [chart|k| |] eqn:Hrun; simpl in H;
    [|done..].
  split; [by eapply earley_length|].
  destruct H as (rs & Hrs & Hc). exists rs.
  unfold earley_fuel in Hrun. rewrite Hrs, result_bind_unfold in Hrun.
  destruct (main_loop fuel g t w 0 (initial_chart rs w)) as [mid| | |]
    eqn:Hmain; simpl in Hrun; [|done..].
  exists mid. split; [done|]. split; [done|]. split; [done|].
  pose proof (main_loop_le _ _ _ _ _ _ _ Hmain) as Hle1.
  pose proof (final_sweep_le _ _ _ _ Hrun) as Hle2.
  split; [|split; [done|split; [done|by etrans]]].
  destruct Hle1 as [<- _]. apply initial_chart_length.
Qed.

(** ** C9: range of [start] and [dot] *)

Lemma insertion_shape g t w c loc val :
  insertion g t w c loc val →
  (dot val = 0 ∧ start val = loc) ∨
  (∃ p it, it ∈ item_set_at c p ∧
           dot it < length (rhs (rule it)) ∧
           rule val = rule it ∧ start val = start it ∧
           dot val = dot it + 1).
Proof.
  intros [i item symb rs r Hit Hn Hrs Hr Hi
         |i item word Hit Hw Hn
         |i item old Hit Hn Hold Hm].
  - by left.
  - right. exists i, item. split; [done|]. split; [|done].
    apply (next_symb_Some item t word). by rewrite Hn.
  - right. exists (start item), old. split; [done|]. split; [|done].
    by apply (next_symb_Some old t (lhs (rule item))).
Qed.

(** C9.  In the chart [earley] returns, every item of position [i] has
    [0 <= start <= i] and [0 <= dot <= len(rule.rhs)] (both are naturals);
    a sufficient budget is never exhausted.  The same bounds hold of every
    item the engine inserts along the way, at the position it is inserted
    into: the items of the initial chart sit at position 0 with origin 0
    and dot 0, a predicted item has dot 0 and the position as its origin,
    and a scanned or completed item repeats the rule and origin of an item
    already in the chart whose dot was strictly below the length of its
    right-hand side, with that dot plus one. *)
Theorem items_in_range fuel g t w :
  match earley_fuel fuel g t w with
  | Ok chart =>
      ∀ i s item, chart !! i = Some s → item ∈ s →
        start item ≤ i ∧ dot item ≤ length (rhs (rule item))
  | OutOfFuel => fuel ≤ enough_fuel g w
  | _ => True
  end ∧
  (∀ rs i item, item ∈ item_set_at (initial_chart rs w) i →
     i = 0 ∧ start item = 0 ∧ dot item = 0) ∧
  (∀ rs c loc val,
     rules g !! start_rule g = Some rs →
     rtc (chart_step g t w) (initial_chart rs w) c →
     insertion g t w c loc val →
     start val ≤ loc ∧ dot val ≤ length (rhs (rule val)) ∧
     ((dot val = 0 ∧ start val = loc) ∨
      (∃ p it, it ∈ item_set_at c p ∧
               dot it < length (rhs (rule it)) ∧
               rule val = rule it ∧ start val = start it ∧
               dot val = dot it + 1))).
Proof.
  split; [|split].
  - pose proof (earley_outcome fuel g t w) as H.
    destruct (earley_fuel fuel g t w) as [c|k| |]; simpl in H; [|done..].
    destruct H as (rs & Hrs & Hc).
    pose proof (earley_reachable_inv g t w rs c Hrs Hc) as Hinv.
    intros i s item Hs Hit.
    rewrite <- (item_set_at_lookup _ _ _ Hs) in Hit.
    destruct (inv_items _ _ _ Hinv _ _ Hit) as (? & ? & _). done.
  - intros rs [|i] item.
    + unfold item_set_at, initial_chart. simpl.
      by intros (r & -> & _)%list_elem_of_fmap.
    + by intros ?%initial_chart_tail.
  - intros rs c loc val Hrs Hreach Hins.
    pose proof (earley_reachable_inv g t w rs c Hrs Hreach) as Hinv.
    destruct (insertion_ok g t w c loc val Hinv Hins) as [(? & ? & _) _].
    split; [done|]. split; [done|]. by eapply insertion_shape.
Qed.

(** ** C10: chart indexing stays in bounds *)

Lemma complete_loop_no_IndexError fuel c loc item t j :
  complete_loop fuel c loc item t j ≠ IndexError.
Proof.
  revert c j. induction fuel as [|fuel IH]; intros c j; simpl; [done|].
  destruct (item_set_at c (start item) !! j); [apply IH | done].
Qed.

(** The model does raise when an index is out of range. *)
Example scan_past_the_end :
  scan [[item_S_empty]] item_S_empty (Some "a"%string) "a"%string 0
  = IndexError.
Proof. reflexivity. Qed.

Example complete_past_the_end :
  complete 5 [[]] 0 (mkItem (mkRule 0 "S"%string []) 3 0 []) ∅ = IndexError.
Proof. reflexivity. Qed.

(** C10.  No run of [earley], and so no run of the script, raises
    [IndexError], whatever the grammar, the terminals and the sentence.
    On every chart the engine goes through: [scan] at a position [i] that
    has an input word finds position [i + 1]; an item of position [loc]
    has [start <= loc], so [complete] finds position [item.start]; and the
    final sweep, which never scans, finds [earley_item_set[-1]] and stays
    in bounds. *)
Theorem earley_in_bounds fuel g t w :
  earley_fuel fuel g t w ≠ IndexError ∧
  parse fuel g t w ≠ IndexError ∧
  (∀ rs c,
     rules g !! start_rule g = Some rs →
     rtc (chart_step g t w) (initial_chart rs w) c →
     (∀ item symb word i,
        w !! i = Some word → scan c item symb word i ≠ IndexError) ∧
     (∀ loc item,
        item ∈ item_set_at c loc →
        start item ≤ loc ∧ loc < length c ∧
        complete fuel c loc item t ≠ IndexError) ∧
     final_sweep fuel t c ≠ IndexError).
Proof.
  assert (earley_fuel fuel g t w ≠ IndexError) as He.
  { pose proof (earley_outcome fuel g t w) as H.
    by destruct (earley_fuel fuel g t w). }
  split; [done|]. split.
  - unfold parse. rewrite result_bind_unfold.
    by destruct (earley_fuel fuel g t w).
  - intros rs c Hrs Hreach.
    pose proof (earley_reachable_inv g t w rs c Hrs Hreach) as Hinv.
    split; [|split].
    + intros item symb word i Hw. unfold scan. case_decide; [|done].
      destruct (c !! (i + 1)) eqn:E; [done|].
      apply lookup_ge_None in E. apply lookup_lt_Some in Hw.
      rewrite (inv_length _ _ _ Hinv) in E. lia.
    + intros loc item Hit.
      destruct (inv_items _ _ _ Hinv _ _ Hit) as (Hs & _ & _).
      pose proof (item_set_at_elem _ _ _ Hit) as Hloc.
      split; [done|]. split; [done|]. unfold complete.
      destruct (c !! start item) eqn:E;
        [apply complete_loop_no_IndexError|].
      apply lookup_ge_None in E. lia.
    + pose proof (final_sweep_outcome g t w fuel c Hinv) as H.
      by destruct (final_sweep fuel t c).
Qed.

(** ** C1: the acceptance check *)

Lemma accepting_spec start_symbol item :
  accepting start_symbol item = true ↔
  dot item = length (rhs (rule item)) ∧ start item = 0 ∧
  lhs (rule item) = start_symbol.
Proof.
  unfold accepting. rewrite !andb_true_iff, !bool_decide_eq_true. tauto.
Qed.

Lemma find_is_Some {A} (f : A → bool) (l : list A) :
  is_Some (find f l) ↔ ∃ x, x ∈ l ∧ f x = true.
Proof.
  induction l as [|a l IH]; simpl.
  - split; [by intros [? ?]|]. intros (x & Hx & _). by apply elem_of_nil in Hx.
  - destruct (f a) eqn:E.
    + split; [|by eauto]. intros _. exists a. split; [left | done].
    + rewrite IH. split.
      * intros (x & Hx & Hf). exists x. split; [by right | done].
      * intros (x & [->|Hx]%elem_of_cons & Hf); [congruence|]. by exists x.
Qed.

Lemma find_Some_elem {A} (f : A → bool) (l : list A) x :
  find f l = Some x → x ∈ l ∧ f x = true.
Proof.
  intros [H1 H2]%find_some. split; [|done]. by apply list_elem_of_In.
Qed.

(** C1.  The acceptance check of the script succeeds exactly when the
    chart has [len(sentence) + 1] positions and some item of the last
    position has its dot at the end of its rule, origin 0 and the start
    symbol on the left; the item it picks is such an item; in every other
    case it reports failure.  For a chart built by [earley] the length
    condition always holds, so acceptance is decided by the items alone. *)
Theorem acceptance_iff earley_set sentence start_symbol :
  let good item :=
    dot item = length (rhs (rule item)) ∧ start item = 0 ∧
    lhs (rule item) = start_symbol in
  (is_Some (acceptance earley_set sentence start_symbol) ↔
     length earley_set = length sentence + 1 ∧
     ∃ item, item ∈ final_position earley_set ∧ good item) ∧
  (∀ item, acceptance earley_set sentence start_symbol = Some item →
     item ∈ final_position earley_set ∧ good item) ∧
  (acceptance earley_set sentence start_symbol = None ↔
     length earley_set ≠ length sentence + 1 ∨
     ∀ item, item ∈ final_position earley_set → ¬ good item) ∧
  (∀ fuel g t, earley_fuel fuel g t sentence = Ok earley_set →
     (is_Some (acceptance earley_set sentence start_symbol) ↔
      ∃ item, item ∈ final_position earley_set ∧ good item)).
Proof.
  intros good.
  assert (is_Some (acceptance earley_set sentence start_symbol) ↔
     length earley_set = length sentence + 1 ∧
     ∃ item, item ∈ final_position earley_set ∧ good item) as Hiff.
  { unfold acceptance. case_decide as Hlen.
    - split; [by intros [? ?]|]. by intros [? _].
    - rewrite find_is_Some.
      setoid_rewrite accepting_spec. split; [|by intros [_ ?]].
      intros (item & ? & ?). split; [done|]. by exists item. }
  split; [done|]. split; [|split].
  - unfold acceptance. intros item. case_decide; [done|].
    intros [H1 H2]%find_Some_elem. by apply accepting_spec in H2.
  - rewrite eq_None_not_Some, Hiff. split.
    + intros Hn. destruct (decide (length earley_set = length sentence + 1));
        [right|by left].
      intros item Hit Hg. apply Hn. eauto.
    + intros [Hl|Hn] [Hlen (item & Hit & Hg)]; [done|]. by apply (Hn item).
  - intros fuel g t He. rewrite Hiff.
    pose proof (earley_length _ _ _ _ _ He) as Hlen. tauto.
Qed.

(** ** C3: [ItemSet.append] *)

(** C3 (as the code has it).  [append] leaves the collection unchanged
    when some entry has the same rule object, origin and dot, and adds the
    item at the end otherwise; backpointers play no part in the test, so of
    two items with the same (rule, origin, dot) the second is dropped and
    the first one's backpointers stay.  The call itself returns [None] in
    both cases. *)
Theorem append_spec s val :
  let same el :=
    rid (rule el) = rid (rule val) ∧ start el = start val ∧
    dot el = dot val in
  ((∃ el, el ∈ s ∧ same el) → (append s val).1 = s) ∧
  ((∀ el, el ∈ s → ¬ same el) → (append s val).1 = s ++ [val]) ∧
  (∀ p, contains s (mkItem (rule val) (start val) (dot val) p) =
        contains s val) ∧
  (∀ val', item_key val' = item_key val →
     (append (append s val).1 val').1 = (append s val).1) ∧
  (append s val).2 = PyNone.
Proof.
  intros same.
  assert (∀ el, same el ↔ item_key el = item_key val) as Hsame.
  { intros el. unfold same, item_key. split.
    - intros (-> & -> & ->). done.
    - intros [= -> -> ->]. done. }
  split; [|split; [|split; [|split]]].
  - intros (el & Hel & Hs). unfold append. simpl.
    replace (contains s val) with true; [done|].
    symmetry. apply contains_spec. exists el. by rewrite <- Hsame.
  - intros Hn. unfold append. simpl.
    replace (contains s val) with false; [done|].
    symmetry. apply contains_false. intros el Hel. rewrite <- Hsame.
    by apply Hn.
  - intros p. apply eq_true_iff_eq. by rewrite !contains_spec.
  - intros val' Hk. apply append_dup.
    rewrite keyset_contains, Hk, <- keyset_contains.
    apply append_contains.
  - done.
Qed.

(** ** C6: the derivation extractor *)

(** C6.  [to_lr] of an item is the extractions of its backpointers, in
    order, one after the other, followed by the item's own rule; the rule
    of the item is therefore the last element.  [to_lr] reads the item and
    nothing else, so two calls on the same item give the same list. *)
Theorem to_lr_post_order item :
  to_lr item = concat (to_lr <$> prev item) ++ [rule item] ∧
  last (to_lr item) = Some (rule item).
Proof.
  assert (to_lr item = concat (to_lr <$> prev item) ++ [rule item]) as H.
  { destruct item as [r s d p]. simpl. by rewrite foldl_app_concat. }
  split; [done|]. rewrite H. apply last_snoc.
Qed.

(** The value of the call does not tell an insertion from a duplicate:
    the first call below inserts, and neither returns [True]. *)
Lemma append_return_counterexample :
  (append [] item_S_empty).1 = [item_S_empty] ∧
  (append [item_S_empty] item_S_empty).1 = [item_S_empty] ∧
  (append [] item_S_empty).2 = (append [item_S_empty] item_S_empty).2 ∧
  (append [] item_S_empty).2 ≠ PyBool true.
Proof. repeat split; done. Qed.

(** ** C4: grammar construction *)

Lemma foldl_add_rule_lookup m rs s :
  m !! s ≠ Some [] →
  foldl add_rule m rs !! s =
    match default [] (m !! s) ++ filter (λ r, lhs r = s) rs with
    | [] => None
    | l => Some l
    end.
Proof.
  revert m. induction rs as [|r rs IH]; intros m Hm; simpl.
  - rewrite app_nil_r. by destruct (m !! s) as [[|x l]|].
  - rewrite IH.
    + f_equal. unfold add_rule. destruct (decide (lhs r = s)) as [<-|Hne].
      * rewrite filter_cons_True by done.
        destruct (m !! lhs r) as [l|]; rewrite lookup_insert_eq; simpl;
          [by rewrite <- app_assoc | done].
      * rewrite filter_cons_False by done.
        by destruct (m !! lhs r); rewrite lookup_insert_ne.
    + unfold add_rule. destruct (decide (lhs r = s)) as [<-|Hne].
      * destruct (m !! lhs r) as [l|]; rewrite lookup_insert_eq; [|done].
        intros [= H]. by apply app_nil in H as [_ ?].
      * by destruct (m !! lhs r); rewrite lookup_insert_ne.
Qed.

Lemma grammar_lookup rs s :
  foldl add_rule ∅ rs !! s =
    match filter (λ r, lhs r = s) rs with [] => None | l => Some l end.
Proof. by rewrite foldl_add_rule_lookup, lookup_empty. Qed.

Lemma grammar_lookup_None rs s :
  foldl add_rule ∅ rs !! s = None ↔ ∀ r, r ∈ rs → lhs r ≠ s.
Proof.
  rewrite grammar_lookup. split.
  - intros H r Hr Hl.
    assert (r ∈ filter (λ r, lhs r = s) rs) as Hf
      by by apply list_elem_of_filter.
    destruct (filter _ rs); [by apply elem_of_nil in Hf | done].
  - intros H. destruct (filter _ rs) as [|r l] eqn:E; [done|].
    assert (r ∈ filter (λ r, lhs r = s) rs) as Hf by (rewrite E; left).
    apply list_elem_of_filter in Hf as [Hl Hr]. by destruct (H r Hr).
Qed.

Lemma grammar_all_rules rs start r :
  r ∈ all_rules (mkGrammar (foldl add_rule ∅ rs) start) → r ∈ rs.
Proof.
  unfold all_rules. simpl.
  intros (l & Hr & Hl)%list_elem_of_join.
  apply list_elem_of_fmap in Hl as ([s l'] & -> & Hsl). simpl in Hr.
  apply elem_of_map_to_list in Hsl. rewrite grammar_lookup in Hsl.
  assert (l' = filter (λ r, lhs r = s) rs) as ->
    by by destruct (filter _ rs); simplify_eq.
  by apply list_elem_of_filter in Hr as [_ ?].
Qed.

(** C4 (as the code has it).  [Grammar.__init__] never fails and checks
    nothing: it only groups the rules by left-hand symbol, in declaration
    order.  A grammar without rules for the start symbol makes every call
    of [earley] raise [KeyError] on that symbol while the initial chart is
    built, before any item is processed; the only other [KeyError] a parse
    can raise names a symbol of some right-hand side that is neither a
    terminal nor the left-hand side of a rule. *)
Theorem grammar_init_unchecked rs start :
  ∃ g, Grammar_init rs start = Ok g ∧
    start_rule g = start ∧
    (∀ s, rules g !! s =
          match filter (λ r, lhs r = s) rs with [] => None | l => Some l end) ∧
    ((∀ r, r ∈ rs → lhs r ≠ start) →
       ∀ fuel t w, earley_fuel fuel g t w = KeyError (Some start)) ∧
    (∀ fuel t w,
       match earley_fuel fuel g t w with
       | KeyError k =>
           (k = Some start ∧ ∀ r, r ∈ rs → lhs r ≠ start) ∨
           (∃ s r, k = Some s ∧ r ∈ rs ∧ s ∈ rhs r ∧ (s ∉ t) ∧
                   ∀ r', r' ∈ rs → lhs r' ≠ s)
       | _ => True
       end).
Proof.
  eexists. split; [done|]. simpl. split; [done|]. split; [|split].
  - apply grammar_lookup.
  - intros Hn fuel t w. unfold earley_fuel. simpl.
    by rewrite (proj2 (grammar_lookup_None rs start) Hn).
  - intros fuel t w.
    pose proof (earley_outcome fuel
      (mkGrammar (foldl add_rule ∅ rs) start) t w) as H.
    destruct (earley_fuel _ _ t w) as [c|k| |]; [done| |done..].
    simpl in H. destruct H as [[-> Hs]|(s & r & -> & Hs & Ht & Hr & Hin)].
    + left. split; [done|]. by apply grammar_lookup_None.
    + right. exists s, r. repeat split; [|done..|].
      * by eapply grammar_all_rules.
      * by apply grammar_lookup_None.
Qed.

(** Construction succeeds on a grammar without rules for its start symbol
    and on a grammar with a dangling non-terminal; the dangling symbol
    surfaces as a [KeyError] in the middle of a parse (after the first
    word was scanned), or not at all when the sentence ends first. *)
Lemma grammar_init_counterexample :
  Grammar_init [] "S"%string = Ok (mkGrammar ∅ "S"%string) ∧
  Grammar_init dangling_rules "S"%string = Ok dangling_grammar ∧
  earley_fuel 20 dangling_grammar dangling_terminals ["a"; "b"]%string =
    KeyError (Some "B"%string) ∧
  earley_fuel 20 dangling_grammar dangling_terminals ["a"]%string =
    Ok [ [mkItem (mkRule 0 "S"%string ["a"; "B"]%string) 0 0 []];
         [mkItem (mkRule 0 "S"%string ["a"; "B"]%string) 0 1 []] ].
Proof. repeat split; vm_compute; reflexivity. Qed.

(** ** C2: [complete] *)

Lemma append_at_added (c : Chart) loc val :
  loc < length c →
  ∃ extra,
    item_set_at (append_at c loc val) loc = item_set_at c loc ++ extra ∧
    (∀ x, x ∈ extra → x = val) ∧
    contains (item_set_at (append_at c loc val) loc) val = true.
Proof.
  intros Hloc. rewrite item_set_at_append_at_eq by done.
  destruct (contains (item_set_at c loc) val) eqn:E.
  - exists []. rewrite append_dup by done. rewrite app_nil_r.
    split; [done|]. split; [|done]. by intros x ?%elem_of_nil.
  - exists [val]. rewrite append_new by done.
    split; [done|]. split; [by intros x ?%list_elem_of_singleton|].
    rewrite <- (append_new _ _ E). apply append_contains.
Qed.

Lemma chart_le_lookup_at (c c' : Chart) p j item :
  chart_le c c' → item_set_at c p !! j = Some item →
  item_set_at c' p !! j = Some item.
Proof. intros [_ Hp] H. eapply prefix_lookup_Some; [done | apply Hp]. Qed.

Lemma chart_le_contains (c c' : Chart) p val :
  chart_le c c' → contains (item_set_at c p) val = true →
  contains (item_set_at c' p) val = true.
Proof. intros [_ Hp]. apply contains_prefix, Hp. Qed.

Lemma complete_loop_spec fuel c loc item t j c' :
  complete_loop fuel c loc item t j = Ok c' →
  loc < length c →
  (∀ p, p ≠ loc → c' !! p = c !! p) ∧
  (∃ added,
     item_set_at c' loc = item_set_at c loc ++ added ∧
     ∀ v, v ∈ added →
       ∃ old, old ∈ item_set_at c' (start item) ∧
              (next_symb old t).2 = Some (lhs (rule item)) ∧
              v = advance old item) ∧
  (∀ j' old, j ≤ j' →
     item_set_at c' (start item) !! j' = Some old →
     (next_symb old t).2 = Some (lhs (rule item)) →
     contains (item_set_at c' loc) (advance old item) = true).
Proof.
  revert c j. induction fuel as [|fuel IH]; intros c j; simpl; [done|].
  destruct (item_set_at c (start item) !! j) as [old|] eqn:E.
  - intros Hrun Hloc.
    pose proof (complete_loop_le _ _ _ _ _ _ _ Hrun) as Hle'.
    apply IH in Hrun as (Ha & (added & Hadd & Hb) & Hc);
      [|case_decide; by rewrite ?length_append_at].
    case_decide as Hm.
    + pose proof (chart_le_append_at c loc (advance old item)) as Hle.
      destruct (append_at_added c loc (advance old item) Hloc)
        as (extra & Hex & Hval & Hcont).
      split; [|split].
      * intros p Hp. by rewrite Ha, lookup_append_at_ne.
      * exists (extra ++ added). split; [by rewrite Hadd, Hex, app_assoc|].
        intros v [Hv|Hv]%elem_of_app; [|by apply Hb].
        apply Hval in Hv as ->. exists old. split; [|done].
        eapply list_elem_of_lookup_2, chart_le_lookup_at; [|done].
        by etrans.
      * intros j' old' Hj' Hold' Hm'.
        destruct (decide (j' = j)) as [->|Hne]; [|apply (Hc j' old'); [lia|done..]].
        assert (item_set_at c' (start item) !! j = Some old) as Hold.
        { eapply chart_le_lookup_at; [|done]. by etrans. }
        rewrite Hold in Hold'. injection Hold' as <-.
        by eapply chart_le_contains.
    + split; [done|]. split; [by exists added|].
      intros j' old' Hj' Hold' Hm'.
      destruct (decide (j' = j)) as [->|Hne]; [|apply (Hc j' old'); [lia|done..]].
      assert (item_set_at c' (start item) !! j = Some old) as Hold
        by by eapply chart_le_lookup_at.
      rewrite Hold in Hold'. by injection Hold' as <-.
  - intros [= <-] Hloc. split; [done|]. split.
    + exists []. split; [by rewrite app_nil_r|]. by intros v ?%elem_of_nil.
    + intros j' old Hj' Hold. apply lookup_lt_Some in Hold.
      apply lookup_ge_None in E. lia.
Qed.

Lemma complete_loop_no_KeyError fuel c loc item t j k :
  complete_loop fuel c loc item t j ≠ KeyError k.
Proof.
  revert c j. induction fuel as [|fuel IH]; intros c j; simpl; [done|].
  destruct (item_set_at c (start item) !! j); [apply IH | done].
Qed.

Lemma complete_no_KeyError fuel c loc item t k :
  complete fuel c loc item t ≠ KeyError k.
Proof.
  unfold complete. destruct (c !! start item); [|done].
  apply complete_loop_no_KeyError.
Qed.

Lemma append_at_cases (c : Chart) loc val :
  loc < length c →
  (contains (item_set_at c loc) val = true ∧
   item_set_at (append_at c loc val) loc = item_set_at c loc) ∨
  (contains (item_set_at c loc) val = false ∧
   item_set_at (append_at c loc val) loc = item_set_at c loc ++ [val]).
Proof.
  intros Hloc. rewrite item_set_at_append_at_eq by done.
  destruct (contains (item_set_at c loc) val) eqn:E.
  - left. by rewrite append_dup.
  - right. by rewrite append_new.
Qed.




Lemma initial_chart_NoDup rs (w : list Symbol) i :
  (i = 0 → NoDup (rid <$> rs)) →
  NoDup (item_key <$> item_set_at (initial_chart rs w) i).
Proof.
  intros Hi. destruct i as [|i].
  - unfold item_set_at, initial_chart. simpl. rewrite <- list_fmap_compose.
    specialize (Hi eq_refl).
    induction rs as [|r rs IH]; simpl; [constructor|].
    apply NoDup_cons in Hi as [Hr Hrs]. apply NoDup_cons. split; [|by apply IH].
    intros (r' & Hk & Hr')%list_elem_of_fmap. apply Hr.
    apply list_elem_of_fmap. exists r'. split; [|done].
    unfold item_key in Hk. simpl in Hk. by injection Hk.
  - assert (item_set_at (initial_chart rs w) (S i) = []) as ->; [|constructor].
    destruct (item_set_at (initial_chart rs w) (S i)) as [|x l] eqn:E;
      [done|].
    exfalso. apply (initial_chart_tail rs w i x). rewrite E. by left.
Qed.

Lemma rtc_NoDup g t w (c c' : Chart) i :
  rtc (chart_step g t w) c c' →
  NoDup (item_key <$> item_set_at c i) →
  NoDup (item_key <$> item_set_at c' i).
Proof.
  induction 1 as [|c0 c1 c2 Hstep _ IH]; [done|].
  intros H. apply IH. by eapply chart_step_NoDup.
Qed.



(** The same call, evaluated: the empty rule completes [S -> . S a] into
    [S -> S . a], whose only backpointer is the finished item. *)
Example complete_nullable_run :
  complete 10 (initial_chart nullable_rules []) 0 item_S_empty
    nullable_terminals =
  Ok [ [ item_S_empty;
         mkItem (mkRule 1 "S" ["S"; "a"]%string) 0 0 [];
         mkItem (mkRule 1 "S" ["S"; "a"]%string) 0 1 [item_S_empty] ] ].
Proof. vm_compute. reflexivity. Qed.


(** ** C5: the final sweep *)

Lemma complete_spec fuel c loc item t c' :
  complete fuel c loc item t = Ok c' →
  loc < length c →
  (∀ p, p ≠ loc → c' !! p = c !! p) ∧
  (∃ added,
     item_set_at c' loc = item_set_at c loc ++ added ∧
     ∀ v, v ∈ added →
       ∃ old, old ∈ item_set_at c' (start item) ∧
              (next_symb old t).2 = Some (lhs (rule item)) ∧
              v = advance old item) ∧
  (∀ old, old ∈ item_set_at c' (start item) →
     (next_symb old t).2 = Some (lhs (rule item)) →
     contains (item_set_at c' loc) (advance old item) = true).
Proof.
  unfold complete. destruct (c !! start item); [|done].
  intros Hrun Hloc.
  apply complete_loop_spec in Hrun as (Ha & Hb & Hc); [|done].
  split; [done|]. split; [done|].
  intros old [j Hj]%list_elem_of_lookup_1 Hm.
  apply (Hc j old); [lia|done..].
Qed.

Lemma sweep_loop_spec n fuel t loc c k c' :
  sweep_loop n fuel t loc c k = Ok c' →
  loc < length c →
  chart_le c c' ∧
  (∀ p, p ≠ loc → c' !! p = c !! p) ∧
  (∃ added,
     item_set_at c' loc = item_set_at c loc ++ added ∧
     ∀ v, v ∈ added →
       ∃ fin old,
         fin ∈ item_set_at c' loc ∧
         (next_symb fin t).1 = Complete ∧
         old ∈ item_set_at c' (start fin) ∧
         (next_symb old t).2 = Some (lhs (rule fin)) ∧
         v = advance old fin) ∧
  (∀ k' fin old, k ≤ k' →
     item_set_at c' loc !! k' = Some fin →
     (next_symb fin t).1 = Complete →
     old ∈ item_set_at c (start fin) →
     (next_symb old t).2 = Some (lhs (rule fin)) →
     contains (item_set_at c' loc) (advance old fin) = true).
Proof.
  revert c k. induction n as [|n IH]; intros c k; simpl; [done|].
  destruct (item_set_at c loc !! k) as [item|] eqn:E.
  - destruct (next_symb item t).1 eqn:Hst.
    + rewrite result_bind_unfold.
      destruct (complete fuel c loc item t) as [c1| | |] eqn:Hc1; simpl;
        [|done..].
      intros Hrun Hloc.
      pose proof (complete_le _ _ _ _ _ _ Hc1) as Hle1.
      apply complete_spec in Hc1 as (Ha1 & (added1 & Hadd1 & Hb1) & Hcc1);
        [|done].
      apply IH in Hrun as (Hle2 & Ha2 & (added2 & Hadd2 & Hb2) & Hcc2);
        [|by rewrite <- (proj1 Hle1)].
      assert (chart_le c c') as Hle by by etrans.
      assert (item_set_at c' loc !! k = Some item) as Hitem
        by by eapply chart_le_lookup_at.
      split; [done|]. split; [|split].
      * intros p Hp. by rewrite Ha2, Ha1.
      * exists (added1 ++ added2).
        split; [by rewrite Hadd2, Hadd1, app_assoc|].
        intros v [Hv|Hv]%elem_of_app; [|by apply Hb2].
        destruct (Hb1 v Hv) as (old & Hold & Hm & ->).
        exists item, old. split; [by eapply list_elem_of_lookup_2|].
        split; [done|]. split; [by apply (chart_le_elem c1)|done].
      * intros k' fin old Hk' Hfin Hcomp Hold Hm.
        destruct (decide (k' = k)) as [->|Hne].
        -- rewrite Hitem in Hfin. injection Hfin as <-.
           apply (chart_le_contains c1 c'); [done|].
           apply Hcc1; [by apply (chart_le_elem c)|done].
        -- apply (Hcc2 k' fin old); [lia|done..| |done].
           by apply (chart_le_elem c).
    + intros Hrun Hloc.
      apply IH in Hrun as (Hle & Ha & Hb & Hcc); [|done].
      split; [done|]. split; [done|]. split; [done|].
      intros k' fin old Hk' Hfin Hcomp Hold Hm.
      destruct (decide (k' = k)) as [->|Hne];
        [|apply (Hcc k' fin old); [lia|done..]].
      erewrite chart_le_lookup_at in Hfin by done.
      injection Hfin as <-. congruence.
    + intros Hrun Hloc.
      apply IH in Hrun as (Hle & Ha & Hb & Hcc); [|done].
      split; [done|]. split; [done|]. split; [done|].
      intros k' fin old Hk' Hfin Hcomp Hold Hm.
      destruct (decide (k' = k)) as [->|Hne];
        [|apply (Hcc k' fin old); [lia|done..]].
      erewrite chart_le_lookup_at in Hfin by done.
      injection Hfin as <-. congruence.
  - intros [= <-] Hloc. split; [done|]. split; [done|]. split.
    + exists []. split; [by rewrite app_nil_r|]. by intros v ?%elem_of_nil.
    + intros k' fin old Hk' Hfin. apply lookup_lt_Some in Hfin.
      apply lookup_ge_None in E. lia.
Qed.

Lemma sweep_loop_no_KeyError n fuel t loc c k key :
  sweep_loop n fuel t loc c k ≠ KeyError key.
Proof.
  revert c k. induction n as [|n IH]; intros c k; simpl; [done|].
  destruct (item_set_at c loc !! k) as [item|]; [|done].
  destruct (next_symb item t).1; [|apply IH..].
  rewrite result_bind_unfold.
  destruct (complete fuel c loc item t) as [c1|k1| |] eqn:Hc1; simpl;
    [apply IH | by apply complete_no_KeyError in Hc1 | done..].
Qed.




(** ** The result does not depend on the budget *)

Lemma bind_fuel {A B} (m m' : result A) (f f' : A → result B) r :
  m ≫= f = r → r ≠ OutOfFuel →
  (m ≠ OutOfFuel → m' = m) →
  (∀ a, m = Ok a → f a ≠ OutOfFuel → f' a = f a) →
  m' ≫= f' = r.
Proof.
  rewrite !result_bind_unfold. intros Hr Hne Hm Hf.
  destruct m as [a| | |]; simpl in Hr; subst r;
    try (rewrite Hm by done; done).
  rewrite Hm by done. simpl. by apply Hf.
Qed.

Lemma complete_loop_fuel n m c loc item t j :
  complete_loop n c loc item t j ≠ OutOfFuel → n ≤ m →
  complete_loop m c loc item t j = complete_loop n c loc item t j.
Proof.
  revert m c j. induction n as [|n IH]; intros m c j; simpl; [done|].
  intros Hne Hm. destruct m as [|m]; [lia|]. simpl.
  destruct (item_set_at c (start item) !! j); [|done].
  apply IH; [done|lia].
Qed.

Lemma complete_fuel n m c loc item t :
  complete n c loc item t ≠ OutOfFuel → n ≤ m →
  complete m c loc item t = complete n c loc item t.
Proof.
  unfold complete. destruct (c !! start item); [|done].
  apply complete_loop_fuel.
Qed.

Lemma process_item_fuel n m g t word i c item :
  process_item n g t word i c item ≠ OutOfFuel → n ≤ m →
  process_item m g t word i c item = process_item n g t word i c item.
Proof.
  unfold process_item. destruct (next_symb item t) as [[] symb]; [|done..].
  apply complete_fuel.
Qed.

Lemma process_loop_fuel n n' fuel fuel' g t word i c k :
  process_loop n fuel g t word i c k ≠ OutOfFuel →
  n ≤ n' → fuel ≤ fuel' →
  process_loop n' fuel' g t word i c k = process_loop n fuel g t word i c k.
Proof.
  revert n' c k. induction n as [|n IH]; intros n' c k; simpl; [done|].
  intros Hne Hn Hfuel. destruct n' as [|n']; [lia|]. simpl.
  destruct (item_set_at c i !! k) as [item|]; [|done].
  eapply bind_fuel; [done..| |].
  - intros H. by apply process_item_fuel.
  - intros c' _ H. apply IH; [done|lia|done].
Qed.

Lemma main_loop_fuel fuel fuel' g t words i c :
  main_loop fuel g t words i c ≠ OutOfFuel → fuel ≤ fuel' →
  main_loop fuel' g t words i c = main_loop fuel g t words i c.
Proof.
  revert i c. induction words as [|word words IH]; intros i c; simpl; [done|].
  intros Hne Hfuel. destruct (c !! i); [|done].
  eapply bind_fuel; [done..| |].
  - intros H. by apply process_loop_fuel.
  - intros c' _ H. by apply IH.
Qed.

Lemma sweep_loop_fuel n n' fuel fuel' t loc c k :
  sweep_loop n fuel t loc c k ≠ OutOfFuel →
  n ≤ n' → fuel ≤ fuel' →
  sweep_loop n' fuel' t loc c k = sweep_loop n fuel t loc c k.
Proof.
  revert n' c k. induction n as [|n IH]; intros n' c k; simpl; [done|].
  intros Hne Hn Hfuel. destruct n' as [|n']; [lia|]. simpl.
  destruct (item_set_at c loc !! k) as [item|]; [|done].
  destruct (next_symb item t).1; [|apply IH; [done|lia|done]..].
  eapply bind_fuel; [done..| |].
  - intros H. by apply complete_fuel.
  - intros c' _ H. apply IH; [done|lia|done].
Qed.

Lemma final_sweep_fuel fuel fuel' t c :
  final_sweep fuel t c ≠ OutOfFuel → fuel ≤ fuel' →
  final_sweep fuel' t c = final_sweep fuel t c.
Proof.
  unfold final_sweep. destruct c; [done|].
  intros H Hfuel. by apply sweep_loop_fuel.
Qed.

Lemma earley_fuel_mono fuel fuel' g t w :
  earley_fuel fuel g t w ≠ OutOfFuel → fuel ≤ fuel' →
  earley_fuel fuel' g t w = earley_fuel fuel g t w.
Proof.
  unfold earley_fuel. destruct (rules g !! start_rule g); [|done].
  intros Hne Hfuel. eapply bind_fuel; [done..| |].
  - intros H. by apply main_loop_fuel.
  - intros c' _ H. by apply final_sweep_fuel.
Qed.

Lemma earley_fuel_enough fuel g t w :
  enough_fuel g w < fuel → earley_fuel fuel g t w = earley g t w.
Proof.
  intros Hfuel. unfold earley. apply earley_fuel_mono; [|lia].
  pose proof (earley_outcome (S (enough_fuel g w)) g t w) as H.
  destruct (earley_fuel _ g t w); simpl in H; [done..|lia].
Qed.

Lemma find_first {A} (f : A → bool) (l : list A) x :
  find f l = Some x →
  ∃ l1 l2, l = l1 ++ x :: l2 ∧ ∀ y, y ∈ l1 → f y = false.
Proof.
  induction l as [|a l IH]; simpl; [done|].
  destruct (f a) eqn:E.
  - intros [= ->]. exists [], l. split; [done|]. by intros y ?%elem_of_nil.
  - intros (l1 & l2 & -> & Hl1)%IH. exists (a :: l1), l2. split; [done|].
    intros y [->|Hy]%elem_of_cons; [done|]. by apply Hl1.
Qed.

(** ** The scenarios of the script's grammar, evaluated *)

(** "2+3*4" is accepted; the rules are printed from the top rule down. *)
Example parse_2_plus_3_times_4 :
  printed_rule_ids (parse 300 script_grammar script_terminals
                      ["2"; "+"; "3"; "*"; "4"]%string)
  = Ok (Some [2; 5; 10; 0; 5; 9; 5; 8]).
Proof. vm_compute. reflexivity. Qed.

(** "(2+3" is not a sentence. *)
Example parse_unbalanced :
  parse 300 script_grammar script_terminals ["("; "2"; "+"; "3"]%string
  = Ok None.
Proof. vm_compute. reflexivity. Qed.

(** "99" is not a sentence: no rule joins two expressions. *)
Example parse_99 :
  parse 300 script_grammar script_terminals ["9"; "9"]%string = Ok None.
Proof. vm_compute. reflexivity. Qed.

(** "1+2-3" has two derivations; the one printed applies [-] at the top,
    and uses three [term] rules and two operator rules. *)
Example parse_1_plus_2_minus_3 :
  printed_rule_ids (parse 300 script_grammar script_terminals
                      ["1"; "+"; "2"; "-"; "3"]%string)
  = Ok (Some [1; 5; 9; 0; 5; 8; 5; 7]).
Proof. vm_compute. reflexivity. Qed.

(** The empty sentence: the main loop does not run, the sweep finds
    nothing to complete. *)
Example parse_empty :
  parse 300 script_grammar script_terminals [] = Ok None.
Proof. vm_compute. reflexivity. Qed.

(** * Further properties of the engine *)

(** ** [ItemSet.extend] *)

Lemma extend_contains s values v :
  v ∈ values → contains (extend s values) v = true.
Proof.
  unfold extend. revert s.
  induction values as [|v' values IH]; intros s; simpl.
  - by intros ?%elem_of_nil.
  - intros [->|Hv]%elem_of_cons; [|by apply IH].
    eapply contains_prefix; [apply extend_prefix | apply append_contains].
Qed.

Lemma extend_elem s values x :
  x ∈ extend s values → x ∈ s ∨ x ∈ values.
Proof.
  unfold extend. revert s.
  induction values as [|v values IH]; intros s; simpl; [by left|].
  intros [[H| ->]%append_elem|H]%IH.
  - by left.
  - right. by left.
  - right. by right.
Qed.

Lemma extend_NoDup s values :
  NoDup (item_key <$> s) → NoDup (item_key <$> extend s values).
Proof.
  unfold extend. revert s.
  induction values as [|v values IH]; intros s Hs; simpl; [done|].
  by apply IH, append_NoDup.
Qed.

Lemma extend_present s values :
  (∀ v, v ∈ values → contains s v = true) → extend s values = s.
Proof.
  unfold extend. induction values as [|v values IH]; intros Hs;
    cbn [foldl]; [done|].
  rewrite append_dup by (apply Hs; by left).
  apply IH. intros v' Hv'. apply Hs. by right.
Qed.

(** [extend] keeps the collection as a prefix, leaves every value present
    (under the equality of items), adds nothing but the values, keeps
    distinct keys distinct, and a second [extend] with the same values
    changes nothing. *)
Theorem extend_spec s values :
  s `prefix_of` extend s values ∧
  (∀ v, v ∈ values → contains (extend s values) v = true) ∧
  (∀ x, x ∈ extend s values → x ∈ s ∨ x ∈ values) ∧
  (NoDup (item_key <$> s) → NoDup (item_key <$> extend s values)) ∧
  extend (extend s values) values = extend s values.
Proof.
  split; [apply extend_prefix|]. split; [apply extend_contains|].
  split; [apply extend_elem|]. split; [apply extend_NoDup|].
  apply extend_present. intros v. apply extend_contains.
Qed.

(** [extend] through a reference into the chart. *)
Lemma item_set_at_extend_at (c : Chart) loc values :
  loc < length c →
  item_set_at (extend_at c loc values) loc = extend (item_set_at c loc) values.
Proof.
  unfold extend_at, extend. revert c.
  induction values as [|v values IH]; intros c Hloc; simpl; [done|].
  rewrite IH by by rewrite length_append_at.
  by rewrite item_set_at_append_at_eq.
Qed.

Lemma lookup_extend_at_ne (c : Chart) loc values p :
  p ≠ loc → extend_at c loc values !! p = c !! p.
Proof.
  intros Hp. unfold extend_at. revert c.
  induction values as [|v values IH]; intros c; simpl; [done|].
  by rewrite IH, lookup_append_at_ne.
Qed.

Lemma length_extend_at (c : Chart) loc values :
  length (extend_at c loc values) = length c.
Proof. symmetry. apply (chart_le_extend_at c loc values). Qed.

Lemma extend_at_ge (c : Chart) loc values :
  length c ≤ loc → extend_at c loc values = c.
Proof.
  intros H. unfold extend_at. revert c H.
  induction values as [|v values IH]; intros c H; simpl; [done|].
  rewrite append_at_ge by done. by apply IH.
Qed.

Lemma chart_eq_at (c c' : Chart) :
  length c = length c' →
  (∀ p, item_set_at c p = item_set_at c' p) → c = c'.
Proof.
  intros Hlen H. apply list_eq. intros p.
  destruct (decide (p < length c)) as [Hp|Hp].
  - destruct (lookup_lt_is_Some_2 c p Hp) as [s Hs].
    destruct (lookup_lt_is_Some_2 c' p ltac:(lia)) as [s' Hs'].
    specialize (H p). unfold item_set_at in H. rewrite Hs, Hs' in H.
    simpl in H. by rewrite Hs, Hs', H.
  - by rewrite !lookup_ge_None_2 by lia.
Qed.

(** ** [predict] and [scan] *)

(** [predict] raises [KeyError] on the symbol exactly when the grammar has
    no rules for it.  Otherwise it returns, changes no position but [loc],
    keeps what [loc] held as a prefix, leaves an item (rule, [i], 0) there
    for every rule of the symbol, adds only such items, with no
    backpointers, and predicting the same symbol again changes nothing. *)
Theorem predict_spec g (c : Chart) loc symb i :
  loc < length c →
  ((symb ≫= (λ s, rules g !! s)) = None →
     predict g c loc symb i = KeyError symb) ∧
  (∀ rs, (symb ≫= (λ s, rules g !! s)) = Some rs →
     ∃ c', predict g c loc symb i = Ok c' ∧
       length c' = length c ∧
       (∀ p, p ≠ loc → c' !! p = c !! p) ∧
       item_set_at c loc `prefix_of` item_set_at c' loc ∧
       (∀ r, r ∈ rs →
          ∃ item, item ∈ item_set_at c' loc ∧
                  rid (rule item) = rid r ∧ start item = i ∧ dot item = 0) ∧
       (∀ item, item ∈ item_set_at c' loc →
          item ∈ item_set_at c loc ∨ ∃ r, r ∈ rs ∧ item = mkItem r i 0 []) ∧
       predict g c' loc symb i = Ok c').
Proof.
  intros Hloc. unfold predict. split; [by intros ->|].
  intros rs ->. eexists. split; [done|].
  set (values := (λ r, mkItem r i 0 []) <$> rs).
  split; [apply length_extend_at|].
  split; [intros p Hp; by apply lookup_extend_at_ne|].
  rewrite item_set_at_extend_at by done.
  split; [apply extend_prefix|]. split; [|split].
  - intros r Hr.
    assert (contains (extend (item_set_at c loc) values) (mkItem r i 0 [])
            = true) as Hc.
    { apply extend_contains. subst values.
      by apply (list_elem_of_fmap_2 (λ r, mkItem r i 0 [])). }
    apply contains_spec in Hc as (item & Hit & Hk). exists item.
    split; [done|]. unfold item_key in Hk. simpl in Hk. by injection Hk.
  - intros item [H|H]%extend_elem; [by left|]. right.
    subst values. apply list_elem_of_fmap in H as (r & -> & Hr). by exists r.
  - f_equal. apply chart_eq_at; [by rewrite !length_extend_at|].
    intros p. destruct (decide (p = loc)) as [->|Hp].
    + rewrite !item_set_at_extend_at by by rewrite ?length_extend_at.
      apply extend_present. intros v. apply extend_contains.
    + unfold item_set_at. by rewrite !lookup_extend_at_ne.
Qed.

Lemma predict_spec_witness :
  ∃ c', predict nullable_grammar (initial_chart nullable_rules []) 0
          (Some "S"%string) 0 = Ok c' ∧
        length c' = length (initial_chart nullable_rules []).
Proof.
  assert (0 < length (initial_chart nullable_rules [])) as Hloc
    by (simpl; lia).
  destruct (proj2 (predict_spec nullable_grammar
                     (initial_chart nullable_rules []) 0
                     (Some "S"%string) 0 Hloc) nullable_rules eq_refl)
    as (c' & Hrun & Hlen & _).
  exists c'. split; [exact Hrun | exact Hlen].
Defined.

(** [scan] does nothing when the expected symbol is not the word; it
    raises [IndexError] when it is and position [i + 1] does not exist;
    otherwise it changes position [i + 1] only, where an item with the
    rule and origin of the scanned item and its dot plus one is then
    present, the added item (if any) carries the backpointers of the
    scanned item unchanged, and scanning again changes nothing. *)
Theorem scan_spec (c : Chart) item symb word i :
  (symb ≠ Some word → scan c item symb word i = Ok c) ∧
  (symb = Some word → length c ≤ i + 1 →
     scan c item symb word i = IndexError) ∧
  (symb = Some word → i + 1 < length c →
     ∃ c', scan c item symb word i = Ok c' ∧
       length c' = length c ∧
       (∀ p, p ≠ i + 1 → c' !! p = c !! p) ∧
       item_set_at c (i + 1) `prefix_of` item_set_at c' (i + 1) ∧
       (∃ new, new ∈ item_set_at c' (i + 1) ∧
               rid (rule new) = rid (rule item) ∧
               start new = start item ∧ dot new = dot item + 1) ∧
       (∀ new, new ∈ item_set_at c' (i + 1) →
          new ∈ item_set_at c (i + 1) ∨
          new = mkItem (rule item) (start item) (dot item + 1) (prev item)) ∧
       scan c' item symb word i = Ok c').
Proof.
  unfold scan. split; [|split].
  - intros H. by rewrite decide_False.
  - intros H Hlen. rewrite decide_True by done.
    by rewrite lookup_ge_None_2.
  - intros H Hlen. rewrite !decide_True by done.
    destruct (lookup_lt_is_Some_2 c (i + 1) Hlen) as [s Hs]. rewrite Hs.
    set (new := mkItem (rule item) (start item) (dot item + 1) (prev item)).
    eexists. split; [done|].
    split; [apply length_append_at|].
    split; [intros p Hp; by apply lookup_append_at_ne|].
    split; [apply item_set_at_append_at_prefix|].
    rewrite item_set_at_append_at_eq by done. split; [|split].
    + pose proof (append_contains (item_set_at c (i + 1)) new) as Hc.
      apply contains_spec in Hc as (x & Hx & Hk). exists x.
      split; [done|]. unfold item_key in Hk. simpl in Hk. by injection Hk.
    + intros x [Hx|Hx]%append_elem; [by left | by right].
    + rewrite ?decide_True by done.
      destruct (lookup_lt_is_Some_2 (append_at c (i + 1) new) (i + 1))
        as [s' ->]; [by rewrite length_append_at|].
      f_equal. apply chart_eq_at; [by rewrite !length_append_at|].
      intros p. destruct (decide (p = i + 1)) as [->|Hp].
      * rewrite !item_set_at_append_at_eq by by rewrite ?length_append_at.
        apply append_dup, append_contains.
      * by rewrite !item_set_at_append_at_ne.
Qed.

(** ** Which positions a step touches *)

Lemma complete_loop_local fuel (c : Chart) loc item t j c' p :
  complete_loop fuel c loc item t j = Ok c' → p ≠ loc → c' !! p = c !! p.
Proof.
  revert c j. induction fuel as [|fuel IH]; intros c j; simpl; [done|].
  destruct (item_set_at c (start item) !! j); [|by intros [= <-]].
  intros H Hp. rewrite (IH _ _ H Hp).
  case_decide; [by apply lookup_append_at_ne | done].
Qed.

Lemma complete_local fuel (c : Chart) loc item t c' p :
  complete fuel c loc item t = Ok c' → p ≠ loc → c' !! p = c !! p.
Proof.
  unfold complete. destruct (c !! start item); [|done].
  apply complete_loop_local.
Qed.

Lemma process_item_local fuel g t word i (c : Chart) item c' p :
  process_item fuel g t word i c item = Ok c' →
  p ≠ i → p ≠ i + 1 → c' !! p = c !! p.
Proof.
  unfold process_item. destruct (next_symb item t) as [[] symb].
  - intros H Hp _. by eapply complete_local.
  - unfold scan. case_decide; [|by intros [= <-]].
    destruct (c !! (i + 1)); [|done].
    intros [= <-] _ Hp. by apply lookup_append_at_ne.
  - unfold predict. destruct (symb ≫= _); [|done].
    intros [= <-] Hp _. by apply lookup_extend_at_ne.
Qed.

Lemma process_loop_local n fuel g t word i (c : Chart) k c' p :
  process_loop n fuel g t word i c k = Ok c' →
  p ≠ i → p ≠ i + 1 → c' !! p = c !! p.
Proof.
  revert c k. induction n as [|n IH]; intros c k; simpl; [done|].
  destruct (item_set_at c i !! k) as [item|]; [|by intros [= <-]].
  rewrite result_bind_unfold.
  destruct (process_item fuel g t word i c item) as [c1| | |] eqn:E;
    simpl; [|done..].
  intros H Hp1 Hp2. rewrite (IH _ _ H Hp1 Hp2).
  by eapply process_item_local.
Qed.

Lemma main_loop_local fuel g t words i (c : Chart) c' p :
  main_loop fuel g t words i c = Ok c' → p < i → c' !! p = c !! p.
Proof.
  revert i c. induction words as [|word words IH]; intros i c; simpl;
    [by intros [= <-]|].
  destruct (c !! i); [|by intros [= <-]].
  rewrite result_bind_unfold.
  destruct (process_loop fuel fuel g t word i c 0) as [c1| | |] eqn:E;
    simpl; [|done..].
  intros H Hp. rewrite (IH _ _ H) by lia.
  eapply process_loop_local; [done|lia..].
Qed.

(** Working on position [i] changes positions [i] and [i + 1] only, so the
    main loop, once at position [i], never changes an earlier position;
    [complete] changes only the position it is working on. *)
Theorem positions_settle fuel g t :
  (∀ n word i (c : Chart) k c' p,
     process_loop n fuel g t word i c k = Ok c' →
     p ≠ i → p ≠ i + 1 → c' !! p = c !! p) ∧
  (∀ words i (c : Chart) c' p,
     main_loop fuel g t words i c = Ok c' → p < i → c' !! p = c !! p) ∧
  (∀ (c : Chart) loc item c' p,
     complete fuel c loc item t = Ok c' → p ≠ loc → c' !! p = c !! p).
Proof.
  split; [|split].
  - intros n word i c k c' p. apply process_loop_local.
  - intros words i c c' p. apply main_loop_local.
  - intros c loc item c' p. apply complete_local.
Qed.

(** ** No two entries of a collection are equal *)

(** In every chart the engine goes through, the entries of a position
    after the first are pairwise different under the equality of items,
    and so are those of the first position when the rules of the start
    symbol are different objects (the initial collection is built without
    the test [append] makes). *)
Theorem chart_keys_distinct g t w rs (c : Chart) i :
  rules g !! start_rule g = Some rs →
  rtc (chart_step g t w) (initial_chart rs w) c →
  (i = 0 → NoDup (rid <$> rs)) →
  NoDup (item_key <$> item_set_at c i).
Proof.
  intros Hrs Hreach Hi.
  assert (NoDup (item_key <$> item_set_at (initial_chart rs w) i)) as H0.
  { destruct i as [|i].
    - unfold item_set_at, initial_chart. simpl. rewrite <- list_fmap_compose.
      specialize (Hi eq_refl). clear Hrs Hreach.
      induction rs as [|r rs IH]; simpl; [constructor|].
      apply NoDup_cons in Hi as [Hr Hrs]. apply NoDup_cons. split; [|by apply IH].
      intros (r' & Hk & Hr')%list_elem_of_fmap. apply Hr.
      apply list_elem_of_fmap. exists r'. split; [|done].
      unfold item_key in Hk. simpl in Hk. by injection Hk.
    - assert (item_set_at (initial_chart rs w) (S i) = []) as ->; [|constructor].
      destruct (item_set_at (initial_chart rs w) (S i)) as [|x l] eqn:E;
        [done|].
      exfalso. apply (initial_chart_tail rs w i x). rewrite E. by left. }
  clear Hi Hrs. induction Hreach as [|c0 c1 c2 Hstep _ IH]; [done|].
  apply IH. by eapply chart_step_NoDup.
Qed.

Lemma chart_keys_distinct_witness :
  NoDup (item_key <$> item_set_at (initial_chart nullable_rules []) 0).
Proof.
  apply (chart_keys_distinct nullable_grammar nullable_terminals []
           nullable_rules (initial_chart nullable_rules []) 0).
  - vm_compute. reflexivity.
  - apply rtc_refl.
  - intros _. vm_compute. repeat constructor; set_solver.
Defined.

(** ** Termination and the size of the chart *)

Lemma length_bind_const {A B} (f : A → list B) (l : list A) m :
  (∀ x, length (f x) = m) → length (l ≫= f) = length l * m.
Proof.
  intros Hf. induction l as [|x l IH]; [done|].
  rewrite bind_cons, length_app, Hf, IH. simpl. lia.
Qed.

Lemma enough_fuel_size_bound g w : enough_fuel g w = size_bound g w.
Proof.
  unfold enough_fuel, size_bound, key_universe. f_equal.
  induction (all_rules g) as [|r l IH]; [simpl; lia|].
  rewrite bind_cons, length_app, IH. simpl sum_list_with.
  rewrite (length_bind_const _ _ (S (length (rhs r)))).
  - rewrite length_seq. lia.
  - intros s. rewrite (length_bind_const _ _ 1) by done.
    rewrite length_seq. lia.
Qed.

(** [earley] terminates: with the budget [size_bound] plus one it ends in
    a chart or a [KeyError], and every larger budget gives the same
    result.  No collection of the returned chart holds more than
    [size_bound] items: the rules of the start symbol plus, for each rule
    object, one entry per origin and dot. *)
Theorem earley_total_bounded g t w :
  match earley g t w with
  | Ok chart => ∀ i, length (item_set_at chart i) ≤ size_bound g w
  | KeyError _ => True
  | IndexError => False
  | OutOfFuel => False
  end ∧
  (∀ fuel, size_bound g w < fuel → earley_fuel fuel g t w = earley g t w).
Proof.
  split.
  - unfold earley.
    pose proof (earley_outcome (S (enough_fuel g w)) g t w) as H.
    destruct (earley_fuel _ g t w) as [c|k| |]; simpl in H; [|done..|lia].
    destruct H as (rs & Hrs & Hc). intros i.
    rewrite <- enough_fuel_size_bound. apply chart_inv_bound.
    by eapply earley_reachable_inv.
  - intros fuel Hfuel. apply earley_fuel_enough.
    by rewrite enough_fuel_size_bound.
Qed.

(** ** Grammars on which [predict] cannot fail *)

(** On a closed grammar [earley] returns a chart, whatever the sentence:
    no [KeyError] is raised, neither while the initial chart is built nor
    by a prediction, and the chart has one position more than the sentence
    has words. *)
Theorem closed_grammar_returns g t w :
  closed_grammar g t →
  ∃ chart, earley g t w = Ok chart ∧ length chart = length w + 1.
Proof.
  intros [[rs Hrs] Hclosed]. unfold earley.
  pose proof (earley_outcome (S (enough_fuel g w)) g t w) as H.
  destruct (earley_fuel _ g t w) as [c|k| |] eqn:Hrun; simpl in H;
    [|exfalso|done|lia].
  - exists c. split; [done|]. by eapply earley_length.
  - destruct H as [[_ Hn]|(s & r & _ & Hn & Ht & Hr & Hs)]; [congruence|].
    destruct (Hclosed r s Hr Hs Ht) as [? ?]. congruence.
Qed.

Lemma closed_grammar_returns_witness :
  ∃ chart, earley nullable_grammar nullable_terminals ["a"]%string = Ok chart ∧
           length chart = length ["a"%string] + 1.
Proof.
  assert (closed_grammar nullable_grammar nullable_terminals) as H.
  { split; [eexists; vm_compute; reflexivity|].
    intros r s Hr Hs Ht. apply grammar_all_rules in Hr.
    unfold nullable_rules in Hr.
    apply elem_of_cons in Hr as [->|Hr];
      [by apply elem_of_nil in Hs|].
    apply list_elem_of_singleton in Hr as ->. simpl in Hs.
    apply elem_of_cons in Hs as [->|Hs];
      [eexists; vm_compute; reflexivity|].
    apply list_elem_of_singleton in Hs as ->.
    exfalso. apply Ht. unfold nullable_terminals. set_solver. }
  exact (closed_grammar_returns nullable_grammar nullable_terminals
           ["a"]%string H).
Defined.

(** ** Soundness: every item covers what it says *)

Lemma derives_app g α β u v :
  derives g α u → derives g β v → derives g (α ++ β) (u ++ v).
Proof.
  intros Hα Hβ. induction Hα as [|x α u _ IH|r α u1 u2 Hr Hu _ _ IH]; simpl.
  - done.
  - by constructor.
  - rewrite <- app_assoc. by constructor.
Qed.

Lemma derives_symbol g r u :
  r ∈ all_rules g → derives g (rhs r) u → derives g [lhs r] u.
Proof.
  intros Hr Hu. rewrite <- (app_nil_r u). apply derives_rule; [done..|].
  constructor.
Qed.

Lemma words_between_nil (w : list Symbol) s : words_between w s s = [].
Proof. unfold words_between. by rewrite Nat.sub_diag. Qed.

Lemma words_between_app (w : list Symbol) s m i :
  s ≤ m → m ≤ i →
  words_between w s m ++ words_between w m i = words_between w s i.
Proof.
  intros Hsm Hmi. unfold words_between.
  replace (drop m w) with (drop (m - s) (drop s w))
    by (rewrite drop_drop; f_equal; lia).
  replace (i - s) with ((m - s) + (i - m)) by lia.
  by rewrite take_take_drop.
Qed.

Lemma words_between_word (w : list Symbol) i x :
  w !! i = Some x → words_between w i (i + 1) = [x].
Proof.
  intros Hx. unfold words_between.
  replace (i + 1 - i) with 1 by lia.
  rewrite (drop_S _ _ _ Hx). done.
Qed.

Lemma words_between_all (w : list Symbol) :
  words_between w 0 (length w) = w.
Proof.
  unfold words_between. rewrite Nat.sub_0_r, drop_0. apply firstn_all.
Qed.

Lemma next_symb_Complete item (t : gset string) :
  (next_symb item t).1 = Complete ↔ length (rhs (rule item)) ≤ dot item.
Proof.
  unfold next_symb. case_decide as Hd.
  - destruct (lookup_lt_is_Some_2 _ _ Hd) as [x ->]. simpl.
    case_decide; split; (done || lia).
  - simpl. split; [lia | done].
Qed.

Lemma next_symb_Terminal_word item (t : gset string) word :
  next_symb item t = (Terminal, Some word) →
  rhs (rule item) !! dot item = Some word ∧ word ∈ t.
Proof.
  unfold next_symb. case_decide as Hd; [|done].
  destruct (rhs (rule item) !! dot item) as [x|] eqn:E; [|done].
  case_decide; intros ?; simplify_eq. done.
Qed.

Section soundness.
Context (g : Grammar) (t : gset string) (w : list Symbol).

Lemma insertion_derives (c : Chart) loc val :
  chart_inv g w c →
  (∀ i item, item ∈ item_set_at c i →
     derives g (take (dot item) (rhs (rule item)))
       (words_between w (start item) i)) →
  insertion g t w c loc val →
  derives g (take (dot val) (rhs (rule val)))
    (words_between w (start val) loc).
Proof.
  intros Hinv Hspan Hins. destruct Hins as
    [i item symb rs r Hit Hn Hrs Hr Hi
    |i item word Hit Hw Hn
    |i item old Hit Hn Hold Hm]; simpl.
  - rewrite words_between_nil. constructor.
  - destruct (inv_items _ _ _ Hinv _ _ Hit) as (Hs & _ & _).
    destruct (next_symb_Some item t word) as [Hlt Hx]; [by rewrite Hn|].
    replace (dot item + 1) with (S (dot item)) by lia.
    rewrite (take_S_r _ _ _ Hx).
    rewrite <- (words_between_app w (start item) i (i + 1)) by lia.
    apply derives_app; [by apply Hspan|].
    rewrite (words_between_word _ _ _ Hw). repeat constructor.
  - destruct (inv_items _ _ _ Hinv _ _ Hit) as (Hs & Hd & Hr).
    destruct (inv_items _ _ _ Hinv _ _ Hold) as (Hs' & _ & _).
    destruct (next_symb_Some old t _ Hm) as [Hlt Hx].
    replace (dot old + 1) with (S (dot old)) by lia.
    rewrite (take_S_r _ _ _ Hx).
    rewrite <- (words_between_app w (start old) (start item) i) by lia.
    apply derives_app; [by apply Hspan|].
    apply derives_symbol; [done|].
    specialize (Hspan i item Hit). apply next_symb_Complete in Hn.
    by rewrite take_ge in Hspan by lia.
Qed.

Lemma reachable_derives rs (c : Chart) :
  rules g !! start_rule g = Some rs →
  rtc (chart_step g t w) (initial_chart rs w) c →
  ∀ i item, item ∈ item_set_at c i →
    derives g (take (dot item) (rhs (rule item)))
      (words_between w (start item) i).
Proof.
  intros Hrs Hreach.
  cut (chart_inv g w c ∧
       ∀ i item, item ∈ item_set_at c i →
         derives g (take (dot item) (rhs (rule item)))
           (words_between w (start item) i)); [by intros [_ ?]|].
  revert c Hreach. apply rtc_ind_r.
  - split; [by apply chart_inv_initial|].
    intros [|i] item Hit; [|by apply initial_chart_tail in Hit].
    unfold item_set_at, initial_chart in Hit. simpl in Hit.
    apply list_elem_of_fmap in Hit as (r & -> & _). simpl.
    rewrite words_between_nil. constructor.
  - intros c1 c2 _ Hstep [Hinv Hspan].
    split; [by eapply chart_inv_step|].
    destruct Hstep as (loc & val & Hins & ->).
    pose proof (insertion_derives c1 loc val Hinv Hspan Hins) as Hval.
    destruct (insertion_ok g t w c1 loc val Hinv Hins) as [_ Hloc].
    intros i item. destruct (decide (i = loc)) as [->|Hne];
      [|rewrite item_set_at_append_at_ne by done; apply Hspan].
    rewrite item_set_at_append_at_eq by done.
    intros [H| ->]%append_elem; [by apply Hspan | done].
Qed.
End soundness.

(** Soundness.  In the chart [earley] returns, an item of position [i]
    with origin [s] and the dot after [d] symbols witnesses that the first
    [d] symbols of its rule derive the words from [s] to [i]; so when the
    acceptance check finds an item, the start symbol derives the whole
    sentence with the rules of the grammar. *)
Theorem earley_sound g t w :
  match earley g t w with
  | Ok chart =>
      (∀ i item, item ∈ item_set_at chart i →
         derives g (take (dot item) (rhs (rule item)))
           (words_between w (start item) i)) ∧
      (is_Some (acceptance chart w (start_rule g)) →
         derives g [start_rule g] w)
  | _ => True
  end.
Proof.
  unfold earley.
  pose proof (earley_outcome (S (enough_fuel g w)) g t w) as H.
  destruct (earley_fuel _ g t w) as [c|k| |] eqn:Hrun; [|done..].
  simpl in H. destruct H as (rs & Hrs & Hreach).
  pose proof (reachable_derives g t w rs c Hrs Hreach) as Hspan.
  pose proof (earley_reachable_inv g t w rs c Hrs Hreach) as Hinv.
  split; [done|]. intros [item Hacc].
  unfold acceptance in Hacc. case_decide as Hlen; [done|].
  apply find_Some_elem in Hacc as [Hit Hgood].
  apply accepting_spec in Hgood as (Hdot & Hstart & Hlhs).
  assert (item ∈ item_set_at c (length w)) as Hit'.
  { unfold final_position in Hit. rewrite last_lookup in Hit.
    unfold item_set_at. by replace (length w) with (pred (length c)) by lia. }
  specialize (Hspan _ _ Hit').
  rewrite Hdot, firstn_all, Hstart, words_between_all in Hspan.
  rewrite <- Hlhs. apply derives_symbol; [|done].
  by destruct (inv_items _ _ _ Hinv _ _ Hit') as (_ & _ & ?).
Qed.

(** ** The printed rules are a rightmost derivation *)

Lemma to_lr_unfold item :
  to_lr item = concat (to_lr <$> prev item) ++ [rule item].
Proof. destruct item as [r s d p]. simpl. by rewrite foldl_app_concat. Qed.

Lemma reverse_to_lr item :
  reverse (to_lr item) =
  rule item :: reverse (concat (to_lr <$> prev item)).
Proof. by rewrite to_lr_unfold, reverse_app. Qed.

Lemma forallb_terminals (t : gset string) (l : list Symbol) :
  forallb (λ y, bool_decide (y ∈ t)) l = true ↔ Forall (λ y, y ∈ t) l.
Proof.
  induction l as [|x l IH]; simpl.
  - split; [constructor | done].
  - rewrite andb_true_iff, bool_decide_eq_true, IH, Forall_cons. done.
Qed.

Lemma rightmost_step_at (t : gset string) r γ β :
  Forall (λ y, y ∈ t) β → lhs r ∉ t →
  rightmost_step t r (γ ++ lhs r :: β) = Some (γ ++ rhs r ++ β).
Proof.
  intros Hβ Hr. induction γ as [|y γ IH]; simpl.
  - rewrite (proj2 (forallb_terminals t β) Hβ).
    by rewrite decide_False, decide_True.
  - destruct (forallb _ (γ ++ lhs r :: β)) eqn:E; [|by rewrite IH].
    apply forallb_terminals, Forall_app in E as [_ E].
    by apply Forall_cons in E as [? _].
Qed.

Lemma rightmost_app (t : gset string) l1 l2 form :
  rightmost t (l1 ++ l2) form = rightmost t l1 form ≫= rightmost t l2.
Proof.
  revert form. induction l1 as [|r l1 IH]; intros form; simpl; [done|].
  destruct (rightmost_step t r form); simpl; [apply IH | done].
Qed.

Lemma built_terminals g t item u : built g t item u → Forall (λ y, y ∈ t) u.
Proof.
  induction 1 as [| item x u _ IH Hx Ht | old fin u v _ IHo _ IHf _ _ _].
  - constructor.
  - apply Forall_app. split; [done|]. by repeat constructor.
  - by apply Forall_app.
Qed.

Lemma built_rules g t item u :
  built g t item u → Forall (λ r, r ∈ all_rules g) (to_lr item).
Proof.
  induction 1 as [r s Hr | item x u _ IH Hx Ht | old fin u v _ IHo _ IHf _ _ _].
  - rewrite to_lr_unfold. simpl. by repeat constructor.
  - rewrite to_lr_unfold in IH |- *. done.
  - rewrite to_lr_unfold in IHo |- *. simpl in *.
    rewrite fmap_app, concat_app. simpl. rewrite app_nil_r.
    apply Forall_app in IHo as [IHo Hr].
    apply Forall_app. split; [|done]. by apply Forall_app.
Qed.

Lemma built_rightmost g t item u :
  built g t item u →
  ∀ α β, Forall (λ y, y ∈ t) β →
    rightmost t (reverse (concat (to_lr <$> prev item)))
      (α ++ take (dot item) (rhs (rule item)) ++ β) = Some (α ++ u ++ β).
Proof.
  induction 1 as
    [r s Hr
    |item x u Hb IH Hx Ht
    |old fin u v Hbo IHo Hbf IHf Hdot Hx Ht]; intros α β Hβ.
  - done.
  - simpl. replace (dot item + 1) with (S (dot item)) by lia.
    rewrite (take_S_r _ _ _ Hx), <- !app_assoc. simpl.
    apply IH. by constructor.
  - simpl. replace (dot old + 1) with (S (dot old)) by lia.
    rewrite (take_S_r _ _ _ Hx), fmap_app, concat_app. simpl.
    rewrite app_nil_r, reverse_app, reverse_to_lr. simpl.
    rewrite <- !app_assoc. simpl.
    rewrite (app_assoc α), rightmost_step_at by done. simpl.
    rewrite rightmost_app.
    specialize (IHf (α ++ take (dot old) (rhs (rule old))) β Hβ).
    rewrite Hdot, firstn_all in IHf. rewrite IHf. simpl.
    rewrite <- !app_assoc. apply IHo.
    apply Forall_app. split; [|done]. by eapply built_terminals.
Qed.

Section derivation.
Context (g : Grammar) (t : gset string) (w : list Symbol).
Hypothesis lhs_not_terminal : ∀ r, r ∈ all_rules g → lhs r ∉ t.

Lemma insertion_built (c : Chart) loc val :
  chart_inv g w c →
  (∀ i item, item ∈ item_set_at c i →
     built g t item (words_between w (start item) i)) →
  insertion g t w c loc val →
  built g t val (words_between w (start val) loc).
Proof using lhs_not_terminal.
  intros Hinv Hb Hins. destruct Hins as
    [i item symb rs r Hit Hn Hrs Hr Hi
    |i item word Hit Hw Hn
    |i item old Hit Hn Hold Hm].
  - simpl. rewrite words_between_nil. constructor.
    by eapply elem_of_all_rules.
  - destruct (inv_items _ _ _ Hinv _ _ Hit) as (Hs & _ & _).
    destruct (next_symb_Terminal_word item t word Hn) as [Hx Ht].
    simpl. rewrite <- (words_between_app w (start item) i (i + 1)) by lia.
    rewrite (words_between_word _ _ _ Hw).
    apply built_scan; [by apply Hb|done..].
  - destruct (inv_items _ _ _ Hinv _ _ Hit) as (Hs & Hd & Hr).
    destruct (inv_items _ _ _ Hinv _ _ Hold) as (Hs' & _ & _).
    destruct (next_symb_Some old t _ Hm) as [Hlt Hx].
    apply next_symb_Complete in Hn.
    unfold advance at 2. simpl.
    rewrite <- (words_between_app w (start old) (start item) i) by lia.
    apply built_complete; [by apply Hb|by apply Hb|lia|done|].
    by apply lhs_not_terminal.
Qed.

Lemma reachable_built rs (c : Chart) :
  rules g !! start_rule g = Some rs →
  rtc (chart_step g t w) (initial_chart rs w) c →
  ∀ i item, item ∈ item_set_at c i →
    built g t item (words_between w (start item) i).
Proof using lhs_not_terminal.
  intros Hrs Hreach.
  cut (chart_inv g w c ∧
       ∀ i item, item ∈ item_set_at c i →
         built g t item (words_between w (start item) i));
    [by intros [_ ?]|].
  revert c Hreach. apply rtc_ind_r.
  - split; [by apply chart_inv_initial|].
    intros [|i] item Hit; [|by apply initial_chart_tail in Hit].
    unfold item_set_at, initial_chart in Hit. simpl in Hit.
    apply list_elem_of_fmap in Hit as (r & -> & Hr). simpl.
    rewrite words_between_nil. constructor. by eapply elem_of_all_rules.
  - intros c1 c2 _ Hstep [Hinv Hb].
    split; [by eapply chart_inv_step|].
    destruct Hstep as (loc & val & Hins & ->).
    pose proof (insertion_built c1 loc val Hinv Hb Hins) as Hval.
    destruct (insertion_ok g t w c1 loc val Hinv Hins) as [_ Hloc].
    intros i item. destruct (decide (i = loc)) as [->|Hne];
      [|rewrite item_set_at_append_at_ne by done; apply Hb].
    rewrite item_set_at_append_at_eq by done.
    intros [H| ->]%append_elem; [by apply Hb | done].
Qed.
End derivation.

(** When no rule has a terminal on its left, the rules the script prints
    are a rightmost derivation of the sentence: applied in the printed
    order, each to the last non-terminal of the form, they rewrite the
    start symbol into the sentence.  Every printed rule is a rule object
    of the grammar, and every word of an accepted sentence is a
    terminal. *)
Theorem printed_rightmost_derivation fuel g t w out :
  (∀ r, r ∈ all_rules g → lhs r ∉ t) →
  parse fuel g t w = Ok (Some out) →
  rightmost t out [start_rule g] = Some w ∧
  Forall (λ r, r ∈ all_rules g) out ∧
  Forall (λ x, x ∈ t) w.
Proof.
  intros Hlhs. unfold parse. rewrite result_bind_unfold.
  pose proof (earley_outcome fuel g t w) as H.
  destruct (earley_fuel fuel g t w) as [c|k| |] eqn:Hrun; [|done..].
  simpl in H |- *. destruct H as (rs & Hrs & Hreach).
  destruct (acceptance c w (start_rule g)) as [item|] eqn:Hacc; [|done].
  intros [= <-].
  pose proof (earley_reachable_inv g t w rs c Hrs Hreach) as Hinv.
  unfold acceptance in Hacc. case_decide as Hlen; [done|].
  apply find_Some_elem in Hacc as [Hit Hgood].
  apply accepting_spec in Hgood as (Hdot & Hstart & Hstartsym).
  assert (item ∈ item_set_at c (length w)) as Hit'.
  { unfold final_position in Hit. rewrite last_lookup in Hit.
    unfold item_set_at. by replace (length w) with (pred (length c)) by lia. }
  pose proof (reachable_built g t w Hlhs rs c Hrs Hreach _ _ Hit') as Hb.
  rewrite Hstart, words_between_all in Hb.
  destruct (inv_items _ _ _ Hinv _ _ Hit') as (_ & _ & Hr).
  split; [|split].
  - rewrite reverse_to_lr. cbn [rightmost]. rewrite <- Hstartsym.
    pose proof (rightmost_step_at t (rule item) [] [] (Forall_nil_2 _)
                  (Hlhs _ Hr)) as Hstep.
    cbn [app] in Hstep. rewrite Hstep. simpl. rewrite app_nil_r.
    pose proof (built_rightmost g t item w Hb [] [] (Forall_nil_2 _)) as Hd.
    rewrite Hdot, firstn_all, !app_nil_r in Hd. done.
  - apply Forall_reverse. by eapply built_rules.
  - by eapply built_terminals.
Qed.

Lemma script_lhs_not_terminal r :
  r ∈ all_rules script_grammar → lhs r ∉ script_terminals.
Proof.
  intros Hr%grammar_all_rules Hin.
  assert (bool_decide (lhs r ∈ script_terminals) = true) as Hb
    by by apply bool_decide_eq_true.
  unfold script_rules in Hr.
  repeat (apply elem_of_cons in Hr as [->|Hr];
          [vm_compute in Hb; discriminate|]).
  by apply elem_of_nil in Hr.
Qed.

Lemma printed_rightmost_derivation_witness :
  rightmost script_terminals printed_2_plus_3_times_4 ["expr"%string]
  = Some ["2"; "+"; "3"; "*"; "4"]%string.
Proof.
  assert (parse 300 script_grammar script_terminals
            ["2"; "+"; "3"; "*"; "4"]%string
          = Ok (Some printed_2_plus_3_times_4)) as Hrun
    by (vm_compute; reflexivity).
  exact (proj1 (printed_rightmost_derivation 300 script_grammar
                  script_terminals ["2"; "+"; "3"; "*"; "4"]%string
                  printed_2_plus_3_times_4 script_lhs_not_terminal Hrun)).
Defined.

(** ** Completeness on proper grammars *)

(** *** Every item of the chart has been processed *)

Lemma process_item_processed fuel g t word i (c : Chart) item c' :
  process_item fuel g t word i c item = Ok c' →
  i < length c →
  processed g t c' i (Some word) item.
Proof.
  unfold process_item, processed.
  destruct (next_symb item t) as [state symb] eqn:Hn. simpl.
  destruct state.
  - intros Hrun Hi. split; [|split; intros; simplify_eq].
    intros _ old Hold Hm.
    by apply (complete_spec _ _ _ _ _ _ Hrun Hi).
  - intros Hrun Hi. split; [done|]. split; [intros; simplify_eq|].
    intros x [= ->] [= <-]. unfold scan in Hrun.
    rewrite decide_True in Hrun by done.
    destruct (c !! (i + 1)) eqn:E; [|done]. injection Hrun as <-.
    rewrite item_set_at_append_at_eq by by eapply lookup_lt_Some.
    apply append_contains.
  - intros Hrun Hi. split; [done|]. split; [|intros; simplify_eq].
    intros X rs r [= ->] Hrs Hr. unfold predict in Hrun. simpl in Hrun.
    rewrite Hrs in Hrun. injection Hrun as <-.
    rewrite item_set_at_extend_at by done.
    apply extend_contains.
    by apply (list_elem_of_fmap_2 (λ r, mkItem r i 0 [])).
Qed.

Lemma processed_mono g t (c c' : Chart) i word item :
  chart_le c c' →
  ((next_symb item t).1 = Complete →
     item_set_at c' (start item) = item_set_at c (start item)) →
  processed g t c i word item → processed g t c' i word item.
Proof.
  intros Hle Hfrozen (Hc & Hp & Hs). split; [|split].
  - intros Hst old Hold Hm. rewrite (Hfrozen Hst) in Hold.
    eapply chart_le_contains; [done|]. by apply Hc.
  - intros X rs r Hn Hrs Hr. eapply chart_le_contains; [done|].
    by eapply Hp.
  - intros x Hn Hw. eapply chart_le_contains; [done|]. by eapply Hs.
Qed.

Lemma item_set_at_eq_lookup (c c' : Chart) p :
  c' !! p = c !! p → item_set_at c' p = item_set_at c p.
Proof. intros H. unfold item_set_at. by rewrite H. Qed.

Lemma process_loop_processed n fuel g t word i (c : Chart) k c' :
  process_loop n fuel g t word i c k = Ok c' →
  i < length c →
  (∀ item, item ∈ item_set_at c' i →
     (next_symb item t).1 = Complete → start item < i) →
  (∀ j item, j < k → item_set_at c i !! j = Some item →
     processed g t c i (Some word) item) →
  ∀ item, item ∈ item_set_at c' i → processed g t c' i (Some word) item.
Proof.
  revert c k. induction n as [|n IH]; intros c k; simpl; [done|].
  destruct (item_set_at c i !! k) as [item|] eqn:E.
  - rewrite result_bind_unfold.
    destruct (process_item fuel g t word i c item) as [c1| | |] eqn:Hc1;
      simpl; [|done..].
    intros Hrun Hi Hfin Hdone.
    pose proof (process_item_le _ _ _ _ _ _ _ _ Hc1) as Hle1.
    pose proof (process_loop_le _ _ _ _ _ _ _ _ _ Hrun) as Hle2.
    apply (IH c1 (S k)); [done|by rewrite <- (proj1 Hle1)|done|].
    intros j it Hj Hit.
    destruct (decide (j = k)) as [->|Hne].
    + rewrite (chart_le_lookup_at c c1 i k item Hle1 E) in Hit.
      injection Hit as <-. by eapply process_item_processed.
    + assert (item_set_at c i !! j = Some it) as Hit0.
      { destruct (lookup_lt_is_Some_2 (item_set_at c i) j) as [it' Hit'].
        { apply lookup_lt_Some in E. lia. }
        rewrite (chart_le_lookup_at c c1 i j it' Hle1 Hit') in Hit.
        by injection Hit as <-. }
      eapply processed_mono; [done| |apply (Hdone j); [lia|done]].
      intros Hst. apply item_set_at_eq_lookup.
      assert (start it < i) as Hlt.
      { apply Hfin; [|done].
        eapply chart_le_elem; [by etrans|].
        by eapply list_elem_of_lookup_2. }
      eapply process_item_local; [done|lia..].
  - intros [= <-] Hi Hfin Hdone item [j Hj]%list_elem_of_lookup_1.
    apply (Hdone j); [|done].
    apply lookup_lt_Some in Hj. apply lookup_ge_None in E. lia.
Qed.

Lemma main_loop_processed fuel g t (w : list Symbol) words i (c : Chart) c' :
  main_loop fuel g t words i c = Ok c' →
  words = drop i w →
  length c = length w + 1 →
  (∀ p item, item ∈ item_set_at c' p →
     (next_symb item t).1 = Complete → start item < p) →
  (∀ p item, p < i → item ∈ item_set_at c p →
     processed g t c p (w !! p) item) →
  ∀ p item, p < length w → item ∈ item_set_at c' p →
    processed g t c' p (w !! p) item.
Proof.
  revert i c. induction words as [|word words IH]; intros i c; simpl.
  - intros [= <-] Hw Hlen HJ Hdone p item Hp. apply Hdone.
    assert (length (drop i w) = 0) as Hd by by rewrite <- Hw.
    rewrite length_drop in Hd. lia.
  - intros Hrun Hw Hlen HJ Hdone.
    assert (w !! i = Some word) as Hwi.
    { rewrite <- (Nat.add_0_r i), <- lookup_drop, <- Hw. done. }
    assert (words = drop (S i) w) as Hw'.
    { replace (S i) with (i + 1) by lia. by rewrite <- drop_drop, <- Hw. }
    pose proof (lookup_lt_Some _ _ _ Hwi) as Hi.
    destruct (lookup_lt_is_Some_2 c i) as [s Hs]; [lia|]. rewrite Hs in Hrun.
    rewrite result_bind_unfold in Hrun.
    destruct (process_loop fuel fuel g t word i c 0) as [c1| | |] eqn:Hc1;
      simpl in Hrun; [|done..].
    pose proof (process_loop_le _ _ _ _ _ _ _ _ _ Hc1) as Hle1.
    pose proof (main_loop_le _ _ _ _ _ _ _ Hrun) as Hle2.
    assert (∀ p item, item ∈ item_set_at c1 p →
              (next_symb item t).1 = Complete → start item < p) as HJ1.
    { intros p item Hit. apply HJ. by eapply chart_le_elem. }
    apply (IH (S i) c1); [done..|by rewrite <- (proj1 Hle1)|done|].
    intros p item Hp Hit.
    destruct (decide (p = i)) as [->|Hne].
    + rewrite Hwi.
      eapply process_loop_processed; [done|lia| |intros; lia|done].
      intros it. apply HJ1.
    + assert (c1 !! p = c !! p) as Hpp
        by (eapply process_loop_local; [done|lia..]).
      rewrite (item_set_at_eq_lookup _ _ _ Hpp) in Hit.
      eapply processed_mono; [done| |apply Hdone; [lia|done]].
      intros Hst. apply item_set_at_eq_lookup.
      assert (start item < p) as Hlt.
      { apply HJ1; [|done]. by rewrite (item_set_at_eq_lookup _ _ _ Hpp). }
      eapply process_loop_local; [done|lia..].
Qed.

(** An item that sits at its own origin has its dot at the start. *)
Lemma reachable_origins g t w rs (c : Chart) :
  rules g !! start_rule g = Some rs →
  (∀ r, r ∈ all_rules g → rhs r ≠ []) →
  rtc (chart_step g t w) (initial_chart rs w) c →
  ∀ p item, item ∈ item_set_at c p → start item < p ∨ dot item = 0.
Proof.
  intros Hrs Hne Hreach.
  cut (chart_inv g w c ∧
       ∀ p item, item ∈ item_set_at c p → start item < p ∨ dot item = 0);
    [by intros [_ ?]|].
  revert c Hreach. apply rtc_ind_r.
  - split; [by apply chart_inv_initial|].
    intros [|i] item Hit; [|by apply initial_chart_tail in Hit].
    unfold item_set_at, initial_chart in Hit. simpl in Hit.
    apply list_elem_of_fmap in Hit as (r & -> & _). by right.
  - intros c1 c2 _ Hstep [Hinv HJ].
    split; [by eapply chart_inv_step|].
    destruct Hstep as (loc & val & Hins & ->).
    destruct (insertion_ok g t w c1 loc val Hinv Hins) as [_ Hloc].
    intros p item. destruct (decide (p = loc)) as [->|Hp];
      [|rewrite item_set_at_append_at_ne by done; apply HJ].
    rewrite item_set_at_append_at_eq by done.
    intros [H| ->]%append_elem; [by apply HJ|].
    destruct Hins as
      [i it symb rs' r Hit Hn Hrs' Hr Hi
      |i it word Hit Hword Hn
      |i it old Hit Hn Hold Hm]; simpl.
    + by right.
    + destruct (inv_items _ _ _ Hinv _ _ Hit) as (? & _ & _). left. lia.
    + destruct (inv_items _ _ _ Hinv _ _ Hold) as (? & _ & _).
      destruct (inv_items _ _ _ Hinv _ _ Hit) as (_ & _ & Hr).
      apply next_symb_Complete in Hn.
      destruct (HJ _ _ Hit) as [Hlt|Hd0]; [left; lia|].
      exfalso. apply (Hne _ Hr).
      destruct (rhs (rule it)); [done | simpl in Hn; lia].
Qed.

Lemma reachable_finished_origin g t w rs (c : Chart) :
  rules g !! start_rule g = Some rs →
  (∀ r, r ∈ all_rules g → rhs r ≠ []) →
  rtc (chart_step g t w) (initial_chart rs w) c →
  ∀ p item, item ∈ item_set_at c p →
    (next_symb item t).1 = Complete → start item < p.
Proof.
  intros Hrs Hne Hreach p item Hit Hn.
  destruct (reachable_origins g t w rs c Hrs Hne Hreach p item Hit)
    as [?|Hd0]; [done|].
  pose proof (earley_reachable_inv g t w rs c Hrs Hreach) as Hinv.
  destruct (inv_items _ _ _ Hinv _ _ Hit) as (_ & _ & Hr).
  apply next_symb_Complete in Hn. exfalso. apply (Hne _ Hr).
  destruct (rhs (rule item)); [done | simpl in Hn; lia].
Qed.

(** The chart [earley] returns is closed: below the last position every
    item has been processed against its word, and at every position every
    finished item has been completed. *)
Lemma earley_closed fuel g t w (chart : Chart) :
  (∀ r, r ∈ all_rules g → rhs r ≠ []) →
  earley_fuel fuel g t w = Ok chart →
  ∃ rs, rules g !! start_rule g = Some rs ∧
    rtc (chart_step g t w) (initial_chart rs w) chart ∧
    (∀ p item, p < length w → item ∈ item_set_at chart p →
       processed g t chart p (w !! p) item) ∧
    (∀ p fin old, fin ∈ item_set_at chart p →
       (next_symb fin t).1 = Complete →
       old ∈ item_set_at chart (start fin) →
       (next_symb old t).2 = Some (lhs (rule fin)) →
       contains (item_set_at chart p) (advance old fin) = true).
Proof.
  intros Hne Hrun.
  pose proof (earley_outcome fuel g t w) as Hout. rewrite Hrun in Hout.
  destruct Hout as (rs & Hrs & Hreach).
  exists rs. split; [done|]. split; [done|].
  unfold earley_fuel in Hrun. rewrite Hrs, result_bind_unfold in Hrun.
  pose proof (main_loop_outcome g t w fuel w 0 _
                (chart_inv_initial g w rs Hrs) (λ j word H, H)) as Hm.
  destruct (main_loop fuel g t w 0 (initial_chart rs w)) as [mid| | |]
    eqn:Hmain; simpl in Hrun, Hm; [|done..].
  pose proof (earley_reachable_inv g t w rs mid Hrs Hm) as Hinv.
  pose proof (inv_length _ _ _ Hinv) as Hlen.
  pose proof (reachable_finished_origin g t w rs chart Hrs Hne Hreach) as HJ.
  pose proof (reachable_finished_origin g t w rs mid Hrs Hne Hm) as HJmid.
  assert (∀ p item, p < length w → item ∈ item_set_at mid p →
            processed g t mid p (w !! p) item) as Hmid.
  { eapply (main_loop_processed fuel g t w w 0 (initial_chart rs w) mid);
      [done|by rewrite drop_0| |done|intros; lia].
    simpl. rewrite length_replicate. lia. }
  unfold final_sweep in Hrun. destruct mid as [|s mid']; [done|].
  replace (length (s :: mid') - 1) with (length w) in Hrun by lia.
  apply sweep_loop_spec in Hrun as (Hle & Ha & Hb & Hc); [|lia].
  assert (∀ p item, p < length w → item ∈ item_set_at chart p →
            processed g t chart p (w !! p) item) as Hproc.
  { intros p item Hp Hit.
    rewrite (item_set_at_eq_lookup _ _ _ (Ha p ltac:(lia))) in Hit.
    eapply processed_mono; [done| |by apply Hmid].
    intros Hst. apply item_set_at_eq_lookup, Ha.
    specialize (HJmid p item Hit Hst). lia. }
  split; [done|].
  intros p fin old Hfin Hst Hold Hm'.
  pose proof (item_set_at_elem _ _ _ Hfin) as Hp.
  rewrite <- (proj1 Hle), Hlen in Hp.
  destruct (decide (p = length w)) as [->|Hne'].
  - apply list_elem_of_lookup_1 in Hfin as [k Hk].
    apply (Hc k fin old); [lia|done..| |done].
    rewrite <- (item_set_at_eq_lookup _ _ _ (Ha (start fin) ltac:(
      specialize (HJ (length w) fin (list_elem_of_lookup_2 _ _ _ Hk) Hst);
      lia))).
    done.
  - by apply (proj1 (Hproc p fin ltac:(lia) Hfin)).
Qed.

(** *** From the closed chart to the accepting item *)

Lemma next_symb_lookup item (t : gset string) x :
  rhs (rule item) !! dot item = Some x →
  next_symb item t =
    (if decide (x ∈ t) then Terminal else NonTerminal, Some x).
Proof.
  intros Hx. unfold next_symb.
  rewrite decide_True by by eapply lookup_lt_Some. by rewrite Hx.
Qed.

Lemma drop_cons_lookup {A} (l : list A) d x k :
  drop d l = x :: k → l !! d = Some x ∧ drop (d + 1) l = k.
Proof.
  intros H. split.
  - rewrite <- (Nat.add_0_r d), <- lookup_drop, H. done.
  - by rewrite <- drop_drop, H.
Qed.

Lemma all_rules_lookup g r :
  r ∈ all_rules g → ∃ s rs, rules g !! s = Some rs ∧ r ∈ rs.
Proof.
  unfold all_rules. intros (l & Hr & Hl)%list_elem_of_join.
  apply list_elem_of_fmap in Hl as ([s rs] & -> & Hs).
  apply elem_of_map_to_list in Hs. by exists s, rs.
Qed.

Lemma derives_nonempty g α u :
  (∀ r, r ∈ all_rules g → rhs r ≠ []) →
  derives g α u → α ≠ [] → u ≠ [].
Proof.
  intros Hne H. induction H as [|x α u _ _|r α u v Hr Hu IHu _ _];
    intros Hα; [done..|].
  intros [Hu0 _]%app_nil. by apply IHu; [apply Hne|].
Qed.

Section completeness.
Context (g : Grammar) (t : gset string) (w : list Symbol) (chart : Chart).
Hypothesis Hproper : proper_grammar g t.
Hypothesis Hinv : chart_inv g w chart.
Hypothesis Hproc : ∀ p item, p < length w → item ∈ item_set_at chart p →
  processed g t chart p (w !! p) item.
Hypothesis Hcomp : ∀ p fin old, fin ∈ item_set_at chart p →
  (next_symb fin t).1 = Complete →
  old ∈ item_set_at chart (start fin) →
  (next_symb old t).2 = Some (lhs (rule fin)) →
  contains (item_set_at chart p) (advance old fin) = true.

(** An entry equal to an item of known rule is that item but for its
    backpointers. *)
Lemma contains_item p val :
  rule val ∈ all_rules g →
  contains (item_set_at chart p) val = true →
  ∃ item, item ∈ item_set_at chart p ∧ rule item = rule val ∧
          start item = start val ∧ dot item = dot val.
Proof using Hproper Hinv.
  intros Hr (item & Hit & Hk)%contains_spec. exists item.
  unfold item_key in Hk. injection Hk as Hrid Hs Hd.
  split; [done|]. split; [|done].
  destruct (inv_items _ _ _ Hinv _ _ Hit) as (_ & _ & Hr').
  by apply (proper_identity g t Hproper).
Qed.

Lemma closed_chart_derives α u :
  derives g α u →
  ∀ i item γ rest,
    item ∈ item_set_at chart i →
    drop (dot item) (rhs (rule item)) = α ++ γ →
    drop i w = u ++ rest →
    Forall (λ x, x ∈ t) u →
    ∃ item', item' ∈ item_set_at chart (i + length u) ∧
             rule item' = rule item ∧ start item' = start item ∧
             dot item' = dot item + length α.
Proof using Hproper Hinv Hproc Hcomp.
  induction 1 as [|x α u Hd IH|r α u v Hr Hu IHu Hv IHv];
    intros i item γ rest Hit Hrhs Hw Ht.
  - exists item. simpl. rewrite !Nat.add_0_r. done.
  - simpl in Hrhs, Hw.
    apply drop_cons_lookup in Hrhs as [Hx Hrhs].
    apply drop_cons_lookup in Hw as [Hwi Hw].
    apply Forall_cons in Ht as [Hxt Ht].
    pose proof (lookup_lt_Some _ _ _ Hwi) as Hi.
    pose proof (next_symb_lookup item t x Hx) as Hn.
    rewrite decide_True in Hn by done.
    destruct (Hproc i item Hi Hit) as (_ & _ & Hscan).
    destruct (inv_items _ _ _ Hinv _ _ Hit) as (_ & _ & Hrule).
    destruct (contains_item (i + 1)
                (mkItem (rule item) (start item) (dot item + 1) (prev item))
                Hrule (Hscan x Hn Hwi))
      as (item1 & Hit1 & Hr1 & Hs1 & Hd1). simpl in Hr1, Hs1, Hd1.
    destruct (IH (i + 1) item1 γ rest Hit1) as (item' & Hit' & Hr' & Hs' & Hd');
      [by rewrite Hr1, Hd1|done..|].
    exists item'. simpl.
    replace (i + S (length u)) with (i + 1 + length u) by lia.
    split; [done|]. split; [congruence|]. split; [congruence|lia].
  - simpl in Hrhs. apply drop_cons_lookup in Hrhs as [Hx Hrhs].
    apply Forall_app in Ht as [Htu Htv].
    rewrite <- app_assoc in Hw.
    pose proof (proper_lhs g t Hproper r Hr) as Hlhs.
    pose proof (next_symb_lookup item t (lhs r) Hx) as Hn.
    rewrite decide_False in Hn by done.
    assert (u ≠ []) as Hune.
    { eapply derives_nonempty; [apply (proper_nonempty g t Hproper)|done|].
      by apply (proper_nonempty g t Hproper). }
    assert (i < length w) as Hi.
    { assert (length (drop i w) = length (u ++ v ++ rest)) as Hl
        by by rewrite Hw.
      rewrite length_drop, length_app in Hl.
      destruct u; [done|]. simpl in Hl. lia. }
    destruct (Hproc i item Hi Hit) as (_ & Hpred & _).
    destruct (all_rules_lookup g r Hr) as (s & rs & Hs & Hrs).
    pose proof (proper_keys g t Hproper s rs r Hs Hrs) as <-.
    destruct (contains_item i (mkItem r i 0 []) Hr
                (Hpred (lhs r) rs r Hn Hs Hrs))
      as (pitem & Hpit & Hpr & Hps & Hpd). simpl in Hpr, Hps, Hpd.
    destruct (IHu i pitem [] (v ++ rest) Hpit)
      as (fin & Hfin & Hfr & Hfs & Hfd);
      [by rewrite Hpr, Hpd, app_nil_r|done..|].
    rewrite Hpr in Hfr. rewrite Hps in Hfs. rewrite Hpd in Hfd.
    simpl in Hfd.
    assert ((next_symb fin t).1 = Complete) as Hfc.
    { apply next_symb_Complete. rewrite Hfr, Hfd. done. }
    destruct (inv_items _ _ _ Hinv _ _ Hit) as (_ & _ & Hrule).
    destruct (contains_item (i + length u) (advance item fin) Hrule)
      as (item2 & Hit2 & Hr2 & Hs2 & Hd2).
    { apply Hcomp; [done..|by rewrite Hfs|by rewrite Hn, Hfr]. }
    simpl in Hr2, Hs2, Hd2.
    destruct (IHv (i + length u) item2 γ rest Hit2)
      as (item' & Hit' & Hr' & Hs' & Hd');
      [by rewrite Hr2, Hd2| |done|].
    { rewrite <- drop_drop, Hw. by rewrite drop_app_length. }
    exists item'. rewrite length_app. simpl.
    replace (i + (length u + length v)) with (i + length u + length v)
      by lia.
    split; [done|]. split; [congruence|]. split; [congruence|lia].
Qed.
End completeness.

Lemma final_position_last (c : Chart) n :
  length c = n + 1 → final_position c = item_set_at c n.
Proof.
  intros Hlen. unfold final_position, item_set_at.
  rewrite last_lookup. by replace (pred (length c)) with n by lia.
Qed.

Lemma derives_nil_inv g u : derives g [] u → u = [].
Proof. by inversion 1. Qed.

Lemma earley_complete_core fuel g t w chart :
  proper_grammar g t →
  Forall (λ x, x ∈ t) w →
  derives g [start_rule g] w →
  earley_fuel fuel g t w = Ok chart →
  is_Some (acceptance chart w (start_rule g)).
Proof.
  intros Hproper Hw Hd Hrun.
  destruct (earley_closed fuel g t w chart (proper_nonempty g t Hproper) Hrun)
    as (rs & Hrs & Hreach & Hproc & Hcomp).
  pose proof (earley_reachable_inv g t w rs chart Hrs Hreach) as Hinv.
  pose proof (inv_length _ _ _ Hinv) as Hlen.
  inversion Hd as [|x α u Hd' Hx Hu|r α u v Hr Hu Hv Hlhs Huv]; subst.
  - apply derives_nil_inv in Hd' as ->.
    apply Forall_cons in Hw as [Hstart _].
    by destruct (proper_start g t Hproper).
  - apply derives_nil_inv in Hv as ->. rewrite app_nil_r in *.
    destruct (all_rules_lookup g r Hr) as (s & rs' & Hs & Hrs').
    pose proof (proper_keys g t Hproper s rs' r Hs Hrs') as Hkey.
    assert (rs' = rs) as -> by congruence.
    assert (mkItem r 0 0 [] ∈ item_set_at chart 0) as Hinit.
    { eapply chart_le_elem; [by eapply rtc_chart_le|].
      unfold item_set_at, initial_chart. simpl.
      by apply (list_elem_of_fmap_2 (λ r, mkItem r 0 0 [])). }
    destruct (closed_chart_derives g t u chart Hproper Hinv Hproc Hcomp
                (rhs r) u Hu 0 (mkItem r 0 0 []) [] [] Hinit)
      as (item & Hit & Hir & His & Hid);
      [by rewrite app_nil_r|by rewrite app_nil_r|done|].
    simpl in Hit, Hir, His, Hid.
    unfold acceptance. rewrite decide_False by (intros ?; lia).
    apply find_is_Some. exists item.
    rewrite (final_position_last _ (length u)) by done.
    split; [done|]. apply accepting_spec. by rewrite Hir.
Qed.

(** Completeness.  On a proper grammar, when every word of the sentence is
    a terminal and the start symbol derives the sentence, the chart
    [earley] returns (if no undefined symbol made it raise [KeyError])
    holds an accepting item, so the script prints a derivation. *)
Theorem earley_complete fuel g t w chart :
  proper_grammar g t →
  Forall (λ x, x ∈ t) w →
  derives g [start_rule g] w →
  earley_fuel fuel g t w = Ok chart →
  ∃ item, acceptance chart w (start_rule g) = Some item ∧
          parse fuel g t w = Ok (Some (reverse (to_lr item))).
Proof.
  intros Hproper Hw Hd Hrun.
  destruct (earley_complete_core fuel g t w chart Hproper Hw Hd Hrun)
    as [item Hitem].
  exists item. split; [done|].
  unfold parse. rewrite Hrun, result_bind_unfold. simpl. by rewrite Hitem.
Qed.

(** What [Grammar.__init__] builds is a proper grammar when the declared
    rules are different objects, none is empty and none has a terminal on
    its left, and the start symbol is not a terminal. *)
Lemma grammar_init_proper rs start (t : gset string) :
  NoDup (rid <$> rs) →
  Forall (λ r, rhs r ≠ []) rs →
  Forall (λ r, lhs r ∉ t) rs →
  start ∉ t →
  proper_grammar (mkGrammar (foldl add_rule ∅ rs) start) t.
Proof.
  intros Hid Hne Hlhs Hstart. split; simpl.
  - intros s l r Hs Hr. rewrite grammar_lookup in Hs.
    assert (l = filter (λ r, lhs r = s) rs) as ->
      by by destruct (filter _ rs); simplify_eq.
    by apply list_elem_of_filter in Hr as [? _].
  - intros r r' Hr%grammar_all_rules Hr'%grammar_all_rules Heq.
    apply list_elem_of_lookup_1 in Hr as [i Hi].
    apply list_elem_of_lookup_1 in Hr' as [j Hj].
    assert (i = j) as ->; [|congruence].
    eapply NoDup_lookup; [done| |].
    + by rewrite list_lookup_fmap, Hi.
    + by rewrite list_lookup_fmap, Hj, Heq.
  - intros r Hr%grammar_all_rules.
    by apply (proj1 (Forall_forall _ _) Hne).
  - intros r Hr%grammar_all_rules.
    by apply (proj1 (Forall_forall _ _) Hlhs).
  - done.
Qed.

Lemma script_grammar_proper : proper_grammar script_grammar script_terminals.
Proof.
  apply grammar_init_proper.
  - apply (bool_decide_unpack _). by vm_compute.
  - apply (bool_decide_unpack _). by vm_compute.
  - apply (bool_decide_unpack _). by vm_compute.
  - apply (bool_decide_unpack _). by vm_compute.
Qed.

Lemma grammar_all_rules_declared rs start r :
  r ∈ rs → r ∈ all_rules (mkGrammar (foldl add_rule ∅ rs) start).
Proof.
  intros Hr.
  assert (r ∈ filter (λ r', lhs r' = lhs r) rs) as Hf
    by by apply list_elem_of_filter.
  eapply (elem_of_all_rules _ (lhs r)); [|done]. simpl.
  rewrite grammar_lookup.
  destruct (filter _ rs); [by apply elem_of_nil in Hf | done].
Qed.

Lemma earley_complete_witness :
  ∃ item, parse 300 script_grammar script_terminals ["2"]%string
          = Ok (Some (reverse (to_lr item))).
Proof.
  assert (∃ chart, earley_fuel 300 script_grammar script_terminals
                     ["2"]%string = Ok chart) as [chart Hrun]
    by (eexists; vm_compute; reflexivity).
  assert (Forall (λ x, x ∈ script_terminals) ["2"]%string) as Hw
    by (apply (bool_decide_unpack _); by vm_compute).
  assert (derives script_grammar [start_rule script_grammar] ["2"]%string)
    as Hd.
  { apply (derives_symbol script_grammar
             (mkRule 5 "expr" ["term"]%string)).
    { apply grammar_all_rules_declared. unfold script_rules.
      do 5 right. left. }
    apply (derives_symbol script_grammar (mkRule 8 "term" ["2"]%string)).
    { apply grammar_all_rules_declared. unfold script_rules.
      do 8 right. left. }
    repeat constructor. }
  destruct (earley_complete 300 script_grammar script_terminals
              ["2"]%string chart script_grammar_proper Hw Hd Hrun)
    as (item & _ & Hparse).
  exists item. exact Hparse.
Defined.

(** With an empty rule the recognizer is not complete: [S -> a A] and
    [A -> ] derive "a", but nothing is predicted at the last position, so
    the empty rule never enters the chart and "a" is rejected. *)
Example empty_rule_rejected :
  derives trailing_empty_grammar ["S"%string] ["a"%string] ∧
  parse 20 trailing_empty_grammar nullable_terminals ["a"%string] = Ok None.
Proof.
  split; [|vm_compute; reflexivity].
  apply (derives_symbol trailing_empty_grammar
           (mkRule 0 "S" ["a"; "A"]%string)).
  { apply grammar_all_rules_declared. left. }
  apply derives_word.
  apply (derives_rule trailing_empty_grammar (mkRule 1 "A" []) [] [] []).
  - apply grammar_all_rules_declared. right. left.
  - constructor.
  - constructor.
Qed.

(** ** The language the script accepts *)

Lemma closed_earley_fuel fuel g t w :
  closed_grammar g t → enough_fuel g w < fuel →
  ∃ chart, earley_fuel fuel g t w = Ok chart.
Proof.
  intros [[rs Hrs] Hclosed] Hfuel.
  pose proof (earley_outcome fuel g t w) as H.
  destruct (earley_fuel fuel g t w) as [c|k| |]; simpl in H;
    [by eexists| |done|lia].
  destruct H as [[_ Hn]|(s & r & _ & Hn & Ht & Hr & Hs)]; [congruence|].
  destruct (Hclosed r s Hr Hs Ht) as [? ?]. congruence.
Qed.

(** On a proper and closed grammar [earley] returns a chart, and the
    acceptance check of the script (lines 172-184) finds an accepting item
    in it exactly for the sentences made of terminals that the start
    symbol derives; for every other sentence, and for no other, the script
    prints "Incorrect sentence.". *)
Theorem script_language g t w :
  proper_grammar g t →
  closed_grammar g t →
  ∃ chart, earley g t w = Ok chart ∧
    (is_Some (acceptance chart w (start_rule g)) ↔
       derives g [start_rule g] w ∧ Forall (λ x, x ∈ t) w) ∧
    (parse (S (enough_fuel g w)) g t w = Ok None ↔
       ¬ (derives g [start_rule g] w ∧ Forall (λ x, x ∈ t) w)).
Proof.
  intros Hproper Hclosed.
  destruct (closed_earley_fuel (S (enough_fuel g w)) g t w Hclosed)
    as [chart Hrun]; [lia|].
  pose proof (earley_outcome (S (enough_fuel g w)) g t w) as Hout.
  rewrite Hrun in Hout. destruct Hout as (rs & Hrs & Hreach).
  pose proof (earley_reachable_inv g t w rs chart Hrs Hreach) as Hinv.
  pose proof (inv_length _ _ _ Hinv) as Hlen.
  assert (is_Some (acceptance chart w (start_rule g)) ↔
          derives g [start_rule g] w ∧ Forall (λ x, x ∈ t) w) as Hiff.
  { split.
    - intros [item Hacc]. unfold acceptance in Hacc.
      case_decide; [done|].
      apply find_Some_elem in Hacc as [Hit Hgood].
      apply accepting_spec in Hgood as (Hdot & Hstart & Hlhs).
      rewrite (final_position_last _ (length w)) in Hit by done.
      destruct (inv_items _ _ _ Hinv _ _ Hit) as (_ & _ & Hr).
      split.
      + pose proof (reachable_derives g t w rs chart Hrs Hreach _ _ Hit)
          as Hd.
        rewrite Hdot, firstn_all, Hstart, words_between_all in Hd.
        rewrite <- Hlhs. by apply derives_symbol.
      + pose proof (reachable_built g t w (proper_lhs g t Hproper)
                      rs chart Hrs Hreach _ _ Hit) as Hb.
        rewrite Hstart, words_between_all in Hb.
        by eapply built_terminals.
    - intros [Hd Hw]. by eapply earley_complete_core. }
  exists chart. split; [done|]. split; [done|].
  unfold parse. rewrite Hrun, result_bind_unfold. simpl.
  destruct (acceptance chart w (start_rule g)) as [item|] eqn:Hacc.
  - split; [done|]. intros Hn. exfalso. apply Hn, Hiff. by eexists.
  - split; [|done]. intros _ H. apply Hiff in H as [? ?]. done.
Qed.

Lemma grammar_init_closed rs start (t : gset string) :
  is_Some (foldl add_rule ∅ rs !! start) →
  Forall (λ r, Forall (λ s, s ∈ t ∨ is_Some (foldl add_rule ∅ rs !! s))
                 (rhs r)) rs →
  closed_grammar (mkGrammar (foldl add_rule ∅ rs) start) t.
Proof.
  intros Hstart Hall. split; [done|]. simpl.
  intros r s Hr%grammar_all_rules Hs Ht.
  pose proof (proj1 (Forall_forall _ _) Hall r Hr) as Hrhs.
  by destruct (proj1 (Forall_forall _ _) Hrhs s Hs).
Qed.

Lemma script_grammar_closed : closed_grammar script_grammar script_terminals.
Proof.
  apply grammar_init_closed.
  - apply (bool_decide_unpack _). by vm_compute.
  - apply (bool_decide_unpack _). by vm_compute.
Qed.

Lemma script_language_witness :
  ∃ chart,
    earley script_grammar script_terminals ["9"; "9"]%string = Ok chart ∧
    (is_Some (acceptance chart ["9"; "9"]%string
                (start_rule script_grammar)) ↔
       derives script_grammar [start_rule script_grammar]
         ["9"; "9"]%string ∧
       Forall (λ x, x ∈ script_terminals) ["9"; "9"]%string) ∧
    (parse (S (enough_fuel script_grammar ["9"; "9"]%string))
       script_grammar script_terminals ["9"; "9"]%string = Ok None ↔
     ¬ (derives script_grammar [start_rule script_grammar]
          ["9"; "9"]%string ∧
        Forall (λ x, x ∈ script_terminals) ["9"; "9"]%string)).
Proof.
  exact (script_language script_grammar script_terminals
           ["9"; "9"]%string script_grammar_proper script_grammar_closed).
Defined.

(** ** What [Grammar.__init__] builds *)

(** [Grammar.__init__] returns, whatever the rules, a grammar that holds
    exactly the declared rules, each filed under its own left-hand symbol
    and, under one symbol, in the order of declaration.  That grammar is a
    proper grammar when the declared rules are different objects, none is
    empty, none has a terminal on its left, and the start symbol is not a
    terminal. *)
Theorem constructor_builds_proper rs start (t : gset string) :
  ∃ g, Grammar_init rs start = Ok g ∧
    start_rule g = start ∧
    (∀ r, r ∈ all_rules g ↔ r ∈ rs) ∧
    (∀ s l r, rules g !! s = Some l → r ∈ l → lhs r = s) ∧
    (∀ s l, rules g !! s = Some l → l = filter (λ r, lhs r = s) rs) ∧
    (NoDup (rid <$> rs) →
     Forall (λ r, rhs r ≠ []) rs →
     Forall (λ r, lhs r ∉ t) rs →
     start ∉ t →
     proper_grammar g t).
Proof.
  eexists. split; [done|]. simpl. split; [done|].
  assert (∀ s l, foldl add_rule ∅ rs !! s = Some l →
                 l = filter (λ r, lhs r = s) rs) as Hfile.
  { intros s l Hs. rewrite grammar_lookup in Hs.
    by destruct (filter _ rs); simplify_eq. }
  split; [|split; [|split]].
  - intros r.
    split; [apply grammar_all_rules|apply grammar_all_rules_declared].
  - intros s l r Hs%Hfile Hr. subst l.
    by apply list_elem_of_filter in Hr as [? _].
  - done.
  - apply grammar_init_proper.
Qed.

Lemma constructor_builds_proper_witness :
  ∃ g, Grammar_init script_rules "expr"%string = Ok g ∧
       proper_grammar g script_terminals.
Proof.
  assert (NoDup (rid <$> script_rules)) as H1
    by (apply (bool_decide_unpack _); by vm_compute).
  assert (Forall (λ r, rhs r ≠ []) script_rules) as H2
    by (apply (bool_decide_unpack _); by vm_compute).
  assert (Forall (λ r, lhs r ∉ script_terminals) script_rules) as H3
    by (apply (bool_decide_unpack _); by vm_compute).
  assert ("expr"%string ∉ script_terminals) as H4
    by (apply (bool_decide_unpack _); by vm_compute).
  destruct (constructor_builds_proper script_rules "expr"%string
              script_terminals) as (g & Hg & _ & _ & _ & _ & Hproper).
  exists g. split; [exact Hg | exact (Hproper H1 H2 H3 H4)].
Defined.

(** ** Backpointers *)

Lemma built_backpointers g t item u :
  built g t item u →
  Forall2 (λ p X, lhs (rule p) = X ∧ dot p = length (rhs (rule p)))
    (prev item)
    (filter (λ X, X ∉ t) (take (dot item) (rhs (rule item)))).
Proof.
  induction 1 as
    [r s Hr
    |item x u Hb IH Hx Ht
    |old fin u v Hbo IHo Hbf IHf Hdot Hx Ht]; simpl.
  - constructor.
  - replace (dot item + 1) with (S (dot item)) by lia.
    rewrite (take_S_r _ _ _ Hx), filter_app.
    rewrite filter_cons_False by (intros Hn; by apply Hn).
    rewrite filter_nil, app_nil_r. done.
  - replace (dot old + 1) with (S (dot old)) by lia.
    rewrite (take_S_r _ _ _ Hx), filter_app.
    rewrite filter_cons_True by done. rewrite filter_nil.
    apply Forall2_app; [done|]. by repeat constructor.
Qed.

(** When no rule has a terminal on its left, the backpointers of every
    item of the chart match, in order, the non-terminals before its dot:
    each is a finished item whose rule has that symbol on the left. *)
Theorem backpointers_match fuel g t w chart :
  (∀ r, r ∈ all_rules g → lhs r ∉ t) →
  earley_fuel fuel g t w = Ok chart →
  ∀ i item, item ∈ item_set_at chart i →
    Forall2 (λ p X, lhs (rule p) = X ∧ dot p = length (rhs (rule p)))
      (prev item)
      (filter (λ X, X ∉ t) (take (dot item) (rhs (rule item)))).
Proof.
  intros Hlhs Hrun i item Hit.
  pose proof (earley_outcome fuel g t w) as Hout. rewrite Hrun in Hout.
  destruct Hout as (rs & Hrs & Hreach).
  eapply built_backpointers.
  by eapply (reachable_built g t w Hlhs rs chart).
Qed.

Lemma backpointers_match_witness :
  ∃ chart,
    earley_fuel 300 script_grammar script_terminals ["2"]%string = Ok chart ∧
    ∀ i item, item ∈ item_set_at chart i →
      Forall2 (λ p X, lhs (rule p) = X ∧ dot p = length (rhs (rule p)))
        (prev item)
        (filter (λ X, X ∉ script_terminals)
           (take (dot item) (rhs (rule item)))).
Proof.
  assert (∃ chart, earley_fuel 300 script_grammar script_terminals
                     ["2"]%string = Ok chart) as [chart Hrun]
    by (eexists; vm_compute; reflexivity).
  exists chart. split; [exact Hrun|].
  exact (backpointers_match 300 script_grammar script_terminals
           ["2"]%string chart script_lhs_not_terminal Hrun).
Defined.

(** ** Words that are not terminals *)

Lemma reachable_words_terminals g t w rs (c : Chart) :
  rules g !! start_rule g = Some rs →
  rtc (chart_step g t w) (initial_chart rs w) c →
  ∀ i item, item ∈ item_set_at c i →
    Forall (λ x, x ∈ t) (words_between w (start item) i).
Proof.
  intros Hrs Hreach.
  cut (chart_inv g w c ∧
       ∀ i item, item ∈ item_set_at c i →
         Forall (λ x, x ∈ t) (words_between w (start item) i));
    [by intros [_ ?]|].
  revert c Hreach. apply rtc_ind_r.
  - split; [by apply chart_inv_initial|].
    intros [|i] item Hit; [|by apply initial_chart_tail in Hit].
    unfold item_set_at, initial_chart in Hit. simpl in Hit.
    apply list_elem_of_fmap in Hit as (r & -> & _). simpl.
    rewrite words_between_nil. constructor.
  - intros c1 c2 _ Hstep [Hinv Hall].
    split; [by eapply chart_inv_step|].
    destruct Hstep as (loc & val & Hins & ->).
    destruct (insertion_ok g t w c1 loc val Hinv Hins) as [_ Hloc].
    intros i item. destruct (decide (i = loc)) as [->|Hne];
      [|rewrite item_set_at_append_at_ne by done; apply Hall].
    rewrite item_set_at_append_at_eq by done.
    intros [H| ->]%append_elem; [by apply Hall|].
    destruct Hins as
      [i it symb rs' r Hit Hn Hrs' Hr Hi
      |i it word Hit Hword Hn
      |i it old Hit Hn Hold Hm]; simpl.
    + rewrite words_between_nil. constructor.
    + destruct (inv_items _ _ _ Hinv _ _ Hit) as (Hs & _ & _).
      destruct (next_symb_Terminal_word it t word Hn) as [_ Ht].
      rewrite <- (words_between_app w (start it) i (i + 1)) by lia.
      rewrite (words_between_word _ _ _ Hword).
      apply Forall_app. split; [by apply Hall|]. by repeat constructor.
    + destruct (inv_items _ _ _ Hinv _ _ Hit) as (Hs & _ & _).
      destruct (inv_items _ _ _ Hinv _ _ Hold) as (Hs' & _ & _).
      rewrite <- (words_between_app w (start old) (start it) i) by lia.
      apply Forall_app. split; by apply Hall.
Qed.

(** Whatever the grammar, a sentence the script accepts consists of
    terminals only: a word that is not in the terminal set is never
    scanned, so a sentence that has one is rejected (or the parse raises
    [KeyError]). *)
Theorem accepted_words_terminals fuel g t w out :
  parse fuel g t w = Ok (Some out) → Forall (λ x, x ∈ t) w.
Proof.
  unfold parse. rewrite result_bind_unfold.
  pose proof (earley_outcome fuel g t w) as H.
  destruct (earley_fuel fuel g t w) as [c|k| |] eqn:Hrun; [|done..].
  simpl in H |- *. destruct H as (rs & Hrs & Hreach).
  destruct (acceptance c w (start_rule g)) as [item|] eqn:Hacc; [|done].
  intros _.
  pose proof (earley_reachable_inv g t w rs c Hrs Hreach) as Hinv.
  unfold acceptance in Hacc. case_decide as Hlen; [done|].
  apply find_Some_elem in Hacc as [Hit Hgood].
  apply accepting_spec in Hgood as (_ & Hstart & _).
  rewrite (final_position_last _ (length w)) in Hit by lia.
  pose proof (reachable_words_terminals g t w rs c Hrs Hreach _ _ Hit) as Hw.
  by rewrite Hstart, words_between_all in Hw.
Qed.

Lemma accepted_words_terminals_witness :
  Forall (λ x, x ∈ script_terminals) ["2"; "+"; "3"; "*"; "4"]%string.
Proof.
  assert (parse 300 script_grammar script_terminals
            ["2"; "+"; "3"; "*"; "4"]%string
          = Ok (Some printed_2_plus_3_times_4)) as Hrun
    by (vm_compute; reflexivity).
  exact (accepted_words_terminals 300 script_grammar script_terminals
           ["2"; "+"; "3"; "*"; "4"]%string printed_2_plus_3_times_4 Hrun).
Defined.

(** ** The empty sentence *)

Lemma empty_sentence_items g t rs (c : Chart) :
  rtc (chart_step g t []) (initial_chart rs []) c →
  length c = 1 ∧
  ∀ i item, item ∈ item_set_at c i →
    rule item ∈ rs ∧ (dot item = 0 ∨ ∃ r, r ∈ rs ∧ rhs r = []).
Proof.
  revert c. apply rtc_ind_r.
  - split; [done|].
    intros [|i] item Hit; [|by apply initial_chart_tail in Hit].
    unfold item_set_at, initial_chart in Hit. simpl in Hit.
    apply list_elem_of_fmap in Hit as (r & -> & Hr). simpl. by split; [|left].
  - intros c1 c2 _ Hstep [Hlen Hall].
    destruct Hstep as (loc & val & Hins & ->).
    split; [by rewrite length_append_at|].
    intros i item.
    destruct (decide (loc < length c1)) as [Hloc|Hloc];
      [|rewrite append_at_ge by lia; apply Hall].
    destruct (decide (i = loc)) as [->|Hne];
      [|rewrite item_set_at_append_at_ne by done; apply Hall].
    rewrite item_set_at_append_at_eq by done.
    intros [H| ->]%append_elem; [by eapply Hall|].
    destruct Hins as
      [i it symb rs' r Hit Hn Hrs' Hr Hi
      |i it word Hit Hword Hn
      |i it old Hit Hn Hold Hm]; simpl.
    + simpl in Hi. lia.
    + done.
    + destruct (Hall _ _ Hold) as [Hro _].
      destruct (Hall _ _ Hit) as [Hri [Hd0|He]]; [|by split; [|right]].
      split; [done|]. right. exists (rule it). split; [done|].
      apply next_symb_Complete in Hn.
      destruct (rhs (rule it)); [done | simpl in Hn; lia].
Qed.

(** The empty sentence.  The main loop does not run and nothing is ever
    predicted, so the script never raises and accepts the empty sentence
    only if the start symbol itself has an empty rule; it does accept it
    when such a rule has the start symbol on its left.  An empty
    derivation through another non-terminal is not found. *)
Theorem empty_sentence fuel g t rs :
  rules g !! start_rule g = Some rs →
  enough_fuel g [] < fuel →
  (∃ o, parse fuel g t [] = Ok o) ∧
  ((∃ r, r ∈ rs ∧ rhs r = [] ∧ lhs r = start_rule g) →
     ∃ out, parse fuel g t [] = Ok (Some out)) ∧
  ((∃ out, parse fuel g t [] = Ok (Some out)) →
     ∃ r, r ∈ rs ∧ rhs r = []).
Proof.
  intros Hrs Hfuel.
  pose proof (earley_outcome fuel g t []) as Hout.
  assert (∃ chart, earley_fuel fuel g t [] = Ok chart) as [chart Hrun].
  { unfold earley_fuel in *. rewrite Hrs in *. simpl in *.
    unfold final_sweep in *. simpl in *.
    destruct (sweep_loop fuel fuel t 0 _ 0) as [c|k| |] eqn:E;
      simpl in Hout; [by eexists| |done|lia].
    by apply sweep_loop_no_KeyError in E. }
  rewrite Hrun in Hout. destruct Hout as (rs' & Hrs' & Hreach).
  assert (rs' = rs) as -> by congruence.
  destruct (empty_sentence_items g t rs chart Hreach) as [Hlen Hitems].
  unfold parse. rewrite Hrun, result_bind_unfold. simpl.
  split; [by eexists|]. split.
  - intros (r & Hr & Hrhs & Hlhs).
    assert (is_Some (acceptance chart [] (start_rule g))) as [item Hitem].
    { unfold acceptance. rewrite decide_False by (simpl; lia).
      apply find_is_Some. exists (mkItem r 0 0 []).
      rewrite (final_position_last _ 0) by done. split.
      - eapply chart_le_elem; [by eapply rtc_chart_le|].
        unfold item_set_at, initial_chart. simpl.
        by apply (list_elem_of_fmap_2 (λ r, mkItem r 0 0 [])).
      - apply accepting_spec. simpl. by rewrite Hrhs. }
    rewrite Hitem. by eexists.
  - intros [out Hparse].
    destruct (acceptance chart [] (start_rule g)) as [item|] eqn:Hacc;
      [|done].
    unfold acceptance in Hacc. case_decide; [done|].
    apply find_Some_elem in Hacc as [Hit Hgood].
    apply accepting_spec in Hgood as (Hdot & _ & _).
    rewrite (final_position_last _ 0) in Hit by done.
    destruct (Hitems _ _ Hit) as [Hr [Hd0|He]]; [|done].
    exists (rule item). split; [done|].
    rewrite Hd0 in Hdot. by destruct (rhs (rule item)).
Qed.

Lemma empty_sentence_witness :
  ∃ out, parse 10 nullable_grammar nullable_terminals [] = Ok (Some out).
Proof.
  assert (rules nullable_grammar !! start_rule nullable_grammar
          = Some nullable_rules) as Hrs by (vm_compute; reflexivity).
  assert (enough_fuel nullable_grammar [] < 10) as Hfuel
    by (vm_compute; lia).
  apply (proj1 (proj2 (empty_sentence 10 nullable_grammar nullable_terminals
                         nullable_rules Hrs Hfuel))).
  exists (mkRule 0 "S"%string []). split; [left|]. split; reflexivity.
Defined.

(** An empty derivation that goes through another non-terminal is missed:
    [S -> A] and [A -> ] derive the empty sentence, which is rejected. *)
Example empty_sentence_missed :
  derives (mkGrammar (foldl add_rule ∅
             [mkRule 0 "S" ["A"]; mkRule 1 "A" []]%string) "S"%string)
    ["S"%string] [] ∧
  parse 10 (mkGrammar (foldl add_rule ∅
              [mkRule 0 "S" ["A"]; mkRule 1 "A" []]%string) "S"%string)
    nullable_terminals [] = Ok None.
Proof.
  split; [|vm_compute; reflexivity].
  apply (derives_symbol _ (mkRule 0 "S" ["A"]%string)).
  { apply grammar_all_rules_declared. left. }
  apply (derives_rule _ (mkRule 1 "A"%string []) [] [] []).
  - apply grammar_all_rules_declared. right. left.
  - constructor.
  - constructor.
Qed.

(** ** Dead ends *)

Lemma reachable_no_gap g t w rs (c : Chart) :
  rtc (chart_step g t w) (initial_chart rs w) c →
  ∀ p, item_set_at c p = [] → item_set_at c (p + 1) = [].
Proof.
  revert c.
  apply (rtc_ind_r (λ c : list (list EarleyItem),
           ∀ p, item_set_at c p = [] → item_set_at c (p + 1) = [])).
  - intros p _.
    destruct (item_set_at (initial_chart rs w) (p + 1)) as [|x l] eqn:E;
      [done|].
    exfalso. apply (initial_chart_tail rs w p x).
    replace (S p) with (p + 1) by lia. rewrite E. by left.
  - intros c1 c2 _ (loc & val & Hins & ->) IH p Hp.
    assert (item_set_at c1 p = []) as Hp1.
    { pose proof (item_set_at_append_at_prefix c1 loc val p) as Hpre.
      rewrite Hp in Hpre. by apply prefix_nil_inv in Hpre. }
    destruct (decide (loc < length c1)) as [Hloc|Hloc];
      [|rewrite append_at_ge by lia; by apply IH].
    destruct (decide (p + 1 = loc)) as [<-|Hne];
      [|rewrite item_set_at_append_at_ne by done; by apply IH].
    exfalso.
    assert (∃ it, it ∈ item_set_at c1 p ∨ it ∈ item_set_at c1 (p + 1))
      as [it Hit].
    { inversion Hins as
        [i it symb rs' r Hit Hn Hrs' Hr Hi Heq
        |i it word Hit Hword Hn Heq
        |i it old Hit Hn Hold Hm Heq];
        exists it; first [by right | left; by replace p with i by lia]. }
    rewrite Hp1, (IH p Hp1) in Hit.
    destruct Hit as [Hit|Hit]; by apply elem_of_nil in Hit.
Qed.

(** Dead end.  When a position of the returned chart is empty (no item
    expected the word before it), every later position is empty too and
    the sentence is rejected. *)
Theorem dead_end_rejected fuel g t w chart p :
  earley_fuel fuel g t w = Ok chart →
  p ≤ length w →
  item_set_at chart p = [] →
  (∀ q, p ≤ q → item_set_at chart q = []) ∧
  parse fuel g t w = Ok None.
Proof.
  intros Hrun Hp Hempty.
  pose proof (earley_outcome fuel g t w) as Hout. rewrite Hrun in Hout.
  destruct Hout as (rs & Hrs & Hreach).
  pose proof (reachable_no_gap g t w rs chart Hreach) as Hgap.
  assert (∀ q, p ≤ q → item_set_at chart q = []) as Hall.
  { intros q Hq. induction Hq as [|q Hq IH]; [done|].
    replace (S q) with (q + 1) by lia. by apply Hgap. }
  split; [done|].
  unfold parse. rewrite Hrun, result_bind_unfold. simpl.
  destruct (acceptance chart w (start_rule g)) as [item|] eqn:Hacc; [|done].
  unfold acceptance in Hacc. case_decide as Hlen; [done|].
  apply find_Some_elem in Hacc as [Hit _].
  rewrite (final_position_last _ (length w)) in Hit by lia.
  rewrite (Hall (length w) Hp) in Hit. by apply elem_of_nil in Hit.
Qed.

Lemma dead_end_rejected_witness :
  parse 300 script_grammar script_terminals ["9"; "9"]%string = Ok None.
Proof.
  assert (∃ chart,
            earley_fuel 300 script_grammar script_terminals
              ["9"; "9"]%string = Ok chart ∧
            item_set_at chart 2 = []) as (chart & Hrun & Hempty)
    by (eexists; split; vm_compute; reflexivity).
  assert (2 ≤ length ["9"; "9"]%string) as Hp by (simpl; lia).
  exact (proj2 (dead_end_rejected 300 script_grammar script_terminals
                  ["9"; "9"]%string chart 2 Hrun Hp Hempty)).
Defined.

(** * Two runs give the same output; how ties are broken *)

(** ** Relabelling the rule objects *)

Lemma EarleyItem_nested_ind (P : EarleyItem → Prop) :
  (∀ r s d p, Forall P p → P (mkItem r s d p)) → ∀ item, P item.
Proof.
  intros H. fix IH 1. intros [r s d p]. apply H.
  induction p as [|x p IHp]; constructor; [apply IH | apply IHp].
Qed.

Section relabel.
Context (f : nat → nat) (Hinj : Inj (=) (=) f).
Local Set Default Proof Using "Type*".

Lemma relabel_item_fields item :
  rule (relabel_item f item) = relabel_rule f (rule item) ∧
  start (relabel_item f item) = start item ∧
  dot (relabel_item f item) = dot item ∧
  prev (relabel_item f item) = relabel_item f <$> prev item.
Proof. by destruct item. Qed.

Lemma item_eqb_relabel a b :
  item_eqb (relabel_item f a) (relabel_item f b) = item_eqb a b.
Proof.
  apply eq_true_iff_eq. rewrite !item_eqb_key.
  destruct a as [ra sa da pa], b as [rb sb db pb]. unfold item_key. simpl.
  split.
  - intros [= H -> ->]. by apply (inj f) in H as ->.
  - by intros [= -> -> ->].
Qed.

Lemma contains_relabel s val :
  contains (relabel_item f <$> s) (relabel_item f val) = contains s val.
Proof.
  unfold contains. induction s as [|x s IH]; [done|].
  rewrite fmap_cons. cbn [existsb]. by rewrite item_eqb_relabel, IH.
Qed.

Lemma append_relabel s val :
  (append (relabel_item f <$> s) (relabel_item f val)).1 =
  relabel_item f <$> (append s val).1.
Proof.
  unfold append. simpl. rewrite contains_relabel.
  destruct (contains s val); [done|]. by rewrite fmap_app.
Qed.

Lemma item_set_at_relabel (c : Chart) p :
  item_set_at (relabel_chart f c) p = relabel_item f <$> item_set_at c p.
Proof.
  unfold item_set_at, relabel_chart. rewrite list_lookup_fmap.
  by destruct (c !! p).
Qed.

Lemma append_at_relabel (c : Chart) loc val :
  append_at (relabel_chart f c) loc (relabel_item f val) =
  relabel_chart f (append_at c loc val).
Proof.
  unfold append_at. rewrite item_set_at_relabel, append_relabel.
  unfold relabel_chart. by rewrite list_fmap_insert.
Qed.

Lemma extend_at_relabel (c : Chart) loc vals :
  extend_at (relabel_chart f c) loc (relabel_item f <$> vals) =
  relabel_chart f (extend_at c loc vals).
Proof.
  unfold extend_at. revert c.
  induction vals as [|v vals IH]; intros c; simpl; [done|].
  by rewrite append_at_relabel, IH.
Qed.

Lemma next_symb_relabel item (t : gset string) :
  next_symb (relabel_item f item) t = next_symb item t.
Proof. by destruct item. Qed.

Lemma advance_relabel old item :
  advance (relabel_item f old) (relabel_item f item) =
  relabel_item f (advance old item).
Proof. destruct old. unfold advance. simpl. by rewrite fmap_app. Qed.

Lemma complete_loop_relabel fuel (c : Chart) loc item t j :
  complete_loop fuel (relabel_chart f c) loc (relabel_item f item) t j =
  result_map (relabel_chart f) (complete_loop fuel c loc item t j).
Proof.
  revert c j. induction fuel as [|fuel IH]; intros c j; simpl; [done|].
  destruct (relabel_item_fields item) as (Hr & -> & _ & _).
  rewrite item_set_at_relabel, list_lookup_fmap.
  destruct (item_set_at c (start item) !! j) as [old|]; simpl; [|done].
  rewrite next_symb_relabel, Hr. simpl.
  case_decide.
  - by rewrite advance_relabel, append_at_relabel, IH.
  - apply IH.
Qed.

Lemma complete_relabel fuel (c : Chart) loc item t :
  complete fuel (relabel_chart f c) loc (relabel_item f item) t =
  result_map (relabel_chart f) (complete fuel c loc item t).
Proof.
  unfold complete.
  destruct (relabel_item_fields item) as (_ & -> & _ & _).
  unfold relabel_chart at 1. rewrite list_lookup_fmap.
  destruct (c !! start item); simpl; [|done].
  apply complete_loop_relabel.
Qed.

Lemma predict_relabel g (c : Chart) loc symb i :
  predict (relabel_grammar f g) (relabel_chart f c) loc symb i =
  result_map (relabel_chart f) (predict g c loc symb i).
Proof.
  unfold predict.
  assert (symb ≫= (λ s, rules (relabel_grammar f g) !! s) =
          relabel_rules f <$> (symb ≫= (λ s, rules g !! s))) as ->.
  { destruct symb as [s|]; simpl; [|done]. apply lookup_fmap. }
  destruct (symb ≫= _) as [rs|]; simpl; [|done].
  rewrite <- extend_at_relabel. do 2 f_equal.
  unfold relabel_rules. rewrite <- !list_fmap_compose.
  by apply list_fmap_ext.
Qed.

Lemma scan_relabel (c : Chart) item symb word i :
  scan (relabel_chart f c) (relabel_item f item) symb word i =
  result_map (relabel_chart f) (scan c item symb word i).
Proof.
  unfold scan. case_decide; [|done].
  unfold relabel_chart at 1. rewrite list_lookup_fmap.
  destruct (c !! (i + 1)); simpl; [|done].
  rewrite <- append_at_relabel. by destruct item.
Qed.

Lemma process_item_relabel fuel g t word i (c : Chart) item :
  process_item fuel (relabel_grammar f g) t word i (relabel_chart f c)
    (relabel_item f item) =
  result_map (relabel_chart f) (process_item fuel g t word i c item).
Proof.
  unfold process_item. rewrite next_symb_relabel.
  destruct (next_symb item t) as [[] symb].
  - apply complete_relabel.
  - apply scan_relabel.
  - apply predict_relabel.
Qed.

Lemma process_loop_relabel n fuel g t word i (c : Chart) k :
  process_loop n fuel (relabel_grammar f g) t word i (relabel_chart f c) k =
  result_map (relabel_chart f) (process_loop n fuel g t word i c k).
Proof.
  revert c k. induction n as [|n IH]; intros c k; simpl; [done|].
  rewrite item_set_at_relabel, list_lookup_fmap.
  destruct (item_set_at c i !! k) as [item|]; simpl; [|done].
  rewrite !result_bind_unfold, process_item_relabel.
  destruct (process_item fuel g t word i c item); simpl; [apply IH|done..].
Qed.

Lemma main_loop_relabel fuel g t words i (c : Chart) :
  main_loop fuel (relabel_grammar f g) t words i (relabel_chart f c) =
  result_map (relabel_chart f) (main_loop fuel g t words i c).
Proof.
  revert i c. induction words as [|word words IH]; intros i c; simpl;
    [done|].
  unfold relabel_chart at 1. rewrite list_lookup_fmap.
  destruct (c !! i); simpl; [|done].
  rewrite !result_bind_unfold.
  change (relabel_items f <$> c) with (relabel_chart f c).
  rewrite process_loop_relabel.
  destruct (process_loop fuel fuel g t word i c 0); simpl; [apply IH|done..].
Qed.

Lemma sweep_loop_relabel n fuel t loc (c : Chart) k :
  sweep_loop n fuel t loc (relabel_chart f c) k =
  result_map (relabel_chart f) (sweep_loop n fuel t loc c k).
Proof.
  revert c k. induction n as [|n IH]; intros c k; simpl; [done|].
  rewrite item_set_at_relabel, list_lookup_fmap.
  destruct (item_set_at c loc !! k) as [item|]; simpl; [|done].
  rewrite next_symb_relabel.
  destruct (next_symb item t).1; [|apply IH..].
  rewrite !result_bind_unfold, complete_relabel.
  destruct (complete fuel c loc item t); simpl; [apply IH|done..].
Qed.

Lemma final_sweep_relabel fuel t (c : Chart) :
  final_sweep fuel t (relabel_chart f c) =
  result_map (relabel_chart f) (final_sweep fuel t c).
Proof.
  unfold final_sweep. destruct c as [|s c]; [done|].
  rewrite <- sweep_loop_relabel. unfold relabel_chart.
  by rewrite !length_fmap.
Qed.

Lemma initial_chart_relabel rs (w : list Symbol) :
  initial_chart (relabel_rule f <$> rs) w =
  relabel_chart f (initial_chart rs w).
Proof.
  unfold initial_chart, relabel_chart.
  rewrite fmap_cons, fmap_replicate. f_equal.
  unfold relabel_items. rewrite <- !list_fmap_compose.
  by apply list_fmap_ext.
Qed.

Lemma earley_fuel_relabel fuel g t w :
  earley_fuel fuel (relabel_grammar f g) t w =
  result_map (relabel_chart f) (earley_fuel fuel g t w).
Proof.
  unfold earley_fuel. simpl. rewrite lookup_fmap.
  destruct (rules g !! start_rule g) as [rs|]; simpl; [|done].
  unfold relabel_rules.
  rewrite !result_bind_unfold, initial_chart_relabel, main_loop_relabel.
  destruct (main_loop fuel g t w 0 (initial_chart rs w)); simpl;
    [apply final_sweep_relabel|done..].
Qed.

Lemma to_lr_relabel item :
  to_lr (relabel_item f item) = relabel_rule f <$> to_lr item.
Proof.
  induction item as [r s d p IH] using EarleyItem_nested_ind.
  cbn [relabel_item to_lr].
  rewrite !foldl_app_concat, fmap_app, !app_nil_l. f_equal.
  induction IH as [|x p Hx _ IHp]; [done|].
  rewrite !fmap_cons. cbn [concat]. by rewrite fmap_app, Hx, IHp.
Qed.

Lemma find_relabel (h : EarleyItem → bool) (l : list EarleyItem) :
  (∀ x, h (relabel_item f x) = h x) →
  find h (relabel_item f <$> l) = relabel_item f <$> find h l.
Proof.
  intros Hh. induction l as [|x l IH]; simpl; [done|].
  rewrite Hh. by destruct (h x).
Qed.

Lemma acceptance_relabel (c : Chart) (w : list Symbol) s :
  acceptance (relabel_chart f c) w s = relabel_item f <$> acceptance c w s.
Proof.
  unfold acceptance, relabel_chart. rewrite length_fmap.
  case_decide; [done|].
  unfold final_position. rewrite fmap_last.
  assert (default [] (relabel_items f <$> last c) =
          relabel_item f <$> default [] (last c)) as ->
    by by destruct (last c).
  apply find_relabel. intros x. by destruct x.
Qed.

Lemma parse_relabel fuel g t w :
  parse fuel (relabel_grammar f g) t w =
  result_map (option_map (relabel_rules f)) (parse fuel g t w).
Proof.
  unfold parse. rewrite !result_bind_unfold, earley_fuel_relabel.
  destruct (earley_fuel fuel g t w) as [c| | |]; simpl; [|done..].
  rewrite acceptance_relabel.
  destruct (acceptance c w (start_rule g)) as [item|]; simpl; [|done].
  unfold relabel_rules. by rewrite to_lr_relabel, fmap_reverse.
Qed.

Lemma script_output_relabel r :
  script_output (result_map (option_map (relabel_rules f)) r) =
  script_output r.
Proof.
  destruct r as [[out|]| | |]; simpl; [|done..].
  unfold relabel_rules. by rewrite <- list_fmap_compose.
Qed.

Lemma add_rule_relabel m r :
  add_rule (relabel_rules f <$> m) (relabel_rule f r) =
  relabel_rules f <$> add_rule m r.
Proof.
  unfold add_rule. simpl. rewrite lookup_fmap.
  destruct (m !! lhs r); simpl; rewrite fmap_insert; [|done].
  unfold relabel_rules. by rewrite fmap_app.
Qed.

Lemma foldl_add_rule_relabel m rs :
  foldl add_rule (relabel_rules f <$> m) (relabel_rule f <$> rs) =
  relabel_rules f <$> foldl add_rule m rs.
Proof.
  revert m. induction rs as [|r rs IH]; intros m; [done|].
  rewrite fmap_cons. cbn [foldl]. by rewrite add_rule_relabel, IH.
Qed.

Lemma grammar_init_relabel rs start :
  mkGrammar (foldl add_rule ∅ (relabel_rule f <$> rs)) start =
  relabel_grammar f (mkGrammar (foldl add_rule ∅ rs) start).
Proof.
  unfold relabel_grammar. simpl. f_equal.
  by rewrite <- foldl_add_rule_relabel, fmap_empty.
Qed.

End relabel.

(** ** An invariant principle for the engine *)

(** Whatever is kept by the insertion of an item whose dot is not at the
    start ([scan] and [complete] insert no other) and by the call of
    [extend] that [predict] makes, is kept by every loop of the engine. *)
Section engine_keeps.
Context (g : Grammar) (t : gset string) (P : Chart → Prop).
Context (P_append : ∀ (c : Chart) loc val,
           P c → 0 < dot val → P (append_at c loc val)).
Context (P_predict : ∀ (c : Chart) i s rs,
           P c → rules g !! s = Some rs →
           P (extend_at c i ((λ r, mkItem r i 0 []) <$> rs))).
Local Set Default Proof Using "Type*".

Lemma complete_loop_keeps fuel (c : Chart) loc item j c' :
  P c → complete_loop fuel c loc item t j = Ok c' → P c'.
Proof.
  revert c j. induction fuel as [|fuel IH]; intros c j HP; simpl; [done|].
  destruct (item_set_at c (start item) !! j) as [old|];
    [|by intros [= <-]].
  apply IH. case_decide; [|done].
  apply P_append; [done|]. unfold advance. simpl. lia.
Qed.

Lemma complete_keeps fuel (c : Chart) loc item c' :
  P c → complete fuel c loc item t = Ok c' → P c'.
Proof.
  unfold complete. destruct (c !! start item); [|done].
  apply complete_loop_keeps.
Qed.

Lemma process_item_keeps fuel word i (c : Chart) item c' :
  P c → process_item fuel g t word i c item = Ok c' → P c'.
Proof.
  intros HP. unfold process_item.
  destruct (next_symb item t) as [[] symb].
  - by apply complete_keeps.
  - unfold scan. case_decide; [|by intros [= <-]].
    destruct (c !! (i + 1)); [|done].
    intros [= <-]. apply P_append; [done|]. simpl. lia.
  - unfold predict. destruct symb as [s|]; simpl; [|done].
    destruct (rules g !! s) as [rs|] eqn:Hs; [|done].
    intros [= <-]. by eapply P_predict.
Qed.

Lemma process_loop_keeps n fuel word i (c : Chart) k c' :
  P c → process_loop n fuel g t word i c k = Ok c' → P c'.
Proof.
  revert c k. induction n as [|n IH]; intros c k HP; simpl; [done|].
  destruct (item_set_at c i !! k) as [item|]; [|by intros [= <-]].
  rewrite result_bind_unfold.
  destruct (process_item fuel g t word i c item) as [c1| | |] eqn:E;
    simpl; [|done..].
  apply IH. by eapply process_item_keeps.
Qed.

Lemma main_loop_keeps fuel words i (c : Chart) c' :
  P c → main_loop fuel g t words i c = Ok c' → P c'.
Proof.
  revert i c. induction words as [|word words IH]; intros i c HP; simpl;
    [by intros [= <-]|].
  destruct (c !! i); [|by intros [= <-]].
  rewrite result_bind_unfold.
  destruct (process_loop fuel fuel g t word i c 0) as [c1| | |] eqn:E;
    simpl; [|done..].
  apply IH. by eapply process_loop_keeps.
Qed.

Lemma sweep_loop_keeps n fuel loc (c : Chart) k c' :
  P c → sweep_loop n fuel t loc c k = Ok c' → P c'.
Proof.
  revert c k. induction n as [|n IH]; intros c k HP; simpl; [done|].
  destruct (item_set_at c loc !! k) as [item|]; [|by intros [= <-]].
  destruct (next_symb item t).1; [|by apply IH..].
  rewrite result_bind_unfold.
  destruct (complete fuel c loc item t) as [c1| | |] eqn:E; simpl; [|done..].
  apply IH. by eapply complete_keeps.
Qed.

Lemma final_sweep_keeps fuel (c : Chart) c' :
  P c → final_sweep fuel t c = Ok c' → P c'.
Proof. unfold final_sweep. destruct c; [done|]. apply sweep_loop_keeps. Qed.

End engine_keeps.

(** ** Predicted items stand in the order of declaration *)

Lemma extend_fresh s vals :
  (∀ x v, x ∈ s → v ∈ vals → item_key x ≠ item_key v) →
  NoDup (item_key <$> vals) →
  extend s vals = s ++ vals.
Proof.
  unfold extend. revert s.
  induction vals as [|v vals IH]; intros s Hs Hnd; cbn [foldl].
  - by rewrite app_nil_r.
  - rewrite fmap_cons in Hnd. apply NoDup_cons in Hnd as [Hv Hnd].
    rewrite append_new.
    + rewrite IH; [by rewrite <- app_assoc| |done].
      intros x v' [Hx|Hx]%elem_of_app Hv'; [apply Hs; [done|by right]|].
      apply list_elem_of_singleton in Hx as ->.
      intros Hk. apply Hv. rewrite Hk. by apply list_elem_of_fmap_2.
    + apply contains_false. intros el Hel. apply Hs; [done|by left].
Qed.

Lemma NoDup_rid_filter (P : Rule → Prop) `{!∀ r, Decision (P r)} rs :
  NoDup (rid <$> rs) → NoDup (rid <$> filter P rs).
Proof.
  induction rs as [|r rs IH]; [done|].
  rewrite fmap_cons. intros [Hr Hnd]%NoDup_cons.
  destruct (decide (P r)).
  - rewrite filter_cons_True by done. rewrite fmap_cons.
    apply NoDup_cons. split; [|by apply IH].
    intros (r' & Heq & Hr')%list_elem_of_fmap. apply Hr.
    apply list_elem_of_fmap. exists r'. split; [done|].
    by apply list_elem_of_filter in Hr' as [_ ?].
  - rewrite filter_cons_False by done. by apply IH.
Qed.

Section declaration_order.
Context (rs : list Rule) (start : Symbol) (Hid : NoDup (rid <$> rs)).
Local Set Default Proof Using "Type*".

Local Abbreviation g := (mkGrammar (foldl add_rule ∅ rs) start).

Lemma rules_filter s l :
  rules g !! s = Some l → l = filter (λ r, lhs r = s) rs.
Proof using Type.
  simpl. rewrite grammar_lookup. by destruct (filter _ rs); intros [= <-].
Qed.

Lemma rules_other_symbol s l s' l' r r' :
  rules g !! s = Some l → rules g !! s' = Some l' →
  r ∈ l → r' ∈ l' → rid r = rid r' → s = s'.
Proof.
  intros ->%rules_filter ->%rules_filter.
  intros [<- Hr]%list_elem_of_filter [<- Hr']%list_elem_of_filter Heq.
  apply list_elem_of_lookup_1 in Hr as [i Hi].
  apply list_elem_of_lookup_1 in Hr' as [j Hj].
  assert (i = j) as ->; [|congruence].
  eapply NoDup_lookup; [done| |].
  - by rewrite list_lookup_fmap, Hi.
  - by rewrite list_lookup_fmap, Hj, Heq.
Qed.

Lemma predicted_keys_NoDup s l i :
  rules g !! s = Some l →
  NoDup (item_key <$> ((λ r, mkItem r i 0 []) <$> l)).
Proof.
  intros ->%rules_filter. rewrite <- list_fmap_compose.
  pose proof (NoDup_rid_filter (λ r, lhs r = s) rs Hid) as Hnd.
  induction (filter (λ r, lhs r = s) rs) as [|r l IH]; [constructor|].
  rewrite fmap_cons in *. apply NoDup_cons in Hnd as [Hr Hnd].
  apply NoDup_cons. split; [|by apply IH].
  intros (r' & Hk & Hr')%list_elem_of_fmap. apply Hr.
  apply list_elem_of_fmap. exists r'. split; [|done].
  unfold item_key in Hk. simpl in Hk. by injection Hk.
Qed.

Lemma predicted_initial rs0 (w : list Symbol) :
  rules g !! start = Some rs0 →
  predicted_in_order g (initial_chart rs0 w).
Proof.
  intros Hrs0 i s l Hl. destruct i as [|i].
  - destruct (decide (s = start)) as [->|Hne].
    + right. exists [], []. rewrite app_nil_r. simpl.
      rewrite Hl in Hrs0. by injection Hrs0 as ->.
    + left. intros x r (r0 & -> & Hr0)%list_elem_of_fmap Hr Hk.
      apply Hne. symmetry.
      apply (rules_other_symbol _ _ _ _ r0 r Hrs0 Hl Hr0 Hr).
      unfold item_key in Hk. simpl in Hk. by injection Hk.
  - left. intros x r Hx. by apply initial_chart_tail in Hx.
Qed.

Lemma predicted_append (c : Chart) loc val :
  predicted_in_order g c → 0 < dot val →
  predicted_in_order g (append_at c loc val).
Proof using Type.
  intros HP Hdot i s l Hl.
  destruct (decide (loc < length c)) as [Hloc|Hloc];
    [|rewrite append_at_ge by lia; by apply (HP i s l)].
  destruct (decide (i = loc)) as [->|Hne];
    [|rewrite item_set_at_append_at_ne by done; by apply (HP i s l)].
  destruct (append_at_cases c loc val Hloc) as [[_ ->]|[_ ->]];
    [by apply (HP loc s l)|].
  destruct (HP loc s l Hl) as [Habs|(l1 & l2 & Heq)].
  - left. intros x r [Hx|Hx]%elem_of_app Hr; [by apply Habs|].
    apply list_elem_of_singleton in Hx as ->.
    unfold item_key. intros [= _ _ H]. lia.
  - right. exists l1, (l2 ++ [val]). by rewrite Heq, <- !app_assoc.
Qed.

Lemma predicted_predict (c : Chart) i0 s0 rs0 :
  predicted_in_order g c → rules g !! s0 = Some rs0 →
  predicted_in_order g (extend_at c i0 ((λ r, mkItem r i0 0 []) <$> rs0)).
Proof.
  intros HP Hrs0 i s l Hl.
  destruct (decide (i0 < length c)) as [Hloc|Hloc];
    [|rewrite extend_at_ge by lia; by apply (HP i s l)].
  destruct (decide (i = i0)) as [->|Hne].
  2:{ assert (item_set_at (extend_at c i0 ((λ r, mkItem r i0 0 []) <$> rs0)) i
              = item_set_at c i) as ->; [|by apply (HP i s l)].
      unfold item_set_at. by rewrite lookup_extend_at_ne. }
  rewrite item_set_at_extend_at by done.
  destruct (decide (s = s0)) as [->|Hs].
  - rewrite Hl in Hrs0. injection Hrs0 as <-. right.
    destruct (HP i0 s0 l Hl) as [Habs|(l1 & l2 & Heq)].
    + exists (item_set_at c i0), []. rewrite app_nil_r.
      apply extend_fresh; [|by eapply predicted_keys_NoDup].
      intros x v Hx (r & -> & Hr)%list_elem_of_fmap. by apply Habs.
    + exists l1, l2. rewrite extend_present; [done|].
      intros v Hv. apply contains_spec. exists v. split; [|done].
      rewrite Heq. apply elem_of_app. right. apply elem_of_app. by left.
  - destruct (HP i0 s l Hl) as [Habs|(l1 & l2 & Heq)].
    + left. intros x r [Hx|Hx]%extend_elem Hr; [by apply Habs|].
      apply list_elem_of_fmap in Hx as (r0 & -> & Hr0).
      unfold item_key. simpl. intros [= Heq]. apply Hs.
      by apply (rules_other_symbol _ _ _ _ r r0 Hl Hrs0 Hr Hr0).
    + right.
      destruct (extend_prefix (item_set_at c i0)
                  ((λ r, mkItem r i0 0 []) <$> rs0)) as [k ->].
      exists l1, (l2 ++ k). by rewrite Heq, <- !app_assoc.
Qed.

Lemma earley_predicted fuel t w chart :
  earley_fuel fuel g t w = Ok chart → predicted_in_order g chart.
Proof.
  unfold earley_fuel.
  destruct (rules g !! start_rule g) as [rs0|] eqn:Hrs0; [|done].
  rewrite result_bind_unfold.
  destruct (main_loop fuel g t w 0 (initial_chart rs0 w)) as [mid| | |]
    eqn:Hmain; simpl; [|done..].
  intros Hsweep.
  eapply (final_sweep_keeps g t (predicted_in_order g));
    [apply predicted_append|apply predicted_predict| |exact Hsweep].
  eapply (main_loop_keeps g t (predicted_in_order g));
    [apply predicted_append|apply predicted_predict| |exact Hmain].
  by apply predicted_initial.
Qed.

End declaration_order.

(** ** C8: determinism and the breaking of ties *)

Lemma append_at_present (c : Chart) loc val :
  contains (item_set_at c loc) val = true → append_at c loc val = c.
Proof.
  intros H. unfold append_at. rewrite append_dup by done.
  unfold item_set_at. destruct (c !! loc) as [s|] eqn:E; simpl.
  - by apply list_insert_id.
  - apply lookup_ge_None in E. by apply list_insert_ge.
Qed.

(** C8.  The script's result is a value of the script, the same for every
    sufficient budget of the model.  A second run, which builds the same
    rules in the same order as other objects, goes through the same steps:
    [earley] returns the same chart up to the identity of the rule
    objects, the acceptance check picks the same item, [to_lr] extracts
    the same rules, and the text printed is the same.

    Ties are broken by the order of declaration and the order of
    discovery, and by nothing else.  Declaration: [Grammar.__init__] files
    the rules of a symbol in the order they were declared; the first
    position starts with the items of the start symbol's rules in that
    order; and in the returned chart the items predicted for a symbol
    stand together, in that order.  Discovery: the returned chart is
    reached from the initial one by insertions through [ItemSet.append],
    each of which leaves every entry where it is and adds at the end at
    most; inserting an item equal to an entry changes nothing, so the
    backpointers recorded first stay; no two entries of a position are
    equal (at the first position, when the declared rules are different
    objects); and the derivation printed is read off the first accepting
    item of the last position. *)
Theorem parse_deterministic rs start g t w fuel1 fuel2 :
  Grammar_init rs start = Ok g →
  enough_fuel g w < fuel1 →
  enough_fuel g w < fuel2 →
  (parse fuel1 g t w = parse fuel2 g t w ∧
   parse fuel1 g t w ≠ OutOfFuel) ∧
  (∀ f : nat → nat, Inj (=) (=) f →
     Grammar_init (relabel_rule f <$> rs) start = Ok (relabel_grammar f g) ∧
     earley_fuel fuel1 (relabel_grammar f g) t w =
       result_map (relabel_chart f) (earley_fuel fuel1 g t w) ∧
     (∀ chart, acceptance (relabel_chart f chart) w start =
                 relabel_item f <$> acceptance chart w start) ∧
     (∀ item, to_lr (relabel_item f item) = relabel_rules f (to_lr item)) ∧
     parse fuel1 (relabel_grammar f g) t w =
       result_map (option_map (relabel_rules f)) (parse fuel1 g t w) ∧
     script_output (parse fuel1 (relabel_grammar f g) t w) =
       script_output (parse fuel1 g t w)) ∧
  (∀ s l, rules g !! s = Some l → l = filter (λ r, lhs r = s) rs) ∧
  (∀ chart, earley_fuel fuel1 g t w = Ok chart →
     (∃ rs0, rules g !! start = Some rs0 ∧
        item_set_at (initial_chart rs0 w) 0 = (λ r, mkItem r 0 0 []) <$> rs0 ∧
        rtc (chart_step g t w) (initial_chart rs0 w) chart) ∧
     (NoDup (rid <$> rs) → predicted_in_order g chart) ∧
     (∀ i, 0 < i ∨ NoDup (rid <$> rs) →
        NoDup (item_key <$> item_set_at chart i)) ∧
     (∀ last_item, acceptance chart w start = Some last_item →
        (∃ l1 l2, final_position chart = l1 ++ last_item :: l2 ∧
                  ∀ x, x ∈ l1 → accepting start x = false) ∧
        ∀ out, parse fuel1 g t w = Ok (Some out) →
               out = reverse (to_lr last_item))) ∧
  (∀ c c', chart_step g t w c c' → chart_le c c') ∧
  (∀ (c : Chart) loc val,
     contains (item_set_at c loc) val = true → append_at c loc val = c).
Proof.
  intros [= <-] H1 H2.
  split; [|split; [|split; [|split; [|split]]]].
  - unfold parse.
    rewrite (earley_fuel_enough fuel1), (earley_fuel_enough fuel2) by done.
    split; [done|]. rewrite result_bind_unfold.
    destruct (earley_terminates (mkGrammar (foldl add_rule ∅ rs) start) t w)
      as [[c ->]|[k ->]]; simpl; intros ?; discriminate.
  - intros f Hf. split; [|split; [|split; [|split; [|split]]]].
    + unfold Grammar_init. by rewrite grammar_init_relabel.
    + by apply earley_fuel_relabel.
    + intros chart. by apply acceptance_relabel.
    + intros item. by apply to_lr_relabel.
    + by apply parse_relabel.
    + by rewrite parse_relabel, script_output_relabel.
  - apply rules_filter.
  - intros chart Hrun.
    pose proof (earley_outcome fuel1
                  (mkGrammar (foldl add_rule ∅ rs) start) t w) as Hout.
    rewrite Hrun in Hout. destruct Hout as (rs0 & Hrs0 & Hreach).
    split; [by exists rs0|]. split; [|split].
    + intros Hid. by eapply earley_predicted.
    + intros i Hi. eapply rtc_NoDup; [done|].
      apply initial_chart_NoDup. intros ->.
      destruct Hi as [?|Hid]; [lia|].
      apply rules_filter in Hrs0 as ->. by apply NoDup_rid_filter.
    + intros last_item Hacc. split.
      * unfold acceptance in Hacc. case_decide; [done|].
        by apply find_first.
      * intros out. unfold parse.
        rewrite Hrun, result_bind_unfold. simpl in *. rewrite Hacc.
        by intros [= <-].
  - apply chart_step_le.
  - apply append_at_present.
Qed.

Lemma parse_deterministic_witness :
  parse 300 script_grammar script_terminals
    ["1"; "+"; "2"; "-"; "3"]%string =
  parse 1000 script_grammar script_terminals
    ["1"; "+"; "2"; "-"; "3"]%string ∧
  script_output
    (parse 300 (relabel_grammar (λ n, n + 100) script_grammar)
       script_terminals ["1"; "+"; "2"; "-"; "3"]%string) =
  script_output
    (parse 300 script_grammar script_terminals
       ["1"; "+"; "2"; "-"; "3"]%string).
Proof.
  assert (Grammar_init script_rules "expr"%string = Ok script_grammar)
    as H0 by reflexivity.
  assert (enough_fuel script_grammar ["1"; "+"; "2"; "-"; "3"]%string < 300)
    as H1 by (vm_compute; lia).
  assert (enough_fuel script_grammar ["1"; "+"; "2"; "-"; "3"]%string < 1000)
    as H2 by (vm_compute; lia).
  assert (Inj (=) (=) (λ n : nat, n + 100)) as Hf by (intros x y ?; lia).
  pose proof (parse_deterministic script_rules "expr"%string script_grammar
                script_terminals ["1"; "+"; "2"; "-"; "3"]%string 300 1000
                H0 H1 H2) as (Hfuel & Hrun & _).
  split; [exact (proj1 Hfuel)|].
  exact (proj2 (proj2 (proj2 (proj2 (proj2 (Hrun _ Hf)))))).
Defined.

(** With two rules for the same word the rule declared first is the one
    in the printed derivation; the printed text does not tell. *)
Example tie_break_declaration_order :
  printed_rule_ids
    (parse 20 (twin_grammar twin_first) twin_terminals ["d"]%string)
  = Ok (Some [1]) ∧
  printed_rule_ids
    (parse 20 (twin_grammar twin_second) twin_terminals ["d"]%string)
  = Ok (Some [2]) ∧
  script_output
    (parse 20 (twin_grammar twin_first) twin_terminals ["d"]%string)
  = Ok (Some "E -> d"%string) ∧
  script_output
    (parse 20 (twin_grammar twin_second) twin_terminals ["d"]%string)
  = Ok (Some "E -> d"%string).
Proof. repeat split; vm_compute; reflexivity. Qed.

(** The text printed for "2": two lines. *)
Example script_output_2 :
  script_output (parse 300 script_grammar script_terminals ["2"]%string)
  = Ok (Some (String.concat (String (Ascii.ascii_of_nat 10) EmptyString)
                ["expr -> term"; "term -> 2"]%string)).
Proof. vm_compute. reflexivity. Qed.
